(** * Page replacement simulator: FIFO, LRU and Optimal

    A shallow embedding of the simulation engine of [main.py]
    ([simulate_fifo], [simulate_lru], [simulate_optimal] and the
    [StepResult] / [AlgorithmResult] records) together with the
    properties of the engine that its specification states.

    Python integers are [Z]; positions inside a list are [nat]; the
    dictionary [last_used] is a [gmap Z Z]; an uncaught Python exception
    is the [Raise] branch of the result type [res].

    The development also covers [print_step_table], as the list of the
    strings it prints, and the two input functions
    [get_frames_from_user] and [get_reference_string_from_user], over a
    console of pending and written lines. *)

From Stdlib Require Import ZArith QArith Ascii.
From stdpp Require Import gmap strings list pretty.

Local Open Scope Z_scope.

(** ** Exceptions *)

Inductive exn : Set := IndexError | ValueError.

Inductive res (A : Type) : Type :=
| Ok (a : A)
| Raise (e : exn).
Arguments Ok {A} a.
Arguments Raise {A} e.

#[global] Instance res_ret : MRet res := λ A a, Ok a.
#[global] Instance res_bind : MBind res := λ A B f m,
  match m with Ok a => f a | Raise e => Raise e end.
#[global] Instance res_fmap : FMap res := λ A B f m,
  match m with Ok a => Ok (f a) | Raise e => Raise e end.

(** ** The Python list and dict primitives the engine uses *)

Module Py.

(** [x in l] *)
Definition contains (x : Z) (l : list Z) : bool := bool_decide (x ∈ l).

(** position of the first [x] in [l], counting from [pos] *)
Fixpoint find_from (x : Z) (l : list Z) (pos : nat) : option nat :=
  match l with
  | [] => None
  | y :: l' => if decide (y = x) then Some pos else find_from x l' (S pos)
  end.

(** [l.index(x, start)]: the least position [>= start] holding [x];
    [ValueError] when there is none. *)
Definition index (l : list Z) (x : Z) (start : nat) : res nat :=
  match find_from x (drop start l) start with
  | Some j => Ok j
  | None => Raise ValueError
  end.

(** [l.pop(0)] *)
Definition pop0 (l : list Z) : res (Z * list Z) :=
  match l with
  | [] => Raise IndexError
  | x :: l' => Ok (x, l')
  end.

(** [l[i] = v], with Python's negative indices and its [IndexError]. *)
Definition setitem (l : list Z) (i : Z) (v : Z) : res (list Z) :=
  let n := Z.of_nat (length l) in
  let j := if i <? 0 then i + n else i in
  if (0 <=? j) && (j <? n) then Ok (<[Z.to_nat j := v]> l)
  else Raise IndexError.

(** the scan of [min(l, key=key)]: a later element replaces the
    current best only when its key is strictly smaller. *)
Fixpoint min_scan (key : Z → Z) (best : Z) (l : list Z) : Z :=
  match l with
  | [] => best
  | x :: l' =>
      if key x <? key best then min_scan key x l' else min_scan key best l'
  end.

(** [min(l, key=key)]; [ValueError] on the empty list. *)
Definition min_key (key : Z → Z) (l : list Z) : res Z :=
  match l with
  | [] => Raise ValueError
  | x :: l' => Ok (min_scan key x l')
  end.

(** [d.get(k, dflt)] *)
Definition get (d : gmap Z Z) (k : Z) (dflt : Z) : Z := default dflt (d !! k).

(** [for i, x in enumerate(l, start=i): s = body(i, x, s)] *)
Fixpoint for_enumerate {S : Type} (body : Z → Z → S → res S)
    (i : Z) (l : list Z) (s : S) : res S :=
  match l with
  | [] => Ok s
  | x :: l' => s' ← body i x s; for_enumerate body (i + 1) l' s'
  end.

End Py.

(** ** The step trace model *)

Record StepResult : Type := mkStepResult {
  step : Z;
  page : Z;
  frames : list Z;
  is_hit : bool
}.

Record AlgorithmResult : Type := mkAlgorithmResult {
  name : string;
  steps : list StepResult;
  total_faults : Z
}.

Definition total_accesses (r : AlgorithmResult) : Z :=
  Z.of_nat (length (steps r)).

Definition total_hits (r : AlgorithmResult) : Z :=
  total_accesses r - total_faults r.

(** The quotient is kept exact (a rational); Python rounds it to a
    float.  The zero-access branch returns the literal zero. *)
Definition hit_ratio (r : AlgorithmResult) : Q :=
  if total_accesses r =? 0 then 0%Q
  else (inject_Z (total_hits r) / inject_Z (total_accesses r))%Q.

Definition miss_ratio (r : AlgorithmResult) : Q := (1 - hit_ratio r)%Q.

(** ** FIFO *)

(** The loop state is the tuple of the function's locals
    [(frames, order, steps, faults)]. *)
Definition fifo_state : Type := list Z * list Z * list StepResult * Z.

Definition fifo_body (frames_count : Z) (i page : Z) (st : fifo_state)
    : res fifo_state :=
  let '(frames, order, steps, faults) := st in
  '(frames, order, faults, is_hit) ←
    (if Py.contains page frames then
       Ok (frames, order, faults, true)
     else
       let faults := faults + 1 in
       if Z.of_nat (length frames) <? frames_count then
         Ok (frames ++ [page], order ++ [page], faults, false)
       else
         '(victim, order) ← Py.pop0 order;
         victim_index ← Py.index frames victim 0;
         frames ← Py.setitem frames (Z.of_nat victim_index) page;
         Ok (frames, order ++ [page], faults, false));
  Ok (frames, order, steps ++ [mkStepResult i page frames is_hit], faults).

Definition fifo_init : fifo_state := ([], [], [], 0).

(** The state of the locals once the loop has consumed [l]. *)
Definition fifo_loop (frames_count : Z) (l : list Z) : res fifo_state :=
  Py.for_enumerate (fifo_body frames_count) 1 l fifo_init.

Definition simulate_fifo (reference : list Z) (frames_count : Z)
    : res AlgorithmResult :=
  '(_, _, steps, faults) ← fifo_loop frames_count reference;
  Ok (mkAlgorithmResult "FIFO" steps faults).

(** ** LRU *)

(** Locals: [(frames, last_used, steps, faults)]. *)
Definition lru_state : Type := list Z * gmap Z Z * list StepResult * Z.

Definition lru_body (frames_count : Z) (i page : Z) (st : lru_state)
    : res lru_state :=
  let '(frames, last_used, steps, faults) := st in
  '(frames, last_used, faults, is_hit) ←
    (if Py.contains page frames then
       Ok (frames, <[page := i]> last_used, faults, true)
     else
       let faults := faults + 1 in
       if Z.of_nat (length frames) <? frames_count then
         Ok (frames ++ [page], <[page := i]> last_used, faults, false)
       else
         lru_page ← Py.min_key (λ p, Py.get last_used p 0) frames;
         victim_index ← Py.index frames lru_page 0;
         frames ← Py.setitem frames (Z.of_nat victim_index) page;
         Ok (frames, <[page := i]> last_used, faults, false));
  Ok (frames, last_used, steps ++ [mkStepResult i page frames is_hit], faults).

Definition lru_init : lru_state := ([], ∅, [], 0).

Definition lru_loop (frames_count : Z) (l : list Z) : res lru_state :=
  Py.for_enumerate (lru_body frames_count) 1 l lru_init.

Definition simulate_lru (reference : list Z) (frames_count : Z)
    : res AlgorithmResult :=
  '(_, _, steps, faults) ← lru_loop frames_count reference;
  Ok (mkAlgorithmResult "LRU" steps faults).

(** ** Optimal *)

(** The inner [for idx, p in enumerate(frames)] loop, from slot [idx] on,
    with the locals [farthest_use] and [victim_index]; it returns the
    final [victim_index].  The [break] branch also stores [math.inf] in
    [farthest_use], which is never read again. *)
Fixpoint optimal_scan (reference : list Z) (current_index : nat)
    (idx : nat) (frames : list Z) (farthest_use victim_index : Z) : Z :=
  match frames with
  | [] => victim_index
  | p :: frames' =>
      match Py.index reference p (current_index + 1) with
      | Raise _ (* except ValueError: ... break *) => Z.of_nat idx
      | Ok next_use =>
          if farthest_use <? Z.of_nat next_use then
            optimal_scan reference current_index (S idx) frames'
              (Z.of_nat next_use) (Z.of_nat idx)
          else
            optimal_scan reference current_index (S idx) frames'
              farthest_use victim_index
      end
  end.

(** Locals: [(frames, steps, faults)]. *)
Definition optimal_state : Type := list Z * list StepResult * Z.

Definition optimal_body (reference : list Z) (frames_count : Z)
    (i page : Z) (st : optimal_state) : res optimal_state :=
  let '(frames, steps, faults) := st in
  let current_index := Z.to_nat (i - 1) in
  '(frames, faults, is_hit) ←
    (if Py.contains page frames then
       Ok (frames, faults, true)
     else
       let faults := faults + 1 in
       if Z.of_nat (length frames) <? frames_count then
         Ok (frames ++ [page], faults, false)
       else
         let victim_index :=
           optimal_scan reference current_index 0 frames (-1) (-1) in
         let victim_index :=
           if victim_index =? -1 then 0 else victim_index in
         frames ← Py.setitem frames victim_index page;
         Ok (frames, faults, false));
  Ok (frames, steps ++ [mkStepResult i page frames is_hit], faults).

Definition optimal_init : optimal_state := ([], [], 0).

(** The loop over the first pages [l] of [reference]; the lookahead of
    the body reads the whole of [reference]. *)
Definition optimal_loop (reference : list Z) (frames_count : Z)
    (l : list Z) : res optimal_state :=
  Py.for_enumerate (optimal_body reference frames_count) 1 l optimal_init.

Definition simulate_optimal (reference : list Z) (frames_count : Z)
    : res AlgorithmResult :=
  '(_, steps, faults) ← optimal_loop reference frames_count reference;
  Ok (mkAlgorithmResult "Optimal" steps faults).

(** ** The step table

    [print] is modelled by its output: the list of the strings the
    function prints, one per call, in order (each is followed by a
    newline on the console).  [str] of an integer is [pretty]. *)

Definition newline : string := String "010"%char "".

(** [s * n] *)
Fixpoint str_repeat (s : string) (n : nat) : string :=
  match n with
  | O => ""
  | S n' => s +:+ str_repeat s n'
  end.

(** the format specification [>w]: right-aligned in a field of [w] *)
Definition rjust (w : nat) (s : string) : string :=
  str_repeat " " (w - String.length s) +:+ s.

(** the format specification [<w]: left-aligned in a field of [w] *)
Definition ljust (w : nat) (s : string) : string :=
  s +:+ str_repeat " " (w - String.length s).

(** [sep.join(l)] *)
Fixpoint str_join (sep : string) (l : list string) : string :=
  match l with
  | [] => ""
  | [s] => s
  | s :: l' => s +:+ sep +:+ str_join sep l'
  end.

(** one cell of a row: the occupant of slot [j], or a dash when the
    snapshot has no slot [j] (an entry of the list is never [None]) *)
Definition frame_cell (fr : list Z) (j : nat) : string :=
  match fr !! j with
  | Some q => pretty q
  | None => "-"
  end.

(** the line printed for one step *)
Definition step_row (max_frames : nat) (s : StepResult) : string :=
  let frame_strs := (λ j, frame_cell (frames s) j) <$> seq 0 max_frames in
  let frame_str := str_join " " (rjust 2 <$> frame_strs) in
  let res := if is_hit s then "Hit" else "Fault" in
  rjust 4 (pretty (step s)) +:+ " | " +:+ rjust 4 (pretty (page s)) +:+
  " | " +:+ ljust (3 * max_frames) frame_str +:+ " | " +:+ res.

Definition print_step_table (result : AlgorithmResult) : list string :=
  let banner :=
    newline +:+ "===== " +:+ name result +:+ " Algorithm Step-by-Step ====="
  in
  match steps result with
  | [] => [banner; "No steps to show."]
  | first :: _ =>
      let max_frames := length (frames first) in
      let header_frames :=
        str_join " " ((λ i, "F" +:+ pretty (i + 1)%nat) <$> seq 0 max_frames)
      in
      banner ::
      (rjust 4 "Step" +:+ " | " +:+ rjust 4 "Page" +:+ " | " +:+
       ljust (3 * max_frames) header_frames +:+ " | Result") ::
      str_repeat "-" (17 + 3 * max_frames) ::
      (step_row max_frames <$> steps result)
  end.

(** ** Reading the capacity and the reference string

    The console is the list of the lines still to be read and the list
    of the texts written so far.  [input(prompt)] writes the prompt and
    takes the next line, or raises [EOFError] when there is none;
    [print(s)] writes [s] and a newline.  The builtins [str.strip],
    [int] (with [None] for its [ValueError]) and [str.split] are
    parameters of the model. *)

Record console : Type := mkConsole {
  pending : list string;
  written : list string
}.

Inductive outcome (A : Type) : Type :=
| Returned (a : A) (w : console)
| EOFError (w : console).
Arguments Returned {A} a w.
Arguments EOFError {A} w.

Definition py_print (s : string) (w : console) : console :=
  mkConsole (pending w) (written w ++ [s +:+ newline]).

Definition py_input (prompt : string) (w : console) : outcome string :=
  match pending w with
  | [] => EOFError (mkConsole [] (written w ++ [prompt]))
  | line :: rest => Returned line (mkConsole rest (written w ++ [prompt]))
  end.

Definition frames_prompt : string :=
  "Enter number of frames (positive integer): ".

Definition frames_invalid : string :=
  "Invalid input. Please enter a positive integer.".

Definition reference_prompt : string :=
  "Enter space-separated page reference string (e.g., 7 0 1 2 0 3 0 4): ".

Definition reference_invalid : string :=
  "Invalid input. Please enter integers separated by spaces.".

Definition sample_reference : list Z := [7; 0; 1; 2; 0; 3; 0; 4; 2; 3; 0; 3; 2].

Section console_input.

Variable py_strip : string → string.
Variable py_int : string → option Z.
Variable py_split : string → list string.

(** The [while True] loop of [get_frames_from_user]; every iteration
    reads one line, so the loop is a recursion on the pending lines. *)
Fixpoint frames_loop (lines : list string) (out : list string)
    : outcome Z :=
  match lines with
  | [] => EOFError (mkConsole [] (out ++ [frames_prompt]))
  | line :: rest =>
      let out := out ++ [frames_prompt] in
      let s := py_strip line in
      match py_int s with
      | Some n =>
          if n <=? 0 then
            frames_loop rest (out ++ [frames_invalid +:+ newline])
          else Returned n (mkConsole rest out)
      | None => frames_loop rest (out ++ [frames_invalid +:+ newline])
      end
  end.

Definition get_frames_from_user (w : console) : outcome Z :=
  frames_loop (pending w) (written w).

(** The [while True] loop of [get_reference_string_from_user]; the list
    comprehension stops at the first token [int] refuses. *)
Fixpoint reference_loop (lines : list string) (out : list string)
    : outcome (list Z) :=
  match lines with
  | [] => EOFError (mkConsole [] (out ++ [reference_prompt]))
  | line :: rest =>
      let out := out ++ [reference_prompt] in
      let s := py_strip line in
      match mapM py_int (py_split s) with
      | Some (x :: ref) => Returned (x :: ref) (mkConsole rest out)
      | Some [] | None =>
          reference_loop rest (out ++ [reference_invalid +:+ newline])
      end
  end.

Definition get_reference_string_from_user (w : console)
    : outcome (list Z) :=
  let w := py_print (newline +:+ "Choose reference string input mode:") w in
  let w := py_print "1. Enter manually" w in
  let w :=
    py_print "2. Use sample reference string (7 0 1 2 0 3 0 4 2 3 0 3 2)" w
  in
  match py_input "Enter choice (1/2): " w with
  | EOFError w => EOFError w
  | Returned line w =>
      let choice := py_strip line in
      if decide (choice = "2") then Returned sample_reference w
      else reference_loop (pending w) (written w)
  end.

(** a line [get_frames_from_user] answers with its error message *)
Definition frames_refused (line : string) : Prop :=
  match py_int (py_strip line) with
  | Some n => n ≤ 0
  | None => True
  end.

(** a line [get_reference_string_from_user] answers with its error
    message *)
Definition reference_refused (line : string) : Prop :=
  match mapM py_int (py_split (py_strip line)) with
  | Some (_ :: _) => False
  | Some [] | None => True
  end.

End console_input.

(** * The vocabulary of the properties *)

(** The shared contract of one reference: every algorithm resolves a
    reference to [x] against the frame list [fr] in one of three ways,
    a hit, a fault that appends, or a fault that overwrites one slot
    [v]. *)
Inductive access (c : Z) (x : Z) (fr : list Z) : list Z → bool → Prop :=
| access_hit :
    x ∈ fr → access c x fr fr true
| access_fill :
    x ∉ fr → Z.of_nat (length fr) < c → access c x fr (fr ++ [x]) false
| access_evict (v : nat) :
    x ∉ fr → c ≤ Z.of_nat (length fr) → (v < length fr)%nat →
    access c x fr (<[v := x]> fr) false.

(** the number of steps recorded as faults *)
Definition count_faults (st : list StepResult) : Z :=
  Z.of_nat (length (filter (λ s, is_hit s = false) st)).

(** What holds of the locals [fr] (frames), [st] (steps) and [faults]
    once the pages [pre] have been processed with capacity [c]. *)
Record trace_inv (c : Z) (pre fr : list Z) (st : list StepResult)
    (faults : Z) : Prop := {
  ti_nodup : NoDup fr;
  ti_bound : Z.of_nat (length fr) ≤ c;
  ti_seen : ∀ p, p ∈ fr → p ∈ pre;
  ti_pages : page <$> st = pre;
  ti_index : ∀ k s, st !! k = Some s → step s = Z.of_nat k + 1;
  ti_snap :
    Forall (λ s, NoDup (frames s) ∧ Z.of_nat (length (frames s)) ≤ c) st;
  ti_first :
    ∀ k s, st !! k = Some s → is_hit s = true → page s ∈ take k pre;
  ti_faults : faults = count_faults st
}.

(** [j] is the position of the next occurrence of page [p] in
    [reference] strictly after position [cur]. *)
Definition next_occurrence (reference : list Z) (cur : nat) (p : Z)
    (j : nat) : Prop :=
  (cur < j)%nat ∧ reference !! j = Some p ∧
  ∀ k, (cur < k < j)%nat → reference !! k ≠ Some p.

(** page [p] does not occur in [reference] after position [cur] *)
Definition never_again (reference : list Z) (cur : nat) (p : Z) : Prop :=
  ∀ k, (cur < k)%nat → reference !! k ≠ Some p.

(** Slot [v] is the victim the specification describes: the lowest slot
    whose page is never referenced again when there is one, and
    otherwise the slot whose page has the largest next occurrence, the
    lowest slot winning a tie. *)
Definition optimal_victim (reference : list Z) (cur : nat) (fr : list Z)
    (v : nat) : Prop :=
  ∃ q, fr !! v = Some q ∧
    ((never_again reference cur q ∧
      ∀ u p, (u < v)%nat → fr !! u = Some p → ¬ never_again reference cur p)
     ∨
     (∃ j, next_occurrence reference cur q j ∧
        (∀ p, p ∈ fr → ¬ never_again reference cur p) ∧
        ∀ u p ju, fr !! u = Some p → next_occurrence reference cur p ju →
                  (ju ≤ j)%nat ∧ ((u < v)%nat → (ju < j)%nat))).

(** With one frame the frame list holds the page referenced last, and a
    step is a hit exactly when it repeats the page before it. *)
Definition single_frame_inv (pre fr : list Z) (st : list StepResult) : Prop :=
  fr = match last pre with Some y => [y] | None => [] end ∧
  ∀ k s, st !! k = Some s →
         is_hit s = bool_decide (last (take k pre) = Some (page s)).

(** the step at which page [p] was brought in for the last time, read
    off the recorded steps *)
Definition arrival (st : list StepResult) (p : Z) : option Z :=
  step <$> last (filter (λ s, page s = p ∧ is_hit s = false) st).

(** every page of the queue has an arrival, and the queue lists its
    pages by increasing arrival *)
Definition oldest_first (st : list StepResult) (ord : list Z) : Prop :=
  (∀ p, p ∈ ord → is_Some (arrival st p)) ∧
  ∀ a b pa pb ta tb,
    (a < b)%nat → ord !! a = Some pa → ord !! b = Some pb →
    arrival st pa = Some ta → arrival st pb = Some tb → ta < tb.

(** the locals every algorithm has, out of the FIFO state *)
Definition fifo_view (s : fifo_state) : list Z * list StepResult * Z :=
  let '(fr, ord, st, f) := s in (fr, st, f).

(** what FIFO maintains besides: the queue holds the resident pages,
    oldest first *)
Definition fifo_good (pre : list Z) (s : fifo_state) : Prop :=
  let '(fr, ord, st, f) := s in ord ≡ₚ fr ∧ oldest_first st ord.

(** [i] is the (1-based) step of the last reference to [p] in [pre] *)
Definition last_reference (pre : list Z) (p i : Z) : Prop :=
  ∃ k : nat, i = Z.of_nat k + 1 ∧ pre !! k = Some p ∧
             ∀ k', (k < k')%nat → pre !! k' ≠ Some p.

(** the locals every algorithm has, out of the LRU state *)
Definition lru_view (s : lru_state) : list Z * list StepResult * Z :=
  let '(fr, lu, st, f) := s in (fr, st, f).

(** what LRU maintains besides: the dictionary holds, for every page
    referenced so far, the step of its last reference *)
Definition lru_good (pre : list Z) (s : lru_state) : Prop :=
  let '(fr, lu, st, f) := s in
  ∀ p i, lu !! p = Some i ↔ last_reference pre p i.

(** the state of Optimal is made of those locals only *)
Definition optimal_view (s : optimal_state)
    : list Z * list StepResult * Z := s.

(** what a returned result satisfies, whatever the algorithm *)
Definition traced (c : Z) (reference : list Z) (r : AlgorithmResult) : Prop :=
  ∃ fr, trace_inv c reference fr (steps r) (total_faults r) ∧
        (c = 1 → single_frame_inv reference fr (steps r)).

(** one reference under LRU, read on the pages of [pre] *)
Inductive lru_access (c : Z) (pre : list Z) (x : Z) (fr : list Z)
    : list Z → bool → Prop :=
| lru_access_hit :
    x ∈ fr → lru_access c pre x fr fr true
| lru_access_fill :
    x ∉ fr → Z.of_nat (length fr) < c →
    lru_access c pre x fr (fr ++ [x]) false
| lru_access_evict (v : nat) (q iq : Z) :
    x ∉ fr → c ≤ Z.of_nat (length fr) →
    fr !! v = Some q → last_reference pre q iq →
    (∀ p ip, p ∈ fr → last_reference pre p ip → iq ≤ ip) →
    lru_access c pre x fr (<[v := x]> fr) false.

(** The frames of capacity [c] are among those of capacity [c + 1], and
    a page only the larger capacity holds was last referenced before
    every page the smaller one holds. *)
Definition lru_included (pre fr1 fr2 : list Z) : Prop :=
  (∀ p, p ∈ fr1 → p ∈ fr2) ∧
  ∀ b p ib ip,
    b ∈ fr2 → b ∉ fr1 → p ∈ fr1 →
    last_reference pre b ib → last_reference pre p ip → ib < ip.

(** page [p] occurs in [reference] at position [n] or later *)
Definition alive (reference : list Z) (n : nat) (p : Z) : Prop :=
  ∃ k, (n ≤ k)%nat ∧ reference !! k = Some p.

(** one reference under Optimal, at position [n] of [reference] *)
Inductive optimal_access (c : Z) (reference : list Z) (n : nat) (x : Z)
    (fr : list Z) : list Z → bool → Prop :=
| optimal_access_hit :
    x ∈ fr → optimal_access c reference n x fr fr true
| optimal_access_fill :
    x ∉ fr → Z.of_nat (length fr) < c →
    optimal_access c reference n x fr (fr ++ [x]) false
| optimal_access_evict (v : nat) (q : Z) :
    x ∉ fr → c ≤ Z.of_nat (length fr) → fr !! v = Some q →
    (never_again reference n q ∨
     ((∀ p, p ∈ fr → ¬ never_again reference n p) ∧
      ∃ j, next_occurrence reference n q j ∧
           ∀ p jp, p ∈ fr → next_occurrence reference n p jp →
                   (jp ≤ j)%nat)) →
    optimal_access c reference n x fr (<[v := x]> fr) false.

(** What links the frames [fr1] of capacity [c] to the frames [fr2] of
    capacity [c + 1] before position [n]: a page of [fr1] that is still
    needed is in [fr2]; at most one page that is still needed is in
    [fr2] only; [fr2] has at most one page more. *)
Definition optimal_included (reference : list Z) (n : nat)
    (fr1 fr2 : list Z) : Prop :=
  (∀ p, p ∈ fr1 → alive reference n p → p ∈ fr2) ∧
  (∀ a b, a ∈ fr2 → b ∈ fr2 → a ∉ fr1 → b ∉ fr1 →
          alive reference n a → alive reference n b → a = b) ∧
  (length fr2 ≤ length fr1 + 1)%nat.

(** The capacity check as the specification words it: all three
    functions fail, and with one and the same failure kind. *)
Definition rejects_capacity (reference : list Z) (frames_count : Z) : Prop :=
  ∃ e, simulate_fifo reference frames_count = Raise e ∧
       simulate_lru reference frames_count = Raise e ∧
       simulate_optimal reference frames_count = Raise e.

(** the number of distinct pages of a list *)
Definition distinct (l : list Z) : nat := size (list_to_set l : gset Z).

(** A run of the shared contract: the frame list [fr], the recorded
    steps [st] and the fault counter [f] that some sequence of
    accesses obeying [access] leaves after the pages [pre]. *)
Inductive runs (c : Z) : list Z → list Z → list StepResult → Z → Prop :=
| runs_nil : runs c [] [] [] 0
| runs_snoc pre fr st f x fr' (h : bool) :
    runs c pre fr st f → access c x fr fr' h →
    runs c (pre ++ [x]) fr'
      (st ++ [mkStepResult (1 + Z.of_nat (length pre)) x fr' h])
      (if h then f else f + 1).

(** the frame list a step starts from: the snapshot of the step before
    it, and the empty list for the first step *)
Definition snapshot_before (st : list StepResult) (k : nat) : list Z :=
  match k with
  | O => []
  | S k' => default [] (frames <$> st !! k')
  end.

(** every resident page was referenced after every page referenced so
    far that is not resident *)
Definition most_recently_used (pre fr : list Z) : Prop :=
  ∀ p q ip iq,
    p ∈ fr → q ∉ fr →
    last_reference pre p ip → last_reference pre q iq → iq < ip.

(** every resident page was brought in after the last time any page
    that is not resident was brought in *)
Definition most_recently_loaded (st : list StepResult) (fr : list Z) : Prop :=
  ∀ p q tp tq,
    p ∈ fr → q ∉ fr → arrival st p = Some tp → arrival st q = Some tq →
    tq < tp.

(** the next [m] references of [reference] from position [n] on *)
Definition soon (reference : list Z) (n m : nat) : list Z :=
  take m (drop n reference).

(** how many pages of [fr] are among the next [m] references *)
Definition soon_count (reference : list Z) (n m : nat) (fr : list Z) : nat :=
  length (filter (λ p, p ∈ soon reference n m) fr).

(** The frames [frO] of Optimal against the frames [frA] of another
    run: whatever the horizon [m], [frA] holds at most [k] more of the
    pages needed within it than [frO] does, where [k] counts how many
    faults Optimal is ahead. *)
Definition dominated (reference : list Z) (n : nat) (frA frO : list Z)
    (k : Z) : Prop :=
  0 ≤ k ∧
  ∀ m, Z.of_nat (soon_count reference n m frA) ≤
       Z.of_nat (soon_count reference n m frO) + k.

(** the line of a step in a table that has the one column [F1], the
    slot holding page [q] *)
Definition one_slot_row (s : StepResult) (q : Z) : string :=
  rjust 4 (pretty (step s)) +:+ " | " +:+ rjust 4 (pretty (page s)) +:+
  " | " +:+ ljust 3 (rjust 2 (pretty q)) +:+ " | " +:+
  (if is_hit s then "Hit" else "Fault").

(** what is written once [get_reference_string_from_user] has shown its
    menu and asked for the choice *)
Definition reference_menu (out : list string) : list string :=
  out ++
  [newline +:+ "Choose reference string input mode:" +:+ newline;
   "1. Enter manually" +:+ newline;
   "2. Use sample reference string (7 0 1 2 0 3 0 4 2 3 0 3 2)" +:+ newline;
   "Enter choice (1/2): "].

(** * Properties of the primitives *)

Section primitives.

Lemma res_bind_Ok {A B : Type} (f : A → res B) (a : A) : Ok a ≫= f = f a.
Proof. reflexivity. Qed.

Implicit Types (l : list Z) (x v : Z).

Lemma contains_true x l : Py.contains x l = true ↔ x ∈ l.
Proof. unfold Py.contains. apply bool_decide_eq_true. Qed.

Lemma contains_false x l : Py.contains x l = false ↔ x ∉ l.
Proof. unfold Py.contains. apply bool_decide_eq_false. Qed.

Lemma find_from_Some x l pos j :
  Py.find_from x l pos = Some j ↔
  (pos ≤ j)%nat ∧ l !! (j - pos)%nat = Some x ∧
  ∀ k, (k < j - pos)%nat → l !! k ≠ Some x.
Proof.
  revert pos. induction l as [|y l IH]; intros pos; simpl.
  - split; [done|]. intros (_ & H & _). done.
  - destruct (decide (y = x)) as [->|Hne].
    + split.
      * intros [= ->]. replace (j - j)%nat with 0%nat by lia.
        split_and!; [lia|done|]. intros k Hk. lia.
      * intros (Hle & Hj & Hmin). f_equal.
        destruct (decide (j - pos = 0)%nat) as [|Hpos]; [lia|].
        exfalso. apply (Hmin 0%nat); [lia|done].
    + rewrite IH. split.
      * intros (Hle & Hj & Hmin).
        replace (j - pos)%nat with (S (j - S pos)) by lia.
        split_and!; [lia|done|]. intros [|k] Hk; simpl.
        -- congruence.
        -- apply Hmin. lia.
      * intros (Hle & Hj & Hmin).
        destruct (j - pos)%nat as [|d] eqn:Hd; simpl in Hj; [congruence|].
        replace (j - S pos)%nat with d by lia.
        split_and!; [lia|done|]. intros k Hk. apply (Hmin (S k)). lia.
Qed.

Lemma find_from_None x l pos : Py.find_from x l pos = None ↔ x ∉ l.
Proof.
  revert pos. induction l as [|y l IH]; intros pos; simpl.
  - split; [intros _; apply not_elem_of_nil|done].
  - destruct (decide (y = x)) as [->|Hne].
    + split; [done|]. intros []. left.
    + rewrite IH, not_elem_of_cons.
      split; [intros ?; split; [congruence|done]|intros [_ ?]; done].
Qed.

(** [l.index(x, start)] returns the least position from [start] on. *)
Lemma index_Ok l x start j :
  Py.index l x start = Ok j ↔
  (start ≤ j)%nat ∧ l !! j = Some x ∧
  ∀ k, (start ≤ k < j)%nat → l !! k ≠ Some x.
Proof.
  unfold Py.index.
  destruct (Py.find_from x (drop start l) start) as [j'|] eqn:Hf.
  - apply find_from_Some in Hf as (Hle & Hj & Hmin).
    rewrite lookup_drop in Hj.
    replace (start + (j' - start))%nat with j' in Hj by lia.
    assert (Hmin' : ∀ k, (start ≤ k < j')%nat → l !! k ≠ Some x).
    { intros k Hk. specialize (Hmin (k - start)%nat).
      rewrite lookup_drop in Hmin.
      replace (start + (k - start))%nat with k in Hmin by lia.
      apply Hmin. lia. }
    split.
    + intros [= <-]. done.
    + intros (Hle2 & Hj2 & Hmin2). f_equal.
      destruct (Nat.lt_trichotomy j j') as [Hlt|[->|Hgt]]; [|done|].
      * exfalso. apply (Hmin' j); [lia|done].
      * exfalso. apply (Hmin2 j'); [lia|done].
  - split; [done|]. intros (Hle & Hj & _). exfalso.
    apply find_from_None in Hf. apply Hf.
    apply list_elem_of_lookup. exists (j - start)%nat.
    rewrite lookup_drop. by replace (start + (j - start))%nat with j by lia.
Qed.

(** [l.index(x, start)] raises exactly when [x] does not occur from
    [start] on, and then it raises [ValueError]. *)
Lemma index_Raise l x start e :
  Py.index l x start = Raise e ↔
  e = ValueError ∧ ∀ k, (start ≤ k)%nat → l !! k ≠ Some x.
Proof.
  unfold Py.index.
  destruct (Py.find_from x (drop start l) start) as [j'|] eqn:Hf.
  - split; [done|]. intros [_ Hno]. exfalso.
    apply find_from_Some in Hf as (Hle & Hj & _).
    rewrite lookup_drop in Hj. apply (Hno (start + (j' - start))%nat); [lia|done].
  - apply find_from_None in Hf. split.
    + intros [= <-]. split; [done|]. intros k Hk Hlk. apply Hf.
      apply list_elem_of_lookup. exists (k - start)%nat.
      rewrite lookup_drop. by replace (start + (k - start))%nat with k by lia.
    + intros [-> _]. done.
Qed.

Lemma index_elem l x :
  x ∈ l →
  ∃ j, Py.index l x 0 = Ok j ∧ l !! j = Some x ∧
       ∀ k, (k < j)%nat → l !! k ≠ Some x.
Proof.
  intros Hx. destruct (Py.index l x 0) as [j|e] eqn:Hi.
  - exists j. apply index_Ok in Hi as (_ & Hj & Hmin).
    split_and!; [done|done|]. intros k Hk. apply Hmin. lia.
  - apply index_Raise in Hi as [_ Hno].
    apply list_elem_of_lookup in Hx as [k Hk]. destruct (Hno k); [lia|done].
Qed.

Lemma setitem_Ok l (j : nat) v :
  (j < length l)%nat → Py.setitem l (Z.of_nat j) v = Ok (<[j := v]> l).
Proof.
  intros Hj. unfold Py.setitem.
  destruct (Z.ltb_spec (Z.of_nat j) 0) as [?|_]; [lia|].
  destruct (Z.leb_spec 0 (Z.of_nat j)) as [_|?]; [|lia].
  destruct (Z.ltb_spec (Z.of_nat j) (Z.of_nat (length l))) as [_|?]; [|lia].
  simpl. by rewrite Nat2Z.id.
Qed.

Lemma setitem_nil i v : Py.setitem [] i v = Raise IndexError.
Proof.
  unfold Py.setitem. simpl.
  destruct (Z.ltb_spec i 0) as [Hneg|Hpos].
  - rewrite Z.add_0_r. destruct (Z.leb_spec 0 i); [lia|done].
  - destruct (Z.leb_spec 0 i); simpl; [|done].
    change (Z.of_nat 0) with 0.
    destruct (Z.ltb_spec i 0); [lia|done].
Qed.

(** the result of [min] is the first element with the least key *)
Lemma min_scan_spec (key : Z → Z) best l :
  let m := Py.min_scan key best l in
  (∀ y, y ∈ best :: l → key m ≤ key y) ∧
  ∃ j, (best :: l) !! j = Some m ∧
       ∀ k y, (k < j)%nat → (best :: l) !! k = Some y → key m < key y.
Proof.
  revert best. induction l as [|x l IH]; intros best; simpl.
  - split.
    + intros y ->%list_elem_of_singleton. lia.
    + exists 0%nat. split; [done|]. intros k y Hk. lia.
  - destruct (Z.ltb_spec (key x) (key best)) as [Hlt|Hge].
    + destruct (IH x) as (Hle & j & Hj & Hfst). split.
      * intros y [->|Hy]%elem_of_cons; [|by apply Hle].
        specialize (Hle x (list_elem_of_here _ _)). lia.
      * exists (S j). split; [done|]. intros [|k] y Hk Hy; simpl in Hy.
        -- injection Hy as <-.
           specialize (Hle x (list_elem_of_here _ _)). lia.
        -- apply (Hfst k y); [lia|done].
    + destruct (IH best) as (Hle & j & Hj & Hfst). split.
      * intros y [->|[->|Hy]%elem_of_cons]%elem_of_cons.
        -- apply Hle. left.
        -- specialize (Hle best (list_elem_of_here _ _)). lia.
        -- apply Hle. by right.
      * destruct j as [|j].
        -- exists 0%nat. split; [done|]. intros k y Hk. lia.
        -- exists (S (S j)). split; [done|].
           assert (Hb : key (Py.min_scan key best l) < key best)
             by (apply (Hfst 0%nat best); [lia|done]).
           intros [|[|k]] y Hk Hy; simpl in Hy.
           ++ by injection Hy as <-.
           ++ injection Hy as <-. lia.
           ++ apply (Hfst (S k) y); [lia|done].
Qed.

Lemma min_key_spec (key : Z → Z) l :
  l ≠ [] →
  ∃ m j, Py.min_key key l = Ok m ∧ l !! j = Some m ∧
         (∀ y, y ∈ l → key m ≤ key y) ∧
         ∀ k y, (k < j)%nat → l !! k = Some y → key m < key y.
Proof.
  destruct l as [|x l]; [done|]. intros _. simpl.
  destruct (min_scan_spec key x l) as (Hle & j & Hj & Hfst).
  by exists (Py.min_scan key x l), j.
Qed.

Lemma for_enumerate_app {S : Type} (body : Z → Z → S → res S) l1 l2 i s :
  Py.for_enumerate body i (l1 ++ l2) s =
  s' ← Py.for_enumerate body i l1 s;
  Py.for_enumerate body (i + Z.of_nat (length l1)) l2 s'.
Proof.
  revert i s. induction l1 as [|x l1 IH]; intros i s; simpl.
  - by rewrite Z.add_0_r.
  - destruct (body i x s) as [s'|e]; simpl; [|done].
    rewrite IH. by replace (i + 1 + Z.of_nat (length l1))
      with (i + Z.pos (Pos.of_succ_nat (length l1))) by lia.
Qed.

Lemma for_enumerate_snoc {S : Type} (body : Z → Z → S → res S) l x i s :
  Py.for_enumerate body i (l ++ [x]) s =
  s' ← Py.for_enumerate body i l s; body (i + Z.of_nat (length l)) x s'.
Proof.
  rewrite for_enumerate_app.
  destruct (Py.for_enumerate body i l s) as [s'|e]; simpl; [|done].
  by destruct (body _ x s').
Qed.

End primitives.

(** * The shared contract preserves the trace invariant *)

Lemma count_faults_snoc st s :
  count_faults (st ++ [s]) =
  if is_hit s then count_faults st else count_faults st + 1.
Proof.
  unfold count_faults. rewrite filter_app, length_app.
  destruct (is_hit s) eqn:Hh.
  - rewrite filter_cons_False by (rewrite Hh; done). simpl. lia.
  - rewrite filter_cons_True by done. simpl. lia.
Qed.

Lemma trace_inv_nil c : 0 ≤ c → trace_inv c [] [] [] 0.
Proof.
  intros Hc. split; try done.
  constructor.
Qed.

Lemma access_nodup c x fr fr' h : NoDup fr → access c x fr fr' h → NoDup fr'.
Proof.
  intros Hnd [Hin|Hnin Hlt|v Hnin Hge Hv]; [done| |].
  - apply NoDup_app. split_and!; [done| |apply NoDup_singleton].
    intros y Hy ->%list_elem_of_singleton. done.
  - apply NoDup_alt. intros a b y Ha Hb.
    destruct (decide (a = v)) as [->|Hav], (decide (b = v)) as [->|Hbv];
      [done| | |].
    + rewrite list_lookup_insert_eq in Ha by done. injection Ha as <-.
      rewrite list_lookup_insert_ne in Hb by done.
      destruct Hnin. by eapply list_elem_of_lookup_2.
    + rewrite list_lookup_insert_eq in Hb by done. injection Hb as <-.
      rewrite list_lookup_insert_ne in Ha by done.
      destruct Hnin. by eapply list_elem_of_lookup_2.
    + rewrite list_lookup_insert_ne in Ha, Hb by done.
      by eapply NoDup_lookup.
Qed.

Lemma access_length c x fr fr' h :
  1 ≤ c → Z.of_nat (length fr) ≤ c → access c x fr fr' h →
  Z.of_nat (length fr') ≤ c.
Proof.
  intros Hc Hb [Hin|Hnin Hlt|v Hnin Hge Hv]; [done| |].
  - rewrite length_app. simpl. lia.
  - by rewrite length_insert.
Qed.

Lemma access_elem c x fr fr' h p :
  access c x fr fr' h → p ∈ fr' → p ∈ fr ∨ p = x.
Proof.
  intros [Hin|Hnin Hlt|v Hnin Hge Hv] Hp; [by left| |].
  - apply elem_of_app in Hp as [?|?%list_elem_of_singleton]; auto.
  - apply list_elem_of_lookup in Hp as [k Hk].
    destruct (decide (k = v)) as [->|Hkv].
    + rewrite list_lookup_insert_eq in Hk by done. right. congruence.
    + rewrite list_lookup_insert_ne in Hk by done. left.
      by eapply list_elem_of_lookup_2.
Qed.

Lemma access_hit_inv c x fr fr' h : access c x fr fr' h → h = true → x ∈ fr.
Proof. by intros [Hin|?|?]. Qed.

Lemma trace_inv_step c pre fr st faults x fr' h :
  1 ≤ c → trace_inv c pre fr st faults → access c x fr fr' h →
  trace_inv c (pre ++ [x]) fr'
    (st ++ [mkStepResult (1 + Z.of_nat (length pre)) x fr' h])
    (if h then faults else faults + 1).
Proof.
  intros Hc [Hnd Hb Hseen Hpg Hidx Hsnap Hfirst Hf] Hacc.
  assert (Hlen : length st = length pre) by (by rewrite <- Hpg, length_fmap).
  assert (Hnd' : NoDup fr') by (by eapply access_nodup).
  assert (Hb' : Z.of_nat (length fr') ≤ c) by (by eapply access_length).
  split.
  - done.
  - done.
  - intros p Hp. apply elem_of_app.
    destruct (access_elem _ _ _ _ _ _ Hacc Hp) as [?| ->].
    + left. by apply Hseen.
    + right. left.
  - by rewrite fmap_app, Hpg.
  - intros k s Hk. apply lookup_app_Some in Hk as [Hk|[Hge Hk]].
    + by apply Hidx.
    + apply list_lookup_singleton_Some in Hk as [Hk <-]. simpl. lia.
  - apply Forall_app. split; [done|]. by repeat constructor.
  - intros k s Hk Hh. apply lookup_app_Some in Hk as [Hk|[Hge Hk]].
    + assert (k < length pre)%nat
        by (rewrite <- Hlen; by eapply lookup_lt_Some).
      rewrite take_app_le by lia. by apply Hfirst.
    + apply list_lookup_singleton_Some in Hk as [Hk <-]. simpl in *. subst h.
      assert (k = length pre) as -> by lia.
      rewrite take_app_length. apply Hseen.
      by eapply access_hit_inv.
  - rewrite count_faults_snoc. simpl. destruct h; lia.
Qed.

(** * One iteration of each loop *)

Lemma insert_Permutation (fr rest : list Z) (v : nat) (victim x : Z) :
  fr !! v = Some victim → fr ≡ₚ victim :: rest → <[v := x]> fr ≡ₚ rest ++ [x].
Proof.
  intros Hv Hp.
  assert (Hlt : (v < length fr)%nat) by (by eapply lookup_lt_Some).
  rewrite insert_take_drop by done.
  rewrite <- (take_drop_middle fr v victim Hv) in Hp.
  rewrite <- Permutation_middle in Hp. apply Permutation_cons_inv in Hp.
  rewrite <- Permutation_middle, Hp. apply Permutation_cons_append.
Qed.

Section fifo_step.

Variables (c i x : Z) (fr ord : list Z) (st : list StepResult) (f : Z).

Lemma fifo_body_hit :
  x ∈ fr →
  fifo_body c i x (fr, ord, st, f) =
  Ok (fr, ord, st ++ [mkStepResult i x fr true], f).
Proof.
  intros Hin. unfold fifo_body.
  by rewrite (proj2 (contains_true x fr) Hin).
Qed.

Lemma fifo_body_fill :
  x ∉ fr → Z.of_nat (length fr) < c →
  fifo_body c i x (fr, ord, st, f) =
  Ok (fr ++ [x], ord ++ [x],
      st ++ [mkStepResult i x (fr ++ [x]) false], f + 1).
Proof.
  intros Hnin Hlt. unfold fifo_body.
  rewrite (proj2 (contains_false x fr) Hnin).
  by destruct (Z.ltb_spec (Z.of_nat (length fr)) c); [|lia].
Qed.

Lemma fifo_body_evict victim rest :
  x ∉ fr → c ≤ Z.of_nat (length fr) →
  ord = victim :: rest → victim ∈ fr →
  ∃ v, fr !! v = Some victim ∧
       (∀ k, (k < v)%nat → fr !! k ≠ Some victim) ∧
       fifo_body c i x (fr, ord, st, f) =
       Ok (<[v := x]> fr, rest ++ [x],
           st ++ [mkStepResult i x (<[v := x]> fr) false], f + 1).
Proof.
  intros Hnin Hge -> Hvic.
  destruct (index_elem fr victim Hvic) as (v & Hidx & Hv & Hmin).
  exists v. split_and!; [done|done|]. unfold fifo_body.
  rewrite (proj2 (contains_false x fr) Hnin).
  destruct (Z.ltb_spec (Z.of_nat (length fr)) c); [lia|].
  simpl. rewrite Hidx. simpl.
  rewrite setitem_Ok by (by eapply lookup_lt_Some). done.
Qed.

End fifo_step.

Section lru_step.

Variables (c i x : Z) (fr : list Z) (lu : gmap Z Z)
  (st : list StepResult) (f : Z).

Lemma lru_body_hit :
  x ∈ fr →
  lru_body c i x (fr, lu, st, f) =
  Ok (fr, <[x := i]> lu, st ++ [mkStepResult i x fr true], f).
Proof.
  intros Hin. unfold lru_body.
  by rewrite (proj2 (contains_true x fr) Hin).
Qed.

Lemma lru_body_fill :
  x ∉ fr → Z.of_nat (length fr) < c →
  lru_body c i x (fr, lu, st, f) =
  Ok (fr ++ [x], <[x := i]> lu,
      st ++ [mkStepResult i x (fr ++ [x]) false], f + 1).
Proof.
  intros Hnin Hlt. unfold lru_body.
  rewrite (proj2 (contains_false x fr) Hnin).
  by destruct (Z.ltb_spec (Z.of_nat (length fr)) c); [|lia].
Qed.

(** the evicted slot holds a page with the least [last_used] entry, and
    every slot before it holds a page with a strictly larger one *)
Lemma lru_body_evict :
  x ∉ fr → c ≤ Z.of_nat (length fr) → fr ≠ [] →
  ∃ v q, fr !! v = Some q ∧
    (∀ p, p ∈ fr → Py.get lu q 0 ≤ Py.get lu p 0) ∧
    (∀ k p, (k < v)%nat → fr !! k = Some p →
            Py.get lu q 0 < Py.get lu p 0) ∧
    lru_body c i x (fr, lu, st, f) =
    Ok (<[v := x]> fr, <[x := i]> lu,
        st ++ [mkStepResult i x (<[v := x]> fr) false], f + 1).
Proof.
  intros Hnin Hge Hne.
  destruct (min_key_spec (λ p, Py.get lu p 0) fr Hne)
    as (m & j & Hmin & Hj & Hle & Hfst).
  destruct (index_elem fr m) as (v & Hidx & Hv & Hvmin).
  { by eapply list_elem_of_lookup_2. }
  exists v, m. split_and!; [done|done| |].
  - intros k p Hk Hp. apply (Hfst k p); [|done].
    destruct (decide (v ≤ j)%nat); [lia|].
    destruct (Hvmin j); [lia|done].
  - unfold lru_body. rewrite (proj2 (contains_false x fr) Hnin).
    destruct (Z.ltb_spec (Z.of_nat (length fr)) c); [lia|].
    rewrite Hmin. simpl. rewrite Hidx. simpl.
    rewrite setitem_Ok by (by eapply lookup_lt_Some). done.
Qed.

End lru_step.

(** ** The lookahead of Optimal *)

Section lookahead.

Variables (reference : list Z) (cur : nat).

Lemma index_next_occurrence p j :
  Py.index reference p (cur + 1) = Ok j ↔ next_occurrence reference cur p j.
Proof.
  rewrite index_Ok. unfold next_occurrence. split.
  - intros (H1 & H2 & H3). split_and!; [lia|done|].
    intros k Hk. apply H3. lia.
  - intros (H1 & H2 & H3). split_and!; [lia|done|].
    intros k Hk. apply H3. lia.
Qed.

Lemma index_never_again p :
  (∃ e, Py.index reference p (cur + 1) = Raise e) ↔
  never_again reference cur p.
Proof.
  unfold never_again. split.
  - intros [e (_ & H)%index_Raise] k Hk. apply H. lia.
  - intros H. exists ValueError. apply index_Raise. split; [done|].
    intros k Hk. apply H. lia.
Qed.

Lemma next_occurrence_not_never p j :
  next_occurrence reference cur p j → ¬ never_again reference cur p.
Proof. intros (H1 & H2 & _) H. by apply (H j). Qed.

Lemma next_occurrence_fun p j j' :
  next_occurrence reference cur p j → next_occurrence reference cur p j' →
  j = j'.
Proof.
  intros H%index_next_occurrence H'%index_next_occurrence. congruence.
Qed.

Lemma never_again_dec p :
  never_again reference cur p ∨ ∃ j, next_occurrence reference cur p j.
Proof.
  destruct (Py.index reference p (cur + 1)) as [j|e] eqn:Hi.
  - right. exists j. by apply index_next_occurrence.
  - left. apply index_never_again. by exists e.
Qed.

(** the scan stops at the first slot whose page is never used again *)
Lemma optimal_scan_dead l1 p l2 idx far vi :
  (∀ q, q ∈ l1 → ¬ never_again reference cur q) →
  never_again reference cur p →
  optimal_scan reference cur idx (l1 ++ p :: l2) far vi =
  Z.of_nat (idx + length l1).
Proof.
  revert idx far vi. induction l1 as [|q l1 IH]; intros idx far vi Hl1 Hp.
  - simpl. apply index_never_again in Hp as [e ->]. f_equal. lia.
  - simpl. destruct (Py.index reference q (cur + 1)) as [n|e] eqn:Hq.
    + assert (Hl1' : ∀ q', q' ∈ l1 → ¬ never_again reference cur q')
        by (intros q' Hq'; apply Hl1; by right).
      destruct (far <? Z.of_nat n); rewrite IH by done; f_equal; lia.
    + destruct (Hl1 q); [left|]. apply index_never_again. by exists e.
Qed.

(** with every resident page used again, the scan keeps the first slot
    holding the largest next use above [far] *)
Lemma optimal_scan_live fr idx far vi :
  (∀ q, q ∈ fr → ¬ never_again reference cur q) →
  let r := optimal_scan reference cur idx fr far vi in
  (r = vi ∧
   ∀ q n, q ∈ fr → next_occurrence reference cur q n → Z.of_nat n ≤ far)
  ∨
  (∃ k q n, r = Z.of_nat (idx + k) ∧ fr !! k = Some q ∧
     next_occurrence reference cur q n ∧ far < Z.of_nat n ∧
     ∀ u p ju, fr !! u = Some p → next_occurrence reference cur p ju →
               (ju ≤ n)%nat ∧ ((u < k)%nat → (ju < n)%nat)).
Proof.
  revert idx far vi. induction fr as [|p fr IH]; intros idx far vi Hlive.
  - left. split; [done|]. intros q n Hq. by apply elem_of_nil in Hq.
  - simpl. destruct (Py.index reference p (cur + 1)) as [n0|e] eqn:Hp.
    2:{ destruct (Hlive p); [left|]. apply index_never_again. by exists e. }
    apply index_next_occurrence in Hp.
    assert (Hlive' : ∀ q, q ∈ fr → ¬ never_again reference cur q)
      by (intros q Hq; apply Hlive; by right).
    destruct (Z.ltb_spec far (Z.of_nat n0)) as [Hlt|Hge].
    + destruct (IH (S idx) (Z.of_nat n0) (Z.of_nat idx) Hlive')
        as [[-> Hall]|(k & q & n & -> & Hk & Hn & Hfar & Hmax)].
      * right. exists 0%nat, p, n0. split_and!; [f_equal; lia|done|done|done|].
        intros [|u] p' ju Hu Hju; simpl in Hu.
        -- injection Hu as <-.
           rewrite (next_occurrence_fun _ _ _ Hju Hp). lia.
        -- split; [|lia]. apply Nat2Z.inj_le.
           apply (Hall p'); [by eapply list_elem_of_lookup_2|done].
      * right. exists (S k), q, n.
        split_and!; [f_equal; lia|done|done|lia|].
        intros [|u] p' ju Hu Hju; simpl in Hu.
        -- injection Hu as <-.
           rewrite (next_occurrence_fun _ _ _ Hju Hp). lia.
        -- destruct (Hmax u p' ju Hu Hju). lia.
    + destruct (IH (S idx) far vi Hlive')
        as [[-> Hall]|(k & q & n & -> & Hk & Hn & Hfar & Hmax)].
      * left. split; [done|].
        intros q n [->|Hq]%elem_of_cons Hn.
        -- rewrite (next_occurrence_fun _ _ _ Hn Hp). lia.
        -- by apply (Hall q).
      * right. exists (S k), q, n.
        split_and!; [f_equal; lia|done|done|lia|].
        intros [|u] p' ju Hu Hju; simpl in Hu.
        -- injection Hu as <-.
           rewrite (next_occurrence_fun _ _ _ Hju Hp). lia.
        -- destruct (Hmax u p' ju Hu Hju). lia.
Qed.

Lemma first_never_again fr :
  (∀ q, q ∈ fr → ¬ never_again reference cur q) ∨
  ∃ l1 p l2, fr = l1 ++ p :: l2 ∧ never_again reference cur p ∧
             ∀ q, q ∈ l1 → ¬ never_again reference cur q.
Proof.
  induction fr as [|p fr IH].
  - left. intros q Hq. by apply elem_of_nil in Hq.
  - destruct (never_again_dec p) as [Hnev|[j Hj]].
    + right. exists [], p, fr. split_and!; [done|done|].
      intros q Hq. by apply elem_of_nil in Hq.
    + apply next_occurrence_not_never in Hj.
      destruct IH as [Hlive|(l1 & q & l2 & -> & Hq & Hl1)].
      * left. by intros q [->|Hq]%elem_of_cons; [|apply Hlive].
      * right. exists (p :: l1), q, l2. split_and!; [done|done|].
        by intros q' [->|Hq']%elem_of_cons; [|apply Hl1].
Qed.

(** the slot the scan returns, from the initial values of the code *)
Lemma optimal_scan_victim fr :
  fr ≠ [] →
  ∃ v, optimal_scan reference cur 0 fr (-1) (-1) = Z.of_nat v ∧
       (v < length fr)%nat ∧ optimal_victim reference cur fr v.
Proof.
  intros Hne.
  destruct (first_never_again fr)
    as [Hlive|(l1 & p & l2 & -> & Hnev & Hlive1)].
  - destruct (optimal_scan_live fr 0 (-1) (-1) Hlive)
      as [[_ Hbad]|(k & q & n & Hr & Hk & Hn & _ & Hmax)].
    + destruct fr as [|p fr]; [done|].
      destruct (never_again_dec p) as [Hnev|[j Hj]].
      * destruct (Hlive p); [left|done].
      * specialize (Hbad p j (list_elem_of_here _ _) Hj). lia.
    + exists k. split_and!; [done|by eapply lookup_lt_Some|].
      exists q. split; [done|]. right. exists n. by split_and!.
  - exists (length l1). split_and!.
    + by rewrite optimal_scan_dead.
    + rewrite length_app. simpl. lia.
    + exists p. split; [by rewrite list_lookup_middle|]. left.
      split; [done|]. intros u q Hu Hq. apply Hlive1.
      rewrite lookup_app_l in Hq by done.
      by eapply list_elem_of_lookup_2.
Qed.

End lookahead.

Section optimal_step.

Variables (reference : list Z) (c i x : Z) (fr : list Z)
  (st : list StepResult) (f : Z).

Lemma optimal_body_hit :
  x ∈ fr →
  optimal_body reference c i x (fr, st, f) =
  Ok (fr, st ++ [mkStepResult i x fr true], f).
Proof.
  intros Hin. unfold optimal_body.
  by rewrite (proj2 (contains_true x fr) Hin).
Qed.

Lemma optimal_body_fill :
  x ∉ fr → Z.of_nat (length fr) < c →
  optimal_body reference c i x (fr, st, f) =
  Ok (fr ++ [x], st ++ [mkStepResult i x (fr ++ [x]) false], f + 1).
Proof.
  intros Hnin Hlt. unfold optimal_body.
  rewrite (proj2 (contains_false x fr) Hnin).
  by destruct (Z.ltb_spec (Z.of_nat (length fr)) c); [|lia].
Qed.

Lemma optimal_body_evict :
  x ∉ fr → c ≤ Z.of_nat (length fr) → fr ≠ [] →
  ∃ v, (v < length fr)%nat ∧
    optimal_victim reference (Z.to_nat (i - 1)) fr v ∧
    optimal_body reference c i x (fr, st, f) =
    Ok (<[v := x]> fr, st ++ [mkStepResult i x (<[v := x]> fr) false],
        f + 1).
Proof.
  intros Hnin Hge Hne.
  destruct (optimal_scan_victim reference (Z.to_nat (i - 1)) fr Hne)
    as (v & Hscan & Hv & Hvic).
  exists v. split_and!; [done|done|]. unfold optimal_body.
  rewrite (proj2 (contains_false x fr) Hnin).
  destruct (Z.ltb_spec (Z.of_nat (length fr)) c); [lia|].
  rewrite Hscan.
  destruct (Z.eqb_spec (Z.of_nat v) (-1)); [lia|].
  by rewrite setitem_Ok.
Qed.

End optimal_step.

(** * What every loop satisfies

    A loop whose body honours the access contract keeps [trace_inv];
    [view] projects its state on the locals every algorithm has, and
    [good] is whatever else the algorithm maintains. *)

Section engine.

Context {S : Type}.
Variables (body : Z → Z → S → res S) (init : S).
Variable view : S → list Z * list StepResult * Z.
Variable good : list Z → S → Prop.
Variable c : Z.

Hypothesis c_pos : 1 ≤ c.
Hypothesis view_init : view init = ([], [], 0).
Hypothesis good_init : good [] init.
Hypothesis body_access :
  ∀ pre x s fr st f,
    good pre s → view s = (fr, st, f) → trace_inv c pre fr st f →
    ∃ s' fr' h,
      body (1 + Z.of_nat (length pre)) x s = Ok s' ∧
      good (pre ++ [x]) s' ∧ access c x fr fr' h ∧
      view s' =
        (fr', st ++ [mkStepResult (1 + Z.of_nat (length pre)) x fr' h],
         if h then f else f + 1).

Lemma single_frame_step pre fr st f x fr' h :
  c = 1 → trace_inv c pre fr st f → single_frame_inv pre fr st →
  access c x fr fr' h →
  single_frame_inv (pre ++ [x]) fr'
    (st ++ [mkStepResult (1 + Z.of_nat (length pre)) x fr' h]).
Proof.
  intros Hc1 Hti [Hfr Hhits] Hacc.
  assert (Hlen : length st = length pre).
  { by rewrite <- (ti_pages _ _ _ _ _ Hti), length_fmap. }
  assert (fr' = [x] ∧ h = bool_decide (last pre = Some x)) as [-> ->].
  { rewrite Hc1 in Hacc. destruct Hacc as [Hin|Hnin Hlt|v Hnin Hge Hv]; subst fr.
    - destruct (last pre) as [y|]; [|by apply elem_of_nil in Hin].
      apply list_elem_of_singleton in Hin as ->.
      split; [done|]. symmetry. by apply bool_decide_eq_true_2.
    - destruct (last pre) as [y|]; simpl in Hlt; [lia|].
      split; [done|]. symmetry. by apply bool_decide_eq_false_2.
    - destruct (last pre) as [y|]; simpl in Hge, Hv; [|lia].
      assert (v = 0%nat) as -> by lia.
      split; [done|]. symmetry. apply bool_decide_eq_false_2.
      intros [= ->]. apply Hnin. left. }
  split.
  - by rewrite last_snoc.
  - intros k s Hk. apply lookup_app_Some in Hk as [Hk|[Hge Hk]].
    + assert (k < length pre)%nat
        by (rewrite <- Hlen; by eapply lookup_lt_Some).
      rewrite take_app_le by lia. by apply Hhits.
    + apply list_lookup_singleton_Some in Hk as [Hk <-]. simpl.
      assert (k = length pre) as -> by lia.
      by rewrite take_app_length.
Qed.

Lemma loop_trace pre :
  ∃ s fr st f,
    Py.for_enumerate body 1 pre init = Ok s ∧ good pre s ∧
    view s = (fr, st, f) ∧ trace_inv c pre fr st f ∧
    (c = 1 → single_frame_inv pre fr st).
Proof.
  induction pre as [|x pre IH] using rev_ind.
  - exists init, [], [], 0.
    split_and!; [done|done|done|apply trace_inv_nil; lia|].
    intros _. split; [done|]. intros k s Hk. done.
  - destruct IH as (s & fr & st & f & Hrun & Hgood & Hview & Hti & Hone).
    destruct (body_access pre x s fr st f Hgood Hview Hti)
      as (s' & fr' & h & Hbody & Hgood' & Hacc & Hview').
    exists s', fr',
      (st ++ [mkStepResult (1 + Z.of_nat (length pre)) x fr' h]),
      (if h then f else f + 1).
    split_and!.
    + rewrite for_enumerate_snoc, Hrun. simpl. exact Hbody.
    + done.
    + exact Hview'.
    + by apply (trace_inv_step c pre fr st f x fr' h).
    + intros Hc1.
      by apply (single_frame_step pre fr st f x fr' h); [| |apply Hone|].
Qed.

End engine.

(** * FIFO: the queue holds the resident pages, oldest first *)

Lemma arrival_snoc st s p :
  arrival (st ++ [s]) p =
  if decide (page s = p ∧ is_hit s = false) then Some (step s)
  else arrival st p.
Proof.
  unfold arrival. rewrite filter_app. destruct (decide _) as [Hs|Hs].
  - rewrite filter_cons_True by done. rewrite filter_nil. by rewrite last_snoc.
  - rewrite filter_cons_False by done. rewrite filter_nil. by rewrite app_nil_r.
Qed.

Lemma arrival_bound c pre fr st f p t :
  trace_inv c pre fr st f → arrival st p = Some t →
  t < 1 + Z.of_nat (length pre).
Proof.
  intros Hti Ht. unfold arrival in Ht.
  destruct (last _) as [s|] eqn:Hlast; [|done]. injection Ht as <-.
  apply last_Some_elem_of, list_elem_of_filter in Hlast as [_ Hs].
  apply list_elem_of_lookup in Hs as [k Hk].
  rewrite (ti_index _ _ _ _ _ Hti k s Hk).
  apply lookup_lt_Some in Hk.
  rewrite <- (ti_pages _ _ _ _ _ Hti), length_fmap. lia.
Qed.

Lemma oldest_first_hit st ord s :
  is_hit s = true → oldest_first st ord → oldest_first (st ++ [s]) ord.
Proof.
  intros Hh [Hsome Hsort].
  assert (Heq : ∀ p, arrival (st ++ [s]) p = arrival st p).
  { intros p. rewrite arrival_snoc. destruct (decide _) as [[_ ?]|]; [|done].
    congruence. }
  split.
  - intros p Hp. rewrite Heq. by apply Hsome.
  - intros a b pa pb ta tb. rewrite !Heq. apply Hsort.
Qed.

Lemma oldest_first_tail st victim rest :
  oldest_first st (victim :: rest) → oldest_first st rest.
Proof.
  intros [Hsome Hsort]. split.
  - intros p Hp. apply Hsome. by right.
  - intros a b pa pb ta tb Hab Ha Hb.
    apply (Hsort (S a) (S b) pa pb ta tb); [lia|done|done].
Qed.

Lemma oldest_first_push st ord x i fr' :
  oldest_first st ord → x ∉ ord →
  (∀ p t, arrival st p = Some t → t < i) →
  oldest_first (st ++ [mkStepResult i x fr' false]) (ord ++ [x]).
Proof.
  intros [Hsome Hsort] Hx Hbound.
  assert (Hnew : arrival (st ++ [mkStepResult i x fr' false]) x = Some i).
  { rewrite arrival_snoc. simpl. by rewrite decide_True. }
  assert (Hold : ∀ p, p ≠ x →
    arrival (st ++ [mkStepResult i x fr' false]) p = arrival st p).
  { intros p Hp. rewrite arrival_snoc. simpl.
    rewrite decide_False; [done|]. intros [? _]. congruence. }
  split.
  - intros p [Hp| ->%list_elem_of_singleton]%elem_of_app.
    + rewrite Hold by (intros ->; done). by apply Hsome.
    + by rewrite Hnew.
  - intros a b pa pb ta tb Hab Ha Hb Hta Htb.
    assert (Hlb : (b < length (ord ++ [x]))%nat) by (by eapply lookup_lt_Some).
    rewrite length_app in Hlb. simpl in Hlb.
    rewrite lookup_app_l in Ha by lia.
    assert (Hpa : pa ≠ x)
      by (intros ->; apply Hx; by eapply list_elem_of_lookup_2).
    rewrite Hold in Hta by done.
    destruct (decide (b < length ord)%nat) as [Hb'|Hb'].
    + rewrite lookup_app_l in Hb by done.
      assert (Hpb : pb ≠ x)
        by (intros ->; apply Hx; by eapply list_elem_of_lookup_2).
      rewrite Hold in Htb by done.
      by apply (Hsort a b pa pb ta tb).
    + rewrite lookup_app_r in Hb by lia.
      apply list_lookup_singleton_Some in Hb as [_ <-].
      rewrite Hnew in Htb. injection Htb as <-. by eapply Hbound.
Qed.

Lemma fifo_body_access c pre x s fr st f :
  1 ≤ c →
  fifo_good pre s → fifo_view s = (fr, st, f) → trace_inv c pre fr st f →
  ∃ s' fr' h,
    fifo_body c (1 + Z.of_nat (length pre)) x s = Ok s' ∧
    fifo_good (pre ++ [x]) s' ∧ access c x fr fr' h ∧
    fifo_view s' =
      (fr', st ++ [mkStepResult (1 + Z.of_nat (length pre)) x fr' h],
       if h then f else f + 1).
Proof.
  intros Hc Hgood Hview Hti. destruct s as [[[fr0 ord] st0] f0].
  simpl in Hview. injection Hview as -> -> ->. destruct Hgood as [Hperm Hold].
  assert (Hbound : ∀ p t, arrival st p = Some t →
                          t < 1 + Z.of_nat (length pre))
    by (intros p t; by eapply arrival_bound).
  destruct (decide (x ∈ fr)) as [Hin|Hnin].
  - eexists _, fr, true. rewrite fifo_body_hit by done.
    split_and!; [done| |by constructor|done].
    split; [done|]. by apply oldest_first_hit.
  - assert (Hxord : x ∉ ord) by (by rewrite Hperm).
    destruct (decide (Z.of_nat (length fr) < c)) as [Hlt|Hge].
    + eexists _, (fr ++ [x]), false. rewrite fifo_body_fill by done.
      split_and!; [done| |by constructor|done].
      split; [by rewrite Hperm|]. by apply oldest_first_push.
    + destruct ord as [|victim rest].
      { apply Permutation_nil_l in Hperm. subst fr. simpl in Hge. lia. }
      assert (Hvic : victim ∈ fr) by (rewrite <- Hperm; left).
      destruct (fifo_body_evict c (1 + Z.of_nat (length pre)) x fr
                  (victim :: rest) st f victim rest)
        as (v & Hv & _ & Hbody); [done|lia|done|done|].
      eexists _, (<[v := x]> fr), false. rewrite Hbody.
      split_and!; [done| | |done].
      * split.
        -- symmetry. by eapply insert_Permutation.
        -- apply oldest_first_push; [by eapply oldest_first_tail| |done].
           intros Hx. apply Hxord. by right.
      * constructor; [done|lia|by eapply lookup_lt_Some].
Qed.

(** the state the FIFO loop reaches on any list of pages *)
Lemma fifo_loop_inv c pre :
  1 ≤ c →
  ∃ fr ord st f,
    fifo_loop c pre = Ok (fr, ord, st, f) ∧
    ord ≡ₚ fr ∧ oldest_first st ord ∧
    trace_inv c pre fr st f ∧ (c = 1 → single_frame_inv pre fr st).
Proof.
  intros Hc.
  destruct (loop_trace (fifo_body c) fifo_init fifo_view fifo_good c Hc
              eq_refl) with (pre := pre)
    as (s & fr & st & f & Hrun & Hgood & Hview & Hti & Hone).
  - split; [done|]. split.
    + intros p Hp. by apply elem_of_nil in Hp.
    + intros a b pa pb ta tb _ Ha. done.
  - intros pre' x s. intros. by apply fifo_body_access.
  - destruct s as [[[fr0 ord] st0] f0]. simpl in Hview.
    injection Hview as -> -> ->. destruct Hgood as [Hperm Hold].
    by exists fr, ord, st, f.
Qed.

(** * LRU: the dictionary records the last reference of every page *)

Lemma last_reference_snoc_eq pre x i :
  last_reference (pre ++ [x]) x i ↔ i = 1 + Z.of_nat (length pre).
Proof.
  split.
  - intros (k & -> & Hk & Hlast).
    assert (Hlt : (k < length (pre ++ [x]))%nat) by (by eapply lookup_lt_Some).
    rewrite length_app in Hlt. simpl in Hlt.
    destruct (decide (k = length pre)) as [->|Hne]; [lia|].
    destruct (Hlast (length pre)); [lia|].
    by rewrite list_lookup_middle.
  - intros ->. exists (length pre). split_and!; [lia| |].
    + by rewrite list_lookup_middle.
    + intros k' Hk'. rewrite lookup_ge_None_2; [done|].
      rewrite length_app. simpl. lia.
Qed.

Lemma last_reference_snoc_ne pre x p i :
  p ≠ x → last_reference (pre ++ [x]) p i ↔ last_reference pre p i.
Proof.
  intros Hne. split.
  - intros (k & -> & Hk & Hlast).
    apply lookup_app_Some in Hk as [Hk|[_ Hk]].
    + exists k. split_and!; [done|done|]. intros k' Hk' Hp.
      apply (Hlast k' Hk'). by apply lookup_app_l_Some.
    + apply list_lookup_singleton_Some in Hk as [_ Hk]. congruence.
  - intros (k & -> & Hk & Hlast). exists k. split_and!; [done| |].
    + by apply lookup_app_l_Some.
    + intros k' Hk' Hp. apply lookup_app_Some in Hp as [Hp|[_ Hp]].
      * by apply (Hlast k').
      * apply list_lookup_singleton_Some in Hp as [_ Hp]. congruence.
Qed.

Lemma last_reference_fun pre p i j :
  last_reference pre p i → last_reference pre p j → i = j.
Proof.
  intros (k & -> & Hk & Hlast) (k' & -> & Hk' & Hlast').
  destruct (Nat.lt_trichotomy k k') as [Hlt|[->|Hgt]]; [|done|].
  - by destruct (Hlast k').
  - by destruct (Hlast' k).
Qed.

(** distinct pages were last referenced at distinct steps *)
Lemma last_reference_inj pre p q i :
  last_reference pre p i → last_reference pre q i → p = q.
Proof.
  intros (k & -> & Hk & _) (k' & Hkk & Hk' & _).
  assert (k = k') as -> by lia. congruence.
Qed.

Lemma last_reference_elem pre p :
  p ∈ pre → ∃ i, last_reference pre p i.
Proof.
  induction pre as [|x pre IH] using rev_ind.
  - intros Hp. by apply elem_of_nil in Hp.
  - intros Hp. destruct (decide (p = x)) as [->|Hne].
    + exists (1 + Z.of_nat (length pre)). by apply last_reference_snoc_eq.
    + apply elem_of_app in Hp as [Hp|Hp%list_elem_of_singleton]; [|done].
      destruct (IH Hp) as [i Hi]. exists i.
      by apply last_reference_snoc_ne.
Qed.

Lemma lru_good_insert pre (lu : gmap Z Z) x :
  (∀ p i, lu !! p = Some i ↔ last_reference pre p i) →
  ∀ p i, <[x := 1 + Z.of_nat (length pre)]> lu !! p = Some i ↔
         last_reference (pre ++ [x]) p i.
Proof.
  intros Hlu p i. destruct (decide (p = x)) as [->|Hne].
  - rewrite lookup_insert_eq, last_reference_snoc_eq.
    split; [by intros [= <-]|by intros ->].
  - rewrite lookup_insert_ne by done.
    by rewrite last_reference_snoc_ne.
Qed.

Lemma lru_body_access c pre x s fr st f :
  1 ≤ c →
  lru_good pre s → lru_view s = (fr, st, f) → trace_inv c pre fr st f →
  ∃ s' fr' h,
    lru_body c (1 + Z.of_nat (length pre)) x s = Ok s' ∧
    lru_good (pre ++ [x]) s' ∧ access c x fr fr' h ∧
    lru_view s' =
      (fr', st ++ [mkStepResult (1 + Z.of_nat (length pre)) x fr' h],
       if h then f else f + 1).
Proof.
  intros Hc Hgood Hview Hti. destruct s as [[[fr0 lu] st0] f0].
  simpl in Hview. injection Hview as -> -> ->. simpl in Hgood.
  destruct (decide (x ∈ fr)) as [Hin|Hnin].
  - eexists _, fr, true. rewrite lru_body_hit by done.
    split_and!; [done| |by constructor|done].
    simpl. intros p i. by apply lru_good_insert.
  - destruct (decide (Z.of_nat (length fr) < c)) as [Hlt|Hge].
    + eexists _, (fr ++ [x]), false. rewrite lru_body_fill by done.
      split_and!; [done| |by constructor|done].
      simpl. intros p i. by apply lru_good_insert.
    + assert (Hne : fr ≠ []) by (intros ->; simpl in Hge; lia).
      destruct (lru_body_evict c (1 + Z.of_nat (length pre)) x fr lu st f)
        as (v & q & Hv & _ & _ & Hbody); [done|lia|done|].
      eexists _, (<[v := x]> fr), false. rewrite Hbody.
      split_and!; [done| | |done].
      * simpl. intros p i. by apply lru_good_insert.
      * constructor; [done|lia|by eapply lookup_lt_Some].
Qed.

(** the state the LRU loop reaches on any list of pages *)
Lemma lru_loop_inv c pre :
  1 ≤ c →
  ∃ fr lu st f,
    lru_loop c pre = Ok (fr, lu, st, f) ∧
    (∀ p i, lu !! p = Some i ↔ last_reference pre p i) ∧
    trace_inv c pre fr st f ∧ (c = 1 → single_frame_inv pre fr st).
Proof.
  intros Hc.
  destruct (loop_trace (lru_body c) lru_init lru_view lru_good c Hc
              eq_refl) with (pre := pre)
    as (s & fr & st & f & Hrun & Hgood & Hview & Hti & Hone).
  - intros p i. rewrite lookup_empty. split; [done|].
    intros (k & _ & Hk & _). done.
  - intros pre' x s. intros. by apply lru_body_access.
  - destruct s as [[[fr0 lu] st0] f0]. simpl in Hview.
    injection Hview as -> -> ->. by exists fr, lu, st, f.
Qed.

(** * Optimal *)

Lemma optimal_body_access reference c pre x s fr st f :
  1 ≤ c →
  optimal_view s = (fr, st, f) → trace_inv c pre fr st f →
  ∃ s' fr' h,
    optimal_body reference c (1 + Z.of_nat (length pre)) x s = Ok s' ∧
    access c x fr fr' h ∧
    optimal_view s' =
      (fr', st ++ [mkStepResult (1 + Z.of_nat (length pre)) x fr' h],
       if h then f else f + 1).
Proof.
  intros Hc Hview Hti. unfold optimal_view in Hview. subst s.
  destruct (decide (x ∈ fr)) as [Hin|Hnin].
  - eexists _, fr, true. rewrite optimal_body_hit by done.
    split_and!; [done|by constructor|done].
  - destruct (decide (Z.of_nat (length fr) < c)) as [Hlt|Hge].
    + eexists _, (fr ++ [x]), false. rewrite optimal_body_fill by done.
      split_and!; [done|by constructor|done].
    + assert (Hne : fr ≠ []) by (intros ->; simpl in Hge; lia).
      destruct (optimal_body_evict reference c (1 + Z.of_nat (length pre))
                  x fr st f)
        as (v & Hv & _ & Hbody); [done|lia|done|].
      eexists _, (<[v := x]> fr), false. rewrite Hbody.
      split_and!; [done| |done]. constructor; [done|lia|done].
Qed.

(** the state the Optimal loop reaches on any list of pages *)
Lemma optimal_loop_inv reference c pre :
  1 ≤ c →
  ∃ fr st f,
    optimal_loop reference c pre = Ok (fr, st, f) ∧
    trace_inv c pre fr st f ∧ (c = 1 → single_frame_inv pre fr st).
Proof.
  intros Hc.
  destruct (loop_trace (optimal_body reference c) optimal_init optimal_view
              (λ _ _, True) c Hc eq_refl) with (pre := pre)
    as (s & fr & st & f & Hrun & _ & Hview & Hti & Hone).
  - done.
  - intros pre' x s fr st f _ Hview Hti.
    destruct (optimal_body_access reference c pre' x s fr st f Hc Hview Hti)
      as (s' & fr' & h & ? & ? & ?).
    by exists s', fr', h.
  - unfold optimal_view in Hview. subst s. by exists fr, st, f.
Qed.

(** * The three entry points *)

Lemma simulate_fifo_traced reference c :
  1 ≤ c → ∃ r, simulate_fifo reference c = Ok r ∧ traced c reference r.
Proof.
  intros Hc.
  destruct (fifo_loop_inv c reference Hc)
    as (fr & ord & st & f & Hrun & _ & _ & Hti & Hone).
  exists (mkAlgorithmResult "FIFO" st f). unfold simulate_fifo.
  rewrite Hrun. split; [done|]. by exists fr.
Qed.

Lemma simulate_lru_traced reference c :
  1 ≤ c → ∃ r, simulate_lru reference c = Ok r ∧ traced c reference r.
Proof.
  intros Hc.
  destruct (lru_loop_inv c reference Hc)
    as (fr & lu & st & f & Hrun & _ & Hti & Hone).
  exists (mkAlgorithmResult "LRU" st f). unfold simulate_lru.
  rewrite Hrun. split; [done|]. by exists fr.
Qed.

Lemma simulate_optimal_traced reference c :
  1 ≤ c → ∃ r, simulate_optimal reference c = Ok r ∧ traced c reference r.
Proof.
  intros Hc.
  destruct (optimal_loop_inv reference c reference Hc)
    as (fr & st & f & Hrun & Hti & Hone).
  exists (mkAlgorithmResult "Optimal" st f). unfold simulate_optimal.
  rewrite Hrun. split; [done|]. by exists fr.
Qed.

Lemma traced_snapshots c reference r :
  traced c reference r →
  Forall (λ s, NoDup (frames s) ∧ Z.of_nat (length (frames s)) ≤ c) (steps r).
Proof. intros (fr & Hti & _). exact (ti_snap _ _ _ _ _ Hti). Qed.

Lemma traced_first_access c reference r k s :
  traced c reference r → steps r !! k = Some s →
  reference !! k = Some (page s) ∧
  (page s ∉ take k reference → is_hit s = false).
Proof.
  intros (fr & Hti & _) Hk. split.
  - rewrite <- (ti_pages _ _ _ _ _ Hti), list_lookup_fmap, Hk. done.
  - intros Hnew. destruct (is_hit s) eqn:Hh; [|done].
    destruct Hnew. by apply (ti_first _ _ _ _ _ Hti k s).
Qed.

Lemma count_faults_hits st :
  count_faults st =
  Z.of_nat (length (filter (λ b : bool, b = false) (is_hit <$> st))).
Proof.
  unfold count_faults. f_equal.
  induction st as [|s st IH]; [done|]. rewrite fmap_cons.
  destruct (is_hit s) eqn:Hh.
  - rewrite !filter_cons_False by (rewrite ?Hh; done). exact IH.
  - rewrite !filter_cons_True by done. simpl. by rewrite IH.
Qed.

(** with one frame, the hit flags are a function of the reference list *)
Lemma traced_single_frame reference r1 r2 :
  traced 1 reference r1 → traced 1 reference r2 →
  is_hit <$> steps r1 = is_hit <$> steps r2 ∧
  total_faults r1 = total_faults r2.
Proof.
  intros (fr1 & Hti1 & Hone1) (fr2 & Hti2 & Hone2).
  destruct (Hone1 eq_refl) as [_ Hh1]. destruct (Hone2 eq_refl) as [_ Hh2].
  assert (Hhits : is_hit <$> steps r1 = is_hit <$> steps r2).
  { apply list_eq. intros k. rewrite !list_lookup_fmap.
    pose proof (ti_pages _ _ _ _ _ Hti1) as Hp1.
    pose proof (ti_pages _ _ _ _ _ Hti2) as Hp2.
    assert (Hpk : page <$> steps r1 !! k = page <$> steps r2 !! k)
      by (by rewrite <- !list_lookup_fmap, Hp1, Hp2).
    destruct (steps r1 !! k) as [s1|] eqn:Hs1,
             (steps r2 !! k) as [s2|] eqn:Hs2; simpl in *; try done.
    injection Hpk as Hpk.
    by rewrite (Hh1 k s1 Hs1), (Hh2 k s2 Hs2), Hpk. }
  split; [done|].
  rewrite (ti_faults _ _ _ _ _ Hti1), (ti_faults _ _ _ _ _ Hti2).
  by rewrite !count_faults_hits, Hhits.
Qed.

Lemma fifo_loop_snoc c pre x :
  fifo_loop c (pre ++ [x]) =
  fifo_loop c pre ≫= fifo_body c (1 + Z.of_nat (length pre)) x.
Proof. apply for_enumerate_snoc. Qed.

Lemma lru_loop_snoc c pre x :
  lru_loop c (pre ++ [x]) =
  lru_loop c pre ≫= lru_body c (1 + Z.of_nat (length pre)) x.
Proof. apply for_enumerate_snoc. Qed.

Lemma optimal_loop_snoc reference c pre x :
  optimal_loop reference c (pre ++ [x]) =
  optimal_loop reference c pre ≫=
    optimal_body reference c (1 + Z.of_nat (length pre)) x.
Proof. apply for_enumerate_snoc. Qed.

(** the front of the queue arrived before every other resident page *)
Lemma oldest_first_front st victim rest fr :
  victim :: rest ≡ₚ fr → oldest_first st (victim :: rest) →
  ∃ tv, arrival st victim = Some tv ∧
        ∀ p, p ∈ fr → p ≠ victim → ∃ t, arrival st p = Some t ∧ tv < t.
Proof.
  intros Hperm [Hsome Hsort].
  destruct (Hsome victim) as [tv Htv]; [left|].
  exists tv. split; [done|]. intros p Hp Hne.
  rewrite <- Hperm in Hp. destruct (Hsome p Hp) as [t Ht].
  exists t. split; [done|].
  apply elem_of_cons in Hp as [->|Hp]; [done|].
  apply list_elem_of_lookup in Hp as [b Hb].
  by apply (Hsort 0%nat (S b) victim p tv t); [lia| | | |].
Qed.

(** * Two capacities side by side *)

(** ** Counting pages in frame lists *)

Lemma incl_length (l k : list Z) :
  NoDup l → (∀ p, p ∈ l → p ∈ k) → (length l ≤ length k)%nat.
Proof. intros Hnd Hin. by apply submseteq_length, NoDup_submseteq. Qed.

Lemma longer_has_extra (l k : list Z) :
  NoDup l → (length k < length l)%nat → ∃ b, b ∈ l ∧ b ∉ k.
Proof.
  intros Hnd Hlen. destruct (decide (Forall (λ p : Z, p ∈ k) l)) as [Hall|Hex].
  - rewrite Forall_forall in Hall. pose proof (incl_length l k Hnd Hall). lia.
  - apply not_Forall_Exists in Hex; [|apply _].
    apply Exists_exists in Hex as (b & Hb & Hbk). by exists b.
Qed.

Lemma incl_full (l k : list Z) :
  NoDup l → (∀ p, p ∈ l → p ∈ k) → (length k ≤ length l)%nat →
  ∀ p, p ∈ k → p ∈ l.
Proof.
  intros Hnd Hin Hlen p Hp.
  assert (Hperm : l ≡ₚ k).
  { apply submseteq_length_Permutation; [by apply NoDup_submseteq|done]. }
  by rewrite Hperm.
Qed.

(** the pages of a frame list after one slot was overwritten *)
Lemma elem_of_insert_slot (fr : list Z) (v : nat) (q x p : Z) :
  NoDup fr → fr !! v = Some q →
  p ∈ <[v := x]> fr ↔ p = x ∨ (p ∈ fr ∧ p ≠ q).
Proof.
  intros Hnd Hv.
  assert (Hlt : (v < length fr)%nat) by (by eapply lookup_lt_Some).
  split.
  - intros [k Hk]%list_elem_of_lookup.
    destruct (decide (k = v)) as [->|Hkv].
    + rewrite list_lookup_insert_eq in Hk by done. left. congruence.
    + rewrite list_lookup_insert_ne in Hk by done. right.
      split; [by eapply list_elem_of_lookup_2|].
      intros ->. apply Hkv. by eapply NoDup_lookup.
  - intros [->|[Hp Hpq]].
    + apply list_elem_of_lookup. exists v.
      by rewrite list_lookup_insert_eq.
    + apply list_elem_of_lookup in Hp as [k Hk].
      apply list_elem_of_lookup. exists k.
      rewrite list_lookup_insert_ne; [done|]. intros ->. congruence.
Qed.

(** ** LRU keeps the frames of the smaller capacity inside the larger *)

Lemma last_reference_bound pre p i :
  last_reference pre p i → i < 1 + Z.of_nat (length pre).
Proof. intros (k & -> & Hk%lookup_lt_Some & _). lia. Qed.

Lemma lru_loop_step c pre x fr lu st f :
  1 ≤ c → lru_loop c pre = Ok (fr, lu, st, f) →
  NoDup fr ∧ Z.of_nat (length fr) ≤ c ∧ (∀ p, p ∈ fr → p ∈ pre) ∧
  ∃ fr' lu' st' (h : bool),
    lru_loop c (pre ++ [x]) = Ok (fr', lu', st', if h then f else f + 1) ∧
    lru_access c pre x fr fr' h.
Proof.
  intros Hc Hrun.
  destruct (lru_loop_inv c pre Hc)
    as (fr0 & lu0 & st0 & f0 & Hrun0 & Hlu & Hti & _).
  rewrite Hrun in Hrun0. injection Hrun0 as <- <- <- <-.
  split_and!; [apply Hti|apply Hti|apply Hti|].
  rewrite lru_loop_snoc, Hrun, res_bind_Ok.
  destruct (decide (x ∈ fr)) as [Hin|Hnin].
  { rewrite lru_body_hit by done. eexists _, _, _, true.
    split; [done|]. by constructor. }
  destruct (decide (Z.of_nat (length fr) < c)) as [Hlt|Hge].
  { rewrite lru_body_fill by done. eexists _, _, _, false.
    split; [done|]. by constructor. }
  assert (Hne : fr ≠ []) by (intros ->; simpl in Hge; lia).
  destruct (lru_body_evict c (1 + Z.of_nat (length pre)) x fr lu st f)
    as (v & q & Hv & Hle & _ & Hbody); [done|lia|done|].
  rewrite Hbody. eexists _, _, _, false. split; [done|].
  assert (Hget : ∀ p ip, last_reference pre p ip → Py.get lu p 0 = ip).
  { intros p ip Hip%Hlu. unfold Py.get. by rewrite Hip. }
  destruct (last_reference_elem pre q) as [iq Hiq].
  { apply (ti_seen _ _ _ _ _ Hti). by eapply list_elem_of_lookup_2. }
  apply (lru_access_evict c pre x fr v q iq); [done|lia|done|done|].
  intros p ip Hp Hip. specialize (Hle p Hp).
  by rewrite (Hget q iq), (Hget p ip) in Hle.
Qed.

Lemma lru_included_step c pre x fr1 fr2 fr1' fr2' h1 h2 :
  NoDup fr1 → NoDup fr2 → Z.of_nat (length fr1) ≤ c →
  (∀ p, p ∈ fr2 → p ∈ pre) →
  lru_included pre fr1 fr2 →
  lru_access c pre x fr1 fr1' h1 → lru_access (c + 1) pre x fr2 fr2' h2 →
  lru_included (pre ++ [x]) fr1' fr2' ∧ (h1 = true → h2 = true).
Proof.
  intros Hnd1 Hnd2 Hlen1 Hseen2 [Hsub Hold] Hacc1 Hacc2.
  (* membership after the step, for each run *)
  assert (Hx1 : x ∈ fr1').
  { destruct Hacc1 as [?|? ?|v q iq ? ? Hv ? ?]; [done| |].
    - apply elem_of_app. right. left.
    - apply (elem_of_insert_slot fr1 v q x x); auto. }
  assert (Hx2 : x ∈ fr2').
  { destruct Hacc2 as [?|? ?|v q iq ? ? Hv ? ?]; [done| |].
    - apply elem_of_app. right. left.
    - apply (elem_of_insert_slot fr2 v q x x); auto. }
  assert (Hin1 : ∀ p, p ∈ fr1' → p ≠ x → p ∈ fr1).
  { intros p Hp Hne. destruct Hacc1 as [?|? ?|v q iq ? ? Hv ? ?]; [done| |].
    - apply elem_of_app in Hp as [?|?%list_elem_of_singleton]; done.
    - apply (elem_of_insert_slot fr1 v q x p) in Hp as [?|[? _]]; done. }
  assert (Hin2 : ∀ p, p ∈ fr2' → p ≠ x → p ∈ fr2).
  { intros p Hp Hne. destruct Hacc2 as [?|? ?|v q iq ? ? Hv ? ?]; [done| |].
    - apply elem_of_app in Hp as [?|?%list_elem_of_singleton]; done.
    - apply (elem_of_insert_slot fr2 v q x p) in Hp as [?|[? _]]; done. }
  split; [split|].
  - (* inclusion *)
    intros p Hp. destruct (decide (p = x)) as [->|Hne]; [done|].
    pose proof (Hsub p (Hin1 p Hp Hne)) as Hp2.
    destruct Hacc2 as [?|? ?|v q2 iq2 Hx Hfull Hv Hiq2 Hmin2]; [done| |].
    + apply elem_of_app. by left.
    + apply (elem_of_insert_slot fr2 v q2 x p); [done|done|]. right.
      split; [done|]. intros ->.
      destruct (longer_has_extra fr2 fr1 Hnd2) as (b & Hb2 & Hbout); [lia|].
      destruct (last_reference_elem pre b (Hseen2 b Hb2)) as [ib Hib].
      pose proof (Hmin2 b ib Hb2 Hib).
      pose proof (Hold b q2 ib iq2 Hb2 Hbout (Hin1 q2 Hp Hne) Hib Hiq2). lia.
  - (* the page the smaller capacity lacks is the older one *)
    intros b p ib ip Hb2 Hb1 Hp Hib Hip.
    assert (Hbx : b ≠ x) by (intros ->; done).
    apply last_reference_snoc_ne in Hib; [|done].
    destruct (decide (p = x)) as [->|Hpx].
    { apply last_reference_snoc_eq in Hip as ->.
      by eapply last_reference_bound. }
    apply last_reference_snoc_ne in Hip; [|done].
    pose proof (Hin1 p Hp Hpx) as Hp1. pose proof (Hin2 b Hb2 Hbx) as Hb2'.
    destruct (decide (b ∈ fr1)) as [Hbin|Hbout].
    2:{ by apply (Hold b p ib ip). }
    destruct Hacc1 as [?|? ?|v q1 iq1 Hx Hfull Hv Hiq1 Hmin1].
    + done.
    + destruct Hb1. apply elem_of_app. by left.
    + assert (b = q1) as ->.
      { destruct (decide (b = q1)) as [|Hne]; [done|]. destruct Hb1.
        apply (elem_of_insert_slot fr1 v q1 x b); auto. }
      assert (Hpq : p ≠ q1).
      { apply (elem_of_insert_slot fr1 v q1 x p) in Hp as [?|[_ ?]]; done. }
      rewrite (last_reference_fun _ _ _ _ Hib Hiq1).
      pose proof (Hmin1 p ip Hp1 Hip) as Hle.
      destruct (decide (iq1 = ip)) as [->|]; [|lia].
      destruct Hpq. by eapply last_reference_inj.
  - (* a hit with the smaller capacity is a hit with the larger *)
    intros ->. inversion Hacc1 as [Hin| |]; subst.
    by inversion Hacc2 as [|Hnin ?|? ? ? Hnin]; subst; [|destruct Hnin; auto..].
Qed.

Lemma lru_loops_included c pre :
  1 ≤ c →
  ∃ fr1 lu1 st1 f1 fr2 lu2 st2 f2,
    lru_loop c pre = Ok (fr1, lu1, st1, f1) ∧
    lru_loop (c + 1) pre = Ok (fr2, lu2, st2, f2) ∧
    lru_included pre fr1 fr2 ∧ f2 ≤ f1.
Proof.
  intros Hc. induction pre as [|x pre IH] using rev_ind.
  - exists [], ∅, [], 0, [], ∅, [], 0. split_and!; [done|done| |done].
    split; [done|]. intros b p ib ip Hb. by apply elem_of_nil in Hb.
  - destruct IH as (fr1 & lu1 & st1 & f1 & fr2 & lu2 & st2 & f2 &
                    Hrun1 & Hrun2 & Hincl & Hf).
    destruct (lru_loop_step c pre x fr1 lu1 st1 f1 Hc Hrun1)
      as (Hnd1 & Hb1 & _ & fr1' & lu1' & st1' & h1 & Hrun1' & Hacc1).
    destruct (lru_loop_step (c + 1) pre x fr2 lu2 st2 f2 ltac:(lia) Hrun2)
      as (Hnd2 & _ & Hseen2 & fr2' & lu2' & st2' & h2 & Hrun2' & Hacc2).
    destruct (lru_included_step c pre x fr1 fr2 fr1' fr2' h1 h2)
      as [Hincl' Hh]; [done..|].
    eexists fr1', lu1', st1', _, fr2', lu2', st2', _.
    split_and!; [exact Hrun1'|exact Hrun2'|done|].
    destruct h1, h2; [lia| |lia|lia]. by specialize (Hh eq_refl).
Qed.

(** ** Optimal keeps the pages still needed inside the larger capacity *)

Lemma optimal_loop_step reference c pre x fr st f :
  1 ≤ c → optimal_loop reference c pre = Ok (fr, st, f) →
  NoDup fr ∧ Z.of_nat (length fr) ≤ c ∧
  ∃ fr' st' (h : bool),
    optimal_loop reference c (pre ++ [x]) =
      Ok (fr', st', if h then f else f + 1) ∧
    optimal_access c reference (length pre) x fr fr' h.
Proof.
  intros Hc Hrun.
  destruct (optimal_loop_inv reference c pre Hc)
    as (fr0 & st0 & f0 & Hrun0 & Hti & _).
  rewrite Hrun in Hrun0. injection Hrun0 as <- <- <-.
  split_and!; [apply Hti|apply Hti|].
  rewrite optimal_loop_snoc, Hrun, res_bind_Ok.
  destruct (decide (x ∈ fr)) as [Hin|Hnin].
  { rewrite optimal_body_hit by done. eexists _, _, true.
    split; [done|]. by constructor. }
  destruct (decide (Z.of_nat (length fr) < c)) as [Hlt|Hge].
  { rewrite optimal_body_fill by done. eexists _, _, false.
    split; [done|]. by constructor. }
  assert (Hne : fr ≠ []) by (intros ->; simpl in Hge; lia).
  destruct (optimal_body_evict reference c (1 + Z.of_nat (length pre))
              x fr st f)
    as (v & _ & (q & Hv & Hvic) & Hbody); [done|lia|done|].
  replace (Z.to_nat (1 + Z.of_nat (length pre) - 1)) with (length pre)
    in Hvic by lia.
  rewrite Hbody. eexists _, _, false. split; [done|].
  apply (optimal_access_evict c reference (length pre) x fr v q);
    [done|lia|done|].
  destruct Hvic as [[Hdead _]|(j & Hj & Hlive & Hmax)]; [by left|].
  right. split; [done|]. exists j. split; [done|].
  intros p jp [u Hu]%list_elem_of_lookup Hjp.
  by destruct (Hmax u p jp Hu Hjp).
Qed.

Section alive_facts.

Variables (reference : list Z) (n : nat) (x : Z).
Hypothesis Hx : reference !! n = Some x.

Lemma alive_here : alive reference n x.
Proof. exists n. split; [lia|done]. Qed.

Lemma alive_S p : alive reference (S n) p → alive reference n p.
Proof. intros (k & Hk & Hp). exists k. split; [lia|done]. Qed.

Lemma alive_other p : p ≠ x → alive reference n p → alive reference (S n) p.
Proof.
  intros Hne (k & Hk & Hp). exists k. split; [|done].
  destruct (decide (k = n)) as [->|]; [congruence|lia].
Qed.

Lemma never_again_alive p :
  never_again reference n p ↔ ¬ alive reference (S n) p.
Proof.
  split.
  - intros Hnev (k & Hk & Hp). apply (Hnev k); [lia|done].
  - intros Hna k Hk Hp. apply Hna. exists k. split; [lia|done].
Qed.

Lemma alive_next p :
  alive reference (S n) p → ∃ j, next_occurrence reference n p j.
Proof.
  intros Hp. destruct (never_again_dec reference n p) as [Hnev|Hj]; [|done].
  by apply never_again_alive in Hnev.
Qed.

Lemma next_alive p j :
  next_occurrence reference n p j → alive reference (S n) p.
Proof. intros (Hj & Hp & _). exists j. split; [lia|done]. Qed.

Lemma next_occurrence_inj p q j :
  next_occurrence reference n p j → next_occurrence reference n q j → p = q.
Proof. intros (_ & Hp & _) (_ & Hq & _). congruence. Qed.

End alive_facts.

Lemma at_most_one_extra (fr1 fr2 : list Z) (q1 : Z) :
  NoDup fr1 → NoDup fr2 → q1 ∈ fr1 → q1 ∉ fr2 →
  (∀ a b, a ∈ fr2 → b ∈ fr2 → a ∉ fr1 → b ∉ fr1 → a = b) →
  (length fr2 ≤ length fr1)%nat.
Proof.
  intros Hnd1 Hnd2 Hq1 Hq2 Huniq.
  destruct (decide (Forall (λ p : Z, p ∈ fr1) fr2)) as [Hall|Hex].
  - rewrite Forall_forall in Hall.
    assert (Hle : (length (q1 :: fr2) ≤ length fr1)%nat).
    { apply incl_length; [by apply NoDup_cons|].
      by intros p [->|Hp]%elem_of_cons; [|apply Hall]. }
    simpl in Hle. lia.
  - apply not_Forall_Exists in Hex; [|apply _].
    apply Exists_exists in Hex as (b0 & Hb0 & Hb0out). simpl in Hb0out.
    pose proof Hb0 as Hperm.
    apply elem_of_Permutation in Hperm as [rest Hperm].
    rewrite Hperm in Hnd2. apply NoDup_cons in Hnd2 as [Hb0rest Hndrest].
    assert (Hrest2 : ∀ p, p ∈ rest → p ∈ fr2)
      by (intros p Hp; rewrite Hperm; by right).
    assert (Hle : (length (q1 :: rest) ≤ length fr1)%nat).
    { apply incl_length.
      - apply NoDup_cons. split; [|done]. intros Hq. by apply Hq2, Hrest2.
      - intros p [->|Hp]%elem_of_cons; [done|].
        destruct (decide (p ∈ fr1)) as [|Hout]; [done|].
        assert (p = b0) as -> by (apply Huniq; auto). done. }
    rewrite Hperm. simpl in *. lia.
Qed.

Lemma optimal_access_new c reference n x fr fr' h :
  NoDup fr → optimal_access c reference n x fr fr' h → x ∈ fr'.
Proof.
  intros Hnd [?|? ?|v q ? ? Hv ?]; [done| |].
  - apply elem_of_app. right. left.
  - apply (elem_of_insert_slot fr v q x x); auto.
Qed.

Lemma optimal_access_old c reference n x fr fr' h :
  NoDup fr → optimal_access c reference n x fr fr' h →
  ∀ p, p ∈ fr' → p ≠ x → p ∈ fr.
Proof.
  intros Hnd [?|? ?|v q ? ? Hv ?] p Hp Hne; [done| |].
  - apply elem_of_app in Hp as [?|?%list_elem_of_singleton]; done.
  - apply (elem_of_insert_slot fr v q x p) in Hp as [?|[? _]]; done.
Qed.

Lemma optimal_access_length c reference n x fr fr' h :
  optimal_access c reference n x fr fr' h →
  (length fr' = length fr ∧ (x ∈ fr ∨ c ≤ Z.of_nat (length fr))) ∨
  (length fr' = S (length fr) ∧ Z.of_nat (length fr) < c ∧ x ∉ fr).
Proof.
  intros [?|? ?|v q ? ? Hv ?].
  - left. auto.
  - right. rewrite length_app. simpl. split_and!; [lia|done|done].
  - left. rewrite length_insert. auto.
Qed.

Lemma optimal_included_step c reference n x fr1 fr2 fr1' fr2' h1 h2 :
  reference !! n = Some x → NoDup fr1 → NoDup fr2 →
  Z.of_nat (length fr1) ≤ c →
  optimal_included reference n fr1 fr2 →
  optimal_access c reference n x fr1 fr1' h1 →
  optimal_access (c + 1) reference n x fr2 fr2' h2 →
  optimal_included reference (S n) fr1' fr2' ∧ (h1 = true → h2 = true).
Proof.
  intros Hx Hnd1 Hnd2 Hlen1 (Hsub & Huniq & Hlen) Hacc1 Hacc2.
  assert (Hhit : x ∈ fr1 → x ∈ fr2)
    by (intros ?; apply Hsub; [done|by apply alive_here]).
  pose proof (optimal_access_new _ _ _ _ _ _ _ Hnd1 Hacc1) as Hx1.
  pose proof (optimal_access_new _ _ _ _ _ _ _ Hnd2 Hacc2) as Hx2.
  pose proof (optimal_access_old _ _ _ _ _ _ _ Hnd1 Hacc1) as Hin1.
  pose proof (optimal_access_old _ _ _ _ _ _ _ Hnd2 Hacc2) as Hin2.
  assert (Hnotdead : ∀ p, ¬ never_again reference n p →
                          alive reference (S n) p).
  { intros p Hp. destruct (never_again_dec reference n p) as [|[j Hj]];
      [done|by eapply next_alive]. }
  (* a page of the smaller capacity that leaves while still needed *)
  assert (Hleave : ∀ a, a ∈ fr1 → a ∉ fr1' → alive reference (S n) a →
    (x ∉ fr1) ∧ (c ≤ Z.of_nat (length fr1)) ∧
    (∀ p, p ∈ fr1 → p ∉ fr1' → p = a) ∧
    (∀ p, p ∈ fr1 → ¬ never_again reference n p) ∧
    ∃ j, next_occurrence reference n a j ∧
         ∀ p jp, p ∈ fr1 → next_occurrence reference n p jp → (jp ≤ j)%nat).
  { intros a Ha Hout Halive.
    destruct Hacc1 as [?|? ?|v q Hnin Hfull Hv Hvic]; [done| |].
    { destruct Hout. apply elem_of_app. by left. }
    assert (Hq : ∀ p, p ∈ fr1 → p ∉ <[v := x]> fr1 → p = q).
    { intros p Hp Hpout. destruct (decide (p = q)) as [|Hne]; [done|].
      destruct Hpout. apply (elem_of_insert_slot fr1 v q x p); auto. }
    rewrite (Hq a Ha Hout) in *.
    destruct Hvic as [Hdead|[Hlive Hmax]].
    { by apply (never_again_alive reference n) in Hdead. }
    by split_and!. }
  split; [split_and!|].
  - (* the pages still needed stay inside the larger capacity *)
    intros p Hp Halive. destruct (decide (p = x)) as [->|Hne]; [done|].
    pose proof (Hin1 p Hp Hne) as Hp1.
    pose proof (Hsub p Hp1 (alive_S _ _ _ Halive)) as Hp2.
    destruct Hacc2 as [?|? ?|v2 q2 Hnin2 Hfull2 Hv2 Hvic2]; [done| |].
    { apply elem_of_app. by left. }
    apply (elem_of_insert_slot fr2 v2 q2 x p); [done|done|]. right.
    split; [done|]. intros ->.
    destruct Hvic2 as [Hdead|(Hlive2 & j2 & Hj2 & Hmax2)].
    { by apply (never_again_alive reference n) in Hdead. }
    destruct Hacc1 as [?|? Hlt|v1 q1 Hnin1 Hfull1 Hv1 Hvic1]; [auto|lia|].
    assert (Hq1 : q1 ∈ fr1) by (by eapply list_elem_of_lookup_2).
    assert (Hne1 : q2 ≠ q1).
    { apply (elem_of_insert_slot fr1 v1 q1 x q2) in Hp as [?|[_ ?]]; done. }
    destruct Hvic1 as [Hdead|(Hlive1 & j1 & Hj1 & Hmax1)].
    + assert (Hle : (length fr2 ≤ length fr1)%nat).
      { apply (at_most_one_extra fr1 fr2 q1); [done|done|done| |].
        - intros Hq. by apply (Hlive2 q1).
        - intros a b Ha Hb Ha1 Hb1.
          apply Huniq; auto using alive_S. }
      lia.
    + assert (Hq12 : q1 ∈ fr2).
      { apply Hsub; [done|]. by eapply alive_S, next_alive. }
      pose proof (Hmax2 q1 j1 Hq12 Hj1). pose proof (Hmax1 q2 j2 Hp1 Hj2).
      assert (j1 = j2) as -> by lia.
      destruct Hne1. by eapply next_occurrence_inj.
  - (* at most one page still needed is in the larger capacity only *)
    assert (Hkey : ∀ a b,
      a ∈ fr2' → b ∈ fr2' → a ∉ fr1' → b ∉ fr1' →
      alive reference (S n) a → alive reference (S n) b →
      a ∈ fr1 → a = b).
    { intros a b Ha2 Hb2 Ha1 Hb1 Haa Hab Hain.
      assert (Hax : a ≠ x) by (intros ->; done).
      assert (Hbx : b ≠ x) by (intros ->; done).
      destruct (Hleave a Hain Ha1 Haa)
        as (Hnin1 & Hfull1 & Honly & Hlive1 & j1 & Hj1 & Hmax1).
      destruct (decide (b ∈ fr1)) as [Hbin|Hbout].
      { symmetry. by apply Honly. }
      exfalso.
      assert (Hall : ∀ p, p ∈ fr1 → p ∈ fr2).
      { intros p Hp. apply Hsub; [done|]. by apply alive_S, Hnotdead, Hlive1. }
      pose proof (Hin2 b Hb2 Hbx) as Hb2'.
      destruct Hacc2 as [Hin|Hnin2 Hlt2|v2 q2 Hnin2 Hfull2 Hv2 Hvic2].
      - apply Hbx. symmetry.
        apply Huniq; auto using alive_S. by apply alive_here.
      - apply Hbout. apply (incl_full fr1 fr2); [done|done|lia|done].
      - assert (Hq2 : q2 ∈ fr2) by (by eapply list_elem_of_lookup_2).
        assert (Haq : a ≠ q2).
        { apply (elem_of_insert_slot fr2 v2 q2 x a) in Ha2 as [?|[_ ?]];
            done. }
        assert (Hbq : b ≠ q2).
        { apply (elem_of_insert_slot fr2 v2 q2 x b) in Hb2 as [?|[_ ?]];
            done. }
        destruct (decide (q2 ∈ fr1)) as [Hq21|Hq21].
        + destruct Hvic2 as [Hdead|(Hlive2 & j2 & Hj2 & Hmax2)].
          { by apply (Hlive1 q2). }
          pose proof (Hmax2 a j1 (Hall a Hain) Hj1).
          pose proof (Hmax1 q2 j2 Hq21 Hj2).
          assert (j1 = j2) as -> by lia.
          apply Haq. by eapply next_occurrence_inj.
        + destruct Hvic2 as [Hdead|(Hlive2 & j2 & Hj2 & Hmax2)].
          * assert (Hle : (length (q2 :: b :: fr1) ≤ length fr2)%nat).
            { apply incl_length.
              - apply NoDup_cons. split.
                + intros [->|?]%elem_of_cons; done.
                + by apply NoDup_cons.
              - intros p [->|[->|Hp]%elem_of_cons]%elem_of_cons; auto. }
            simpl in Hle. lia.
          * apply Hbq. symmetry. apply Huniq; auto using alive_S. }
    intros a b Ha2 Hb2 Ha1 Hb1 Haa Hab.
    destruct (decide (a ∈ fr1)) as [Hain|Haout]; [by apply Hkey|].
    destruct (decide (b ∈ fr1)) as [Hbin|Hbout].
    { symmetry. by apply Hkey. }
    assert (Hax : a ≠ x) by (intros ->; done).
    assert (Hbx : b ≠ x) by (intros ->; done).
    apply Huniq; auto using alive_S.
  - (* the larger capacity holds at most one page more *)
    destruct (optimal_access_length _ _ _ _ _ _ _ Hacc1)
      as [[-> [?|?]]|(-> & ? & ?)],
       (optimal_access_length _ _ _ _ _ _ _ Hacc2)
      as [[-> [?|?]]|(-> & ? & Hnin2)]; try lia.
    by destruct Hnin2; auto.
  - (* a hit with the smaller capacity is a hit with the larger *)
    intros ->. inversion Hacc1 as [Hin| |]; subst.
    by inversion Hacc2 as [|Hnin ?|? ? Hnin]; subst; [|destruct Hnin; auto..].
Qed.

Lemma optimal_loops_included reference c pre post :
  1 ≤ c → reference = pre ++ post →
  ∃ fr1 st1 f1 fr2 st2 f2,
    optimal_loop reference c pre = Ok (fr1, st1, f1) ∧
    optimal_loop reference (c + 1) pre = Ok (fr2, st2, f2) ∧
    optimal_included reference (length pre) fr1 fr2 ∧ f2 ≤ f1.
Proof.
  intros Hc. revert post. induction pre as [|x pre IH] using rev_ind.
  - intros post _. exists [], [], 0, [], [], 0.
    split_and!; [done|done| |done]. split_and!.
    + intros p Hp. by apply elem_of_nil in Hp.
    + intros a b Ha. by apply elem_of_nil in Ha.
    + simpl. lia.
  - intros post Href. rewrite <- app_assoc in Href. simpl in Href.
    destruct (IH (x :: post) Href)
      as (fr1 & st1 & f1 & fr2 & st2 & f2 & Hrun1 & Hrun2 & Hincl & Hf).
    destruct (optimal_loop_step reference c pre x fr1 st1 f1 Hc Hrun1)
      as (Hnd1 & Hb1 & fr1' & st1' & h1 & Hrun1' & Hacc1).
    destruct (optimal_loop_step reference (c + 1) pre x fr2 st2 f2
                ltac:(lia) Hrun2)
      as (Hnd2 & _ & fr2' & st2' & h2 & Hrun2' & Hacc2).
    assert (Hx : reference !! length pre = Some x)
      by (rewrite Href; by rewrite list_lookup_middle).
    destruct (optimal_included_step c reference (length pre) x
                fr1 fr2 fr1' fr2' h1 h2)
      as [Hincl' Hh]; [done..|].
    eexists fr1', st1', _, fr2', st2', _.
    split_and!; [exact Hrun1'|exact Hrun2'| |].
    + rewrite length_app. simpl.
      by replace (length pre + 1)%nat with (S (length pre)) by lia.
    + destruct h1, h2; [lia| |lia|lia]. by specialize (Hh eq_refl).
Qed.

(** * Sample runs *)

(** the sample reference string of the command-line shell, three frames *)
Example sample_fault_counts :
  (total_faults <$> simulate_fifo [7;0;1;2;0;3;0;4;2;3;0;3;2] 3,
   total_faults <$> simulate_lru [7;0;1;2;0;3;0;4;2;3;0;3;2] 3,
   total_faults <$> simulate_optimal [7;0;1;2;0;3;0;4;2;3;0;3;2] 3)
  = (Ok 10, Ok 9, Ok 7).
Proof. vm_compute. reflexivity. Qed.

(** FIFO evicts page 1, the oldest arrival, although it was just hit *)
Example fifo_snapshots :
  (λ r, frames <$> steps r) <$> simulate_fifo [1; 2; 3; 1; 4] 3 =
  Ok [[1]; [1; 2]; [1; 2; 3]; [1; 2; 3]; [4; 2; 3]].
Proof. vm_compute. reflexivity. Qed.

(** LRU evicts page 2, the least recently used *)
Example lru_snapshots :
  (λ r, frames <$> steps r) <$> simulate_lru [1; 2; 3; 1; 4] 3 =
  Ok [[1]; [1; 2]; [1; 2; 3]; [1; 2; 3]; [1; 4; 3]].
Proof. vm_compute. reflexivity. Qed.

(** Optimal evicts page 2, never referenced again, and then hits *)
Example optimal_snapshots :
  (λ r, (frames <$> steps r, is_hit <$> steps r, total_faults r)) <$>
    simulate_optimal [1; 2; 3; 4; 1; 3; 1] 3 =
  Ok ([[1]; [1; 2]; [1; 2; 3]; [1; 4; 3]; [1; 4; 3]; [1; 4; 3]; [1; 4; 3]],
      [false; false; false; false; true; true; true], 4).
Proof. vm_compute. reflexivity. Qed.

(** with every resident page used again, Optimal evicts the one used
    farthest ahead: page 3, next used at position 6 *)
Example optimal_farthest :
  (λ r, frames <$> steps r) <$> simulate_optimal [1; 2; 3; 4; 1; 2; 3] 3 =
  Ok [[1]; [1; 2]; [1; 2; 3]; [1; 2; 4]; [1; 2; 4]; [1; 2; 4]; [3; 2; 4]].
Proof. vm_compute. reflexivity. Qed.

(** * The claims of the specification *)

(** C9. On the reference sequence [1,2,3,4,1,2,5,1,2,3,4,5]
    [simulate_fifo] counts 9 faults with 3 frames and 10 faults with 4
    frames. *)
Theorem fifo_belady_counts :
  total_faults <$> simulate_fifo [1;2;3;4;1;2;5;1;2;3;4;5] 3 = Ok 9 ∧
  total_faults <$> simulate_fifo [1;2;3;4;1;2;5;1;2;3;4;5] 4 = Ok 10.
Proof. split; vm_compute; reflexivity. Qed.

(** C10. On the empty reference sequence each of the three functions
    returns a result with no steps and no faults, so a hit ratio of
    zero, for every integer [frames_count]: zero and negative values
    included, nothing is raised. *)
Theorem empty_reference_result (frames_count : Z) :
  simulate_fifo [] frames_count = Ok (mkAlgorithmResult "FIFO" [] 0) ∧
  simulate_lru [] frames_count = Ok (mkAlgorithmResult "LRU" [] 0) ∧
  simulate_optimal [] frames_count = Ok (mkAlgorithmResult "Optimal" [] 0) ∧
  hit_ratio (mkAlgorithmResult "FIFO" [] 0) = 0%Q ∧
  hit_ratio (mkAlgorithmResult "LRU" [] 0) = 0%Q ∧
  hit_ratio (mkAlgorithmResult "Optimal" [] 0) = 0%Q.
Proof. by split_and!. Qed.

(** C4 fails on the code: with capacity 0 the empty reference sequence
    is answered with a result, and a non-empty one makes FIFO and LRU
    raise different exceptions. *)
Lemma rejects_capacity_counterexample :
  ¬ rejects_capacity [] 0 ∧ ¬ rejects_capacity [1] 0.
Proof.
  split.
  - intros (e & Hf & _). vm_compute in Hf. discriminate.
  - intros (e & Hf & Hl & _). vm_compute in Hf, Hl. congruence.
Qed.

(** C4, amended.  With a capacity below one and a non-empty reference
    sequence no result is returned: the first reference makes
    [simulate_fifo] raise [IndexError] (pop from the empty queue),
    [simulate_lru] raise [ValueError] ([min] of the empty frame list)
    and [simulate_optimal] raise [IndexError] (assignment to slot 0 of
    the empty frame list). *)
Theorem invalid_capacity_raises (reference : list Z) (frames_count : Z) :
  frames_count ≤ 0 → reference ≠ [] →
  simulate_fifo reference frames_count = Raise IndexError ∧
  simulate_lru reference frames_count = Raise ValueError ∧
  simulate_optimal reference frames_count = Raise IndexError.
Proof.
  intros Hc Hne. destruct reference as [|x l]; [done|].
  unfold simulate_fifo, fifo_loop, simulate_lru, lru_loop,
    simulate_optimal, optimal_loop. simpl.
  change (Z.of_nat 0) with 0.
  by destruct (Z.ltb_spec 0 frames_count); [lia|].
Qed.

Lemma invalid_capacity_raises_witness :
  (-2 ≤ 0) ∧ [7; 0; 7] ≠ [] ∧
  simulate_fifo [7; 0; 7] (-2) = Raise IndexError ∧
  simulate_lru [7; 0; 7] (-2) = Raise ValueError ∧
  simulate_optimal [7; 0; 7] (-2) = Raise IndexError.
Proof.
  split; [lia|]. split; [done|].
  apply (invalid_capacity_raises [7; 0; 7] (-2)); [lia|done].
Defined.

(** C7. With a capacity of at least one, each of the three functions
    returns a result, and the frame list recorded in every step has no
    duplicate page and no more entries than the capacity. *)
Theorem snapshots_nodup_bounded (reference : list Z) (frames_count : Z) :
  1 ≤ frames_count →
  ∃ rf rl ro,
    simulate_fifo reference frames_count = Ok rf ∧
    simulate_lru reference frames_count = Ok rl ∧
    simulate_optimal reference frames_count = Ok ro ∧
    ∀ r, r ∈ [rf; rl; ro] →
      Forall (λ s, NoDup (frames s) ∧
                   Z.of_nat (length (frames s)) ≤ frames_count) (steps r).
Proof.
  intros Hc.
  destruct (simulate_fifo_traced reference frames_count Hc) as (rf & Hf & Tf).
  destruct (simulate_lru_traced reference frames_count Hc) as (rl & Hl & Tl).
  destruct (simulate_optimal_traced reference frames_count Hc)
    as (ro & Ho & To).
  exists rf, rl, ro. split_and!; [done|done|done|].
  intros r Hr. apply (traced_snapshots frames_count reference).
  repeat (apply elem_of_cons in Hr as [->|Hr]; [done|]).
  by apply elem_of_nil in Hr.
Qed.

Lemma snapshots_nodup_bounded_witness :
  1 ≤ 2 ∧
  ∃ rf rl ro,
    simulate_fifo [1; 2; 1; 3; 2] 2 = Ok rf ∧
    simulate_lru [1; 2; 1; 3; 2] 2 = Ok rl ∧
    simulate_optimal [1; 2; 1; 3; 2] 2 = Ok ro ∧
    ∀ r, r ∈ [rf; rl; ro] →
      Forall (λ s, NoDup (frames s) ∧
                   Z.of_nat (length (frames s)) ≤ 2) (steps r).
Proof.
  split; [lia|]. apply (snapshots_nodup_bounded [1; 2; 1; 3; 2] 2). lia.
Defined.

(** C8. With a capacity of at least one, each of the three functions
    returns a result whose step [k] is about the page at position [k]
    of the reference sequence, and a step whose page occurs at no
    earlier position is recorded as a fault. *)
Theorem first_access_is_fault (reference : list Z) (frames_count : Z) :
  1 ≤ frames_count →
  ∃ rf rl ro,
    simulate_fifo reference frames_count = Ok rf ∧
    simulate_lru reference frames_count = Ok rl ∧
    simulate_optimal reference frames_count = Ok ro ∧
    ∀ r, r ∈ [rf; rl; ro] →
      length (steps r) = length reference ∧
      ∀ k s, steps r !! k = Some s →
        reference !! k = Some (page s) ∧
        (page s ∉ take k reference → is_hit s = false).
Proof.
  intros Hc.
  destruct (simulate_fifo_traced reference frames_count Hc) as (rf & Hf & Tf).
  destruct (simulate_lru_traced reference frames_count Hc) as (rl & Hl & Tl).
  destruct (simulate_optimal_traced reference frames_count Hc)
    as (ro & Ho & To).
  exists rf, rl, ro. split_and!; [done|done|done|].
  intros r Hr.
  assert (Tr : traced frames_count reference r).
  { repeat (apply elem_of_cons in Hr as [->|Hr]; [done|]).
    by apply elem_of_nil in Hr. }
  split.
  - destruct Tr as (fr & Hti & _).
    transitivity (length (page <$> steps r)); [by rewrite length_fmap|].
    by rewrite (ti_pages _ _ _ _ _ Hti).
  - intros k s Hk. by apply (traced_first_access frames_count reference r).
Qed.

Lemma first_access_is_fault_witness :
  1 ≤ 2 ∧
  ∃ rf rl ro,
    simulate_fifo [4; 4; 5; 6; 4] 2 = Ok rf ∧
    simulate_lru [4; 4; 5; 6; 4] 2 = Ok rl ∧
    simulate_optimal [4; 4; 5; 6; 4] 2 = Ok ro ∧
    ∀ r, r ∈ [rf; rl; ro] →
      length (steps r) = length [4; 4; 5; 6; 4] ∧
      ∀ k s, steps r !! k = Some s →
        [4; 4; 5; 6; 4] !! k = Some (page s) ∧
        (page s ∉ take k [4; 4; 5; 6; 4] → is_hit s = false).
Proof.
  split; [lia|]. apply (first_access_is_fault [4; 4; 5; 6; 4] 2). lia.
Defined.

(** C5. With one frame the three functions return, for every reference
    sequence, results with the same fault count and the same hit flag
    at every step. *)
Theorem single_frame_agreement (reference : list Z) :
  ∃ rf rl ro,
    simulate_fifo reference 1 = Ok rf ∧
    simulate_lru reference 1 = Ok rl ∧
    simulate_optimal reference 1 = Ok ro ∧
    total_faults rf = total_faults rl ∧
    total_faults rl = total_faults ro ∧
    is_hit <$> steps rf = is_hit <$> steps rl ∧
    is_hit <$> steps rl = is_hit <$> steps ro.
Proof.
  destruct (simulate_fifo_traced reference 1) as (rf & Hf & Tf); [lia|].
  destruct (simulate_lru_traced reference 1) as (rl & Hl & Tl); [lia|].
  destruct (simulate_optimal_traced reference 1) as (ro & Ho & To); [lia|].
  exists rf, rl, ro.
  destruct (traced_single_frame reference rf rl Tf Tl) as [? ?].
  destruct (traced_single_frame reference rl ro Tl To) as [? ?].
  by split_and!.
Qed.

(** C6. For [simulate_lru] and [simulate_optimal], every reference
    sequence and every capacity [c] of at least one: the run with
    capacity [c + 1] returns a result whose fault count is not larger
    than that of the run with capacity [c]. *)
Theorem capacity_monotone (reference : list Z) (c : Z) :
  1 ≤ c →
  ∃ l1 l2 o1 o2,
    simulate_lru reference c = Ok l1 ∧
    simulate_lru reference (c + 1) = Ok l2 ∧
    simulate_optimal reference c = Ok o1 ∧
    simulate_optimal reference (c + 1) = Ok o2 ∧
    total_faults l2 ≤ total_faults l1 ∧
    total_faults o2 ≤ total_faults o1.
Proof.
  intros Hc.
  destruct (lru_loops_included c reference Hc)
    as (lfr1 & lu1 & lst1 & lf1 & lfr2 & lu2 & lst2 & lf2 &
        Hl1 & Hl2 & _ & Hlf).
  destruct (optimal_loops_included reference c reference [] Hc)
    as (ofr1 & ost1 & of1 & ofr2 & ost2 & of2 & Ho1 & Ho2 & _ & Hof).
  { by rewrite app_nil_r. }
  exists (mkAlgorithmResult "LRU" lst1 lf1), (mkAlgorithmResult "LRU" lst2 lf2),
    (mkAlgorithmResult "Optimal" ost1 of1),
    (mkAlgorithmResult "Optimal" ost2 of2).
  unfold simulate_lru, simulate_optimal. rewrite Hl1, Hl2, Ho1, Ho2.
  by split_and!.
Qed.

Lemma capacity_monotone_witness :
  1 ≤ 3 ∧
  ∃ l1 l2 o1 o2,
    simulate_lru [1; 2; 3; 4; 1; 2; 5; 1; 2; 3; 4; 5] 3 = Ok l1 ∧
    simulate_lru [1; 2; 3; 4; 1; 2; 5; 1; 2; 3; 4; 5] (3 + 1) = Ok l2 ∧
    simulate_optimal [1; 2; 3; 4; 1; 2; 5; 1; 2; 3; 4; 5] 3 = Ok o1 ∧
    simulate_optimal [1; 2; 3; 4; 1; 2; 5; 1; 2; 3; 4; 5] (3 + 1) = Ok o2 ∧
    total_faults l2 ≤ total_faults l1 ∧
    total_faults o2 ≤ total_faults o1.
Proof.
  split; [lia|].
  apply (capacity_monotone [1; 2; 3; 4; 1; 2; 5; 1; 2; 3; 4; 5] 3). lia.
Defined.

(** * Runs of the shared contract *)

Lemma runs_trace c pre fr st f :
  1 ≤ c → runs c pre fr st f → trace_inv c pre fr st f.
Proof.
  intros Hc Hruns. induction Hruns as [|pre fr st f x fr' h _ IH Hacc].
  - apply trace_inv_nil. lia.
  - by apply (trace_inv_step c pre fr st f x fr' h).
Qed.

Section engine_runs.

Context {S : Type}.
Variables (body : Z → Z → S → res S) (init : S).
Variable view : S → list Z * list StepResult * Z.
Variable good : list Z → S → Prop.
Variable c : Z.

Hypothesis c_pos : 1 ≤ c.
Hypothesis view_init : view init = ([], [], 0).
Hypothesis good_init : good [] init.
Hypothesis body_access :
  ∀ pre x s fr st f,
    good pre s → view s = (fr, st, f) → trace_inv c pre fr st f →
    ∃ s' fr' h,
      body (1 + Z.of_nat (length pre)) x s = Ok s' ∧
      good (pre ++ [x]) s' ∧ access c x fr fr' h ∧
      view s' =
        (fr', st ++ [mkStepResult (1 + Z.of_nat (length pre)) x fr' h],
         if h then f else f + 1).

Lemma loop_runs pre :
  ∃ s fr st f,
    Py.for_enumerate body 1 pre init = Ok s ∧ good pre s ∧
    view s = (fr, st, f) ∧ runs c pre fr st f.
Proof.
  induction pre as [|x pre IH] using rev_ind.
  - exists init, [], [], 0. split_and!; [done|done|done|constructor].
  - destruct IH as (s & fr & st & f & Hrun & Hgood & Hview & Hruns).
    destruct (body_access pre x s fr st f Hgood Hview
                (runs_trace c pre fr st f c_pos Hruns))
      as (s' & fr' & h & Hbody & Hgood' & Hacc & Hview').
    exists s', fr',
      (st ++ [mkStepResult (1 + Z.of_nat (length pre)) x fr' h]),
      (if h then f else f + 1).
    split_and!; [|done|done|by apply (runs_snoc c pre fr st f x fr' h)].
    rewrite for_enumerate_snoc, Hrun. exact Hbody.
Qed.

End engine_runs.

Lemma fifo_loop_runs c pre :
  1 ≤ c →
  ∃ fr ord st f,
    fifo_loop c pre = Ok (fr, ord, st, f) ∧ runs c pre fr st f.
Proof.
  intros Hc.
  destruct (loop_runs (fifo_body c) fifo_init fifo_view fifo_good c Hc
              eq_refl) with (pre := pre)
    as (s & fr & st & f & Hrun & _ & Hview & Hruns).
  - split; [done|]. split.
    + intros p Hp. by apply elem_of_nil in Hp.
    + intros a b pa pb ta tb _ Ha. done.
  - intros pre' x s. intros. by apply fifo_body_access.
  - destruct s as [[[fr0 ord] st0] f0]. simpl in Hview.
    injection Hview as -> -> ->. by exists fr, ord, st, f.
Qed.

Lemma lru_loop_runs c pre :
  1 ≤ c →
  ∃ fr lu st f,
    lru_loop c pre = Ok (fr, lu, st, f) ∧ runs c pre fr st f.
Proof.
  intros Hc.
  destruct (loop_runs (lru_body c) lru_init lru_view lru_good c Hc
              eq_refl) with (pre := pre)
    as (s & fr & st & f & Hrun & _ & Hview & Hruns).
  - intros p i. rewrite lookup_empty. split; [done|].
    intros (k & _ & Hk & _). done.
  - intros pre' x s. intros. by apply lru_body_access.
  - destruct s as [[[fr0 lu] st0] f0]. simpl in Hview.
    injection Hview as -> -> ->. by exists fr, lu, st, f.
Qed.

Lemma optimal_loop_runs reference c pre :
  1 ≤ c →
  ∃ fr st f,
    optimal_loop reference c pre = Ok (fr, st, f) ∧ runs c pre fr st f.
Proof.
  intros Hc.
  destruct (loop_runs (optimal_body reference c) optimal_init optimal_view
              (λ _ _, True) c Hc eq_refl) with (pre := pre)
    as (s & fr & st & f & Hrun & _ & Hview & Hruns).
  - done.
  - intros pre' x s fr st f _ Hview Hti.
    destruct (optimal_body_access reference c pre' x s fr st f Hc Hview Hti)
      as (s' & fr' & h & ? & ? & ?).
    by exists s', fr', h.
  - unfold optimal_view in Hview. subst s. by exists fr, st, f.
Qed.

(** what the three entry points return, as runs of the contract *)
Lemma simulate_runs reference c :
  1 ≤ c →
  ∃ rf rl ro,
    simulate_fifo reference c = Ok rf ∧
    simulate_lru reference c = Ok rl ∧
    simulate_optimal reference c = Ok ro ∧
    ∀ r, r ∈ [rf; rl; ro] →
         ∃ fr, runs c reference fr (steps r) (total_faults r).
Proof.
  intros Hc.
  destruct (fifo_loop_runs c reference Hc) as (fr_f & ord & st_f & f_f & Hf & Rf).
  destruct (lru_loop_runs c reference Hc) as (fr_l & lu & st_l & f_l & Hl & Rl).
  destruct (optimal_loop_runs reference c reference Hc)
    as (fr_o & st_o & f_o & Ho & Ro).
  exists (mkAlgorithmResult "FIFO" st_f f_f),
    (mkAlgorithmResult "LRU" st_l f_l),
    (mkAlgorithmResult "Optimal" st_o f_o).
  unfold simulate_fifo, simulate_lru, simulate_optimal.
  rewrite Hf, Hl, Ho. split_and!; [done|done|done|].
  intros r Hr.
  repeat (apply elem_of_cons in Hr as [->|Hr]; [by eexists|]).
  by apply elem_of_nil in Hr.
Qed.

Lemma access_resident c x fr fr' h :
  NoDup fr → access c x fr fr' h → x ∈ fr'.
Proof.
  intros Hnd [?|? ?|v ? ? Hv]; [done| |].
  - apply elem_of_app. right. left.
  - apply list_elem_of_lookup. exists v. by rewrite list_lookup_insert_eq.
Qed.

Lemma snapshot_before_app st s k :
  (k ≤ length st)%nat →
  snapshot_before (st ++ [s]) k = snapshot_before st k.
Proof.
  intros Hk. destruct k as [|k]; [done|]. simpl.
  by rewrite lookup_app_l by lia.
Qed.

(** every recorded step obeys the contract from the snapshot before it,
    and the frame list is the last snapshot *)
Lemma runs_linked c pre fr st f :
  runs c pre fr st f →
  fr = snapshot_before st (length st) ∧
  ∀ k s, st !! k = Some s →
         access c (page s) (snapshot_before st k) (frames s) (is_hit s).
Proof.
  intros Hruns. induction Hruns as [|pre fr st f x fr' h _ [IHfr IHst] Hacc].
  - split; [done|]. intros k s Hk. done.
  - split.
    + rewrite length_app. simpl.
      replace (length st + 1)%nat with (S (length st)) by lia. simpl.
      by rewrite list_lookup_middle.
    + intros k s Hk. apply lookup_app_Some in Hk as [Hk|[Hge Hk]].
      * rewrite snapshot_before_app; [by apply IHst|].
        apply lookup_lt_Some in Hk. lia.
      * apply list_lookup_singleton_Some in Hk as [Hk <-]. simpl.
        assert (k = length st) as -> by lia.
        rewrite snapshot_before_app by lia. by rewrite <- IHfr.
Qed.

(** ** Counting distinct pages *)

Lemma distinct_snoc_in (l : list Z) x :
  x ∈ l → distinct (l ++ [x]) = distinct l.
Proof.
  intros Hx. unfold distinct. f_equal. rewrite list_to_set_snoc_L.
  apply set_eq. intros p. rewrite elem_of_union, elem_of_singleton,
    elem_of_list_to_set. split; [intros [?| ->]; done|auto].
Qed.

Lemma distinct_snoc_notin (l : list Z) x :
  x ∉ l → distinct (l ++ [x]) = S (distinct l).
Proof.
  intros Hx. unfold distinct. rewrite list_to_set_snoc_L, size_union.
  - rewrite size_singleton. lia.
  - intros p Hp ->%elem_of_singleton. by apply elem_of_list_to_set in Hp.
Qed.

Lemma distinct_snoc_le (l : list Z) x :
  (distinct l ≤ distinct (l ++ [x]) ≤ S (distinct l))%nat.
Proof.
  destruct (decide (x ∈ l)).
  - rewrite distinct_snoc_in by done. lia.
  - rewrite distinct_snoc_notin by done. lia.
Qed.

Lemma distinct_incl (fr l : list Z) :
  NoDup fr → (∀ p, p ∈ fr → p ∈ l) → (length fr ≤ distinct l)%nat.
Proof.
  intros Hnd Hin. unfold distinct.
  rewrite <- (size_list_to_set (C := gset Z) fr) by done.
  apply subseteq_size. intros p. rewrite !elem_of_list_to_set. apply Hin.
Qed.

Lemma distinct_same (fr l : list Z) :
  NoDup fr → (∀ p, p ∈ fr ↔ p ∈ l) → length fr = distinct l.
Proof.
  intros Hnd Hin. unfold distinct.
  rewrite <- (size_list_to_set (C := gset Z) fr) by done.
  f_equal. apply set_eq. intros p. rewrite !elem_of_list_to_set. apply Hin.
Qed.

(** ** What every run of the contract satisfies *)

(** while a frame is free, every page referenced so far is resident *)
Lemma runs_all_resident c pre fr st f :
  runs c pre fr st f → Z.of_nat (length fr) < c → ∀ p, p ∈ pre → p ∈ fr.
Proof.
  intros Hruns. induction Hruns as [|pre fr st f x fr' h _ IH Hacc].
  - intros _ p Hp. by apply elem_of_nil in Hp.
  - intros Hlt p Hp. destruct Hacc as [Hin|Hnin Hfree|v Hnin Hfull Hv].
    + apply elem_of_app in Hp as [Hp| ->%list_elem_of_singleton]; auto.
    + rewrite length_app in Hlt. simpl in Hlt.
      apply elem_of_app in Hp as [Hp|Hp]; apply elem_of_app; [left|by right].
      apply IH; [lia|done].
    + rewrite length_insert in Hlt. lia.
Qed.

(** the occupied frames are as many as the distinct pages, up to the
    capacity *)
Lemma runs_occupancy c pre fr st f :
  1 ≤ c → runs c pre fr st f →
  Z.of_nat (length fr) = Z.min c (Z.of_nat (distinct pre)).
Proof.
  intros Hc Hruns. pose proof (runs_trace c pre fr st f Hc Hruns) as Hti.
  pose proof (ti_bound _ _ _ _ _ Hti) as Hb.
  pose proof (distinct_incl fr pre (ti_nodup _ _ _ _ _ Hti)
                (ti_seen _ _ _ _ _ Hti)) as Hle.
  destruct (decide (Z.of_nat (length fr) < c)) as [Hlt|Hge]; [|lia].
  assert (Heq : length fr = distinct pre); [|lia].
  apply distinct_same; [apply Hti|].
  intros p. split; [apply Hti|]. by apply (runs_all_resident c pre fr st f).
Qed.

Lemma runs_snapshot_occupancy c pre fr st f :
  1 ≤ c → runs c pre fr st f →
  ∀ k s, st !! k = Some s →
    Z.of_nat (length (frames s)) =
    Z.min c (Z.of_nat (distinct (take (S k) pre))).
Proof.
  intros Hc Hruns. induction Hruns as [|pre fr st f x fr' h Hruns IH Hacc].
  - intros k s Hk. done.
  - intros k s Hk.
    assert (Hlen : length st = length pre).
    { pose proof (runs_trace c pre fr st f Hc Hruns) as Hti.
      by rewrite <- (ti_pages _ _ _ _ _ Hti), length_fmap. }
    apply lookup_app_Some in Hk as [Hk|[Hge Hk]].
    + rewrite take_app_le; [by apply IH|].
      apply lookup_lt_Some in Hk. lia.
    + apply list_lookup_singleton_Some in Hk as [Hk <-]. simpl.
      rewrite take_ge by (rewrite length_app; simpl; lia).
      apply (runs_occupancy c (pre ++ [x]) fr' _ _ Hc
               (runs_snoc c pre fr st f x fr' h Hruns Hacc)).
Qed.

(** every distinct page costs at least one fault *)
Lemma runs_compulsory c pre fr st f :
  1 ≤ c → runs c pre fr st f → Z.of_nat (distinct pre) ≤ f.
Proof.
  intros Hc Hruns. induction Hruns as [|pre fr st f x fr' h Hruns IH Hacc].
  - done.
  - pose proof (runs_trace c pre fr st f Hc Hruns) as Hti.
    destruct Hacc as [Hin|Hnin Hfree|v Hnin Hfull Hv].
    + rewrite distinct_snoc_in; [done|]. by apply (ti_seen _ _ _ _ _ Hti).
    + pose proof (distinct_snoc_le pre x). lia.
    + pose proof (distinct_snoc_le pre x). lia.
Qed.

(** when the distinct pages fit in the frames nothing is ever evicted:
    two runs coincide, and the faults are the distinct pages *)
Lemma runs_fits c pre fr1 st1 f1 :
  1 ≤ c → runs c pre fr1 st1 f1 → Z.of_nat (distinct pre) ≤ c →
  f1 = Z.of_nat (distinct pre) ∧
  ∀ fr2 st2 f2, runs c pre fr2 st2 f2 → fr2 = fr1 ∧ st2 = st1 ∧ f2 = f1.
Proof.
  intros Hc Hruns.
  induction Hruns as [|pre fr st f x fr' h Hruns IH Hacc]; intros Hfit.
  - split; [done|]. intros fr2 st2 f2 H2.
    inversion H2 as [|pre' ? ? ? ? ? ? ? ? Hpre]; [done|].
    by destruct pre'.
  - pose proof (runs_trace c pre fr st f Hc Hruns) as Hti.
    pose proof (distinct_snoc_le pre x) as Hmono.
    destruct IH as [IHf IHeq]; [lia|].
    assert (Hnoevict : ∀ fr0, NoDup fr0 → (∀ p, p ∈ fr0 → p ∈ pre) →
                       x ∉ fr0 → c ≤ Z.of_nat (length fr0) → False).
    { intros fr0 Hnd Hseen Hnin Hfull.
      assert (Hle : (length (x :: fr0) ≤ distinct (pre ++ [x]))%nat).
      { apply distinct_incl; [by apply NoDup_cons|].
        intros p [->|Hp]%elem_of_cons; apply elem_of_app;
          [right; left|left; by apply Hseen]. }
      simpl in Hle. lia. }
    split.
    + destruct Hacc as [Hin|Hnin Hfree|v Hnin Hfull Hv].
      * rewrite distinct_snoc_in; [done|]. by apply (ti_seen _ _ _ _ _ Hti).
      * rewrite distinct_snoc_notin; [lia|]. intros Hx. apply Hnin.
        by apply (runs_all_resident c pre fr st f).
      * destruct (Hnoevict fr); [apply Hti|apply Hti|done|done].
    + intros fr2 st2 f2 H2.
      inversion H2 as [|pre' fr0 st0 f0 x' fr0' h0 Hruns0 Hacc0 Hpre];
        [by destruct pre|].
      apply app_inj_tail in Hpre as [-> ->].
      destruct (IHeq fr0 st0 f0 Hruns0) as (-> & -> & ->).
      assert (fr0' = fr' ∧ h0 = h) as [-> ->].
      { destruct Hacc as [Hin|Hnin Hfree|v Hnin Hfull Hv],
                 Hacc0 as [Hin0|Hnin0 Hfree0|v0 Hnin0 Hfull0 Hv0];
          try done; try lia;
          destruct (Hnoevict fr); (done || apply Hti). }
      by subst.
Qed.

(** * Further properties of the engine *)

Lemma hits_and_faults (st : list StepResult) :
  Z.of_nat (length (filter (λ s, is_hit s = true) st)) + count_faults st =
  Z.of_nat (length st).
Proof.
  unfold count_faults. induction st as [|s st IH]; [done|].
  destruct (is_hit s) eqn:Hh.
  - rewrite filter_cons_True by done.
    rewrite (filter_cons_False (λ s, is_hit s = false)) by (rewrite Hh; done).
    simpl in *. lia.
  - rewrite filter_cons_False by (rewrite Hh; done).
    rewrite (filter_cons_True (λ s, is_hit s = false)) by done.
    simpl in *. lia.
Qed.

Lemma quotient_bounds (h n : Z) :
  0 ≤ h ≤ n → 0 < n → (0 <= inject_Z h / inject_Z n <= 1)%Q.
Proof.
  intros [Hh Hn] Hpos.
  assert (Hq : (0 < inject_Z n)%Q) by (unfold Qlt; simpl; lia).
  split.
  - apply Qle_shift_div_l; [done|]. rewrite Qmult_0_l.
    unfold Qle. simpl. lia.
  - apply Qle_shift_div_r; [done|]. rewrite Qmult_1_l.
    unfold Qle. simpl. lia.
Qed.

(** X1. With a capacity of at least one, every step that the three
    functions record is numbered by its position, leaves its page
    resident, and comes from the snapshot of the step before it (the
    empty list for the first step) by the shared contract: a hit changes
    nothing, a fault with a free frame appends the page, a fault with
    the frames full overwrites exactly one slot. *)
Theorem steps_follow_contract (reference : list Z) (frames_count : Z) :
  1 ≤ frames_count →
  ∃ rf rl ro,
    simulate_fifo reference frames_count = Ok rf ∧
    simulate_lru reference frames_count = Ok rl ∧
    simulate_optimal reference frames_count = Ok ro ∧
    ∀ r, r ∈ [rf; rl; ro] →
      ∀ k s, steps r !! k = Some s →
        step s = Z.of_nat k + 1 ∧ page s ∈ frames s ∧
        access frames_count (page s) (snapshot_before (steps r) k)
          (frames s) (is_hit s).
Proof.
  intros Hc.
  destruct (simulate_runs reference frames_count Hc)
    as (rf & rl & ro & Hf & Hl & Ho & Hall).
  exists rf, rl, ro. split_and!; [done|done|done|].
  intros r Hr k s Hk. destruct (Hall r Hr) as [fr Hruns].
  pose proof (runs_trace _ _ _ _ _ Hc Hruns) as Hti.
  destruct (runs_linked _ _ _ _ _ Hruns) as [Hlast Hlink].
  pose proof (Hlink k s Hk) as Hacc.
  split_and!; [by apply (ti_index _ _ _ _ _ Hti)| |done].
  apply (access_resident _ _ _ _ _ ) in Hacc; [done|].
  destruct k as [|k]; simpl; [constructor|].
  destruct (steps r !! k) as [s0|] eqn:Hs0; simpl; [|constructor].
  pose proof (ti_snap _ _ _ _ _ Hti) as Hsnap.
  rewrite Forall_forall in Hsnap.
  by apply (Hsnap s0), list_elem_of_lookup_2 with k.
Qed.

Lemma steps_follow_contract_witness :
  1 ≤ 2 ∧
  ∃ rf rl ro,
    simulate_fifo [1; 2; 1; 3] 2 = Ok rf ∧
    simulate_lru [1; 2; 1; 3] 2 = Ok rl ∧
    simulate_optimal [1; 2; 1; 3] 2 = Ok ro ∧
    ∀ r, r ∈ [rf; rl; ro] →
      ∀ k s, steps r !! k = Some s →
        step s = Z.of_nat k + 1 ∧ page s ∈ frames s ∧
        access 2 (page s) (snapshot_before (steps r) k)
          (frames s) (is_hit s).
Proof.
  split; [lia|]. apply (steps_follow_contract [1; 2; 1; 3] 2). lia.
Defined.

(** the counters of a result against its recorded steps *)
Lemma runs_accounting c reference fr (r : AlgorithmResult) :
  1 ≤ c → runs c reference fr (steps r) (total_faults r) →
  total_accesses r = Z.of_nat (length reference) ∧
  total_faults r =
    Z.of_nat (length (filter (λ s, is_hit s = false) (steps r))) ∧
  total_hits r =
    Z.of_nat (length (filter (λ s, is_hit s = true) (steps r))) ∧
  0 ≤ total_faults r ≤ total_accesses r ∧
  0 ≤ total_hits r ≤ total_accesses r.
Proof.
  intros Hc Hruns.
  pose proof (runs_trace _ _ _ _ _ Hc Hruns) as Hti.
  pose proof (hits_and_faults (steps r)) as Hsum.
  pose proof (ti_faults _ _ _ _ _ Hti) as Hfaults.
  assert (Hlen : length (steps r) = length reference).
  { transitivity (length (page <$> steps r)); [by rewrite length_fmap|].
    by rewrite (ti_pages _ _ _ _ _ Hti). }
  unfold total_hits, total_accesses. unfold count_faults in *.
  rewrite Hlen in *. split_and!; lia.
Qed.

(** X2. With a capacity of at least one, the result of each of the
    three functions has one step per reference, [total_faults] is the
    number of steps recorded as faults, [total_hits] is the number of
    steps recorded as hits, and both lie between 0 and
    [total_accesses]. *)
Theorem fault_accounting (reference : list Z) (frames_count : Z) :
  1 ≤ frames_count →
  ∃ rf rl ro,
    simulate_fifo reference frames_count = Ok rf ∧
    simulate_lru reference frames_count = Ok rl ∧
    simulate_optimal reference frames_count = Ok ro ∧
    ∀ r, r ∈ [rf; rl; ro] →
      total_accesses r = Z.of_nat (length reference) ∧
      total_faults r =
        Z.of_nat (length (filter (λ s, is_hit s = false) (steps r))) ∧
      total_hits r =
        Z.of_nat (length (filter (λ s, is_hit s = true) (steps r))) ∧
      0 ≤ total_faults r ≤ total_accesses r ∧
      0 ≤ total_hits r ≤ total_accesses r.
Proof.
  intros Hc.
  destruct (simulate_runs reference frames_count Hc)
    as (rf & rl & ro & Hf & Hl & Ho & Hall).
  exists rf, rl, ro. split_and!; [done|done|done|].
  intros r Hr. destruct (Hall r Hr) as [fr Hruns].
  by apply (runs_accounting frames_count reference fr).
Qed.

Lemma fault_accounting_witness :
  1 ≤ 2 ∧
  ∃ rf rl ro,
    simulate_fifo [1; 2; 1; 3] 2 = Ok rf ∧
    simulate_lru [1; 2; 1; 3] 2 = Ok rl ∧
    simulate_optimal [1; 2; 1; 3] 2 = Ok ro ∧
    ∀ r, r ∈ [rf; rl; ro] →
      total_accesses r = Z.of_nat (length [1; 2; 1; 3]) ∧
      total_faults r =
        Z.of_nat (length (filter (λ s, is_hit s = false) (steps r))) ∧
      total_hits r =
        Z.of_nat (length (filter (λ s, is_hit s = true) (steps r))) ∧
      0 ≤ total_faults r ≤ total_accesses r ∧
      0 ≤ total_hits r ≤ total_accesses r.
Proof.
  split; [lia|]. apply (fault_accounting [1; 2; 1; 3] 2). lia.
Defined.

(** X3. With a capacity of at least one, the hit ratio and the miss
    ratio of the result of each of the three functions, taken as exact
    quotients, lie between 0 and 1. *)
Theorem ratios_bounded (reference : list Z) (frames_count : Z) :
  1 ≤ frames_count →
  ∃ rf rl ro,
    simulate_fifo reference frames_count = Ok rf ∧
    simulate_lru reference frames_count = Ok rl ∧
    simulate_optimal reference frames_count = Ok ro ∧
    ∀ r, r ∈ [rf; rl; ro] →
      (0 <= hit_ratio r <= 1)%Q ∧ (0 <= miss_ratio r <= 1)%Q.
Proof.
  intros Hc.
  destruct (simulate_runs reference frames_count Hc)
    as (rf & rl & ro & Hf & Hl & Ho & Hall).
  exists rf, rl, ro. split_and!; [done|done|done|].
  intros r Hr. destruct (Hall r Hr) as [fr Hruns].
  destruct (runs_accounting frames_count reference fr r Hc Hruns)
    as (_ & _ & _ & _ & Hhits).
  assert (Hh : (0 <= hit_ratio r <= 1)%Q).
  { unfold hit_ratio. destruct (Z.eqb_spec (total_accesses r) 0) as [|Hne].
    - split; discriminate.
    - apply quotient_bounds; lia. }
  split; [done|]. unfold miss_ratio. destruct Hh as [H0 H1]. split.
  - apply (Qplus_le_l _ _ (hit_ratio r)). ring_simplify. done.
  - apply (Qplus_le_l _ _ (hit_ratio r)). ring_simplify.
    apply (Qplus_le_r _ _ 1) in H0. by ring_simplify in H0.
Qed.

Lemma ratios_bounded_witness :
  1 ≤ 2 ∧
  ∃ rf rl ro,
    simulate_fifo [1; 2; 1; 3] 2 = Ok rf ∧
    simulate_lru [1; 2; 1; 3] 2 = Ok rl ∧
    simulate_optimal [1; 2; 1; 3] 2 = Ok ro ∧
    ∀ r, r ∈ [rf; rl; ro] →
      (0 <= hit_ratio r <= 1)%Q ∧ (0 <= miss_ratio r <= 1)%Q.
Proof.
  split; [lia|]. apply (ratios_bounded [1; 2; 1; 3] 2). lia.
Defined.

(** X4. With a capacity of at least one, none of the three functions
    counts fewer faults than the reference sequence has distinct pages,
    nor more than it has references. *)
Theorem faults_between (reference : list Z) (frames_count : Z) :
  1 ≤ frames_count →
  ∃ rf rl ro,
    simulate_fifo reference frames_count = Ok rf ∧
    simulate_lru reference frames_count = Ok rl ∧
    simulate_optimal reference frames_count = Ok ro ∧
    ∀ r, r ∈ [rf; rl; ro] →
      Z.of_nat (distinct reference) ≤ total_faults r ≤
      Z.of_nat (length reference).
Proof.
  intros Hc.
  destruct (simulate_runs reference frames_count Hc)
    as (rf & rl & ro & Hf & Hl & Ho & Hall).
  exists rf, rl, ro. split_and!; [done|done|done|].
  intros r Hr. destruct (Hall r Hr) as [fr Hruns].
  split; [by eapply runs_compulsory|].
  pose proof (runs_trace _ _ _ _ _ Hc Hruns) as Hti.
  rewrite (ti_faults _ _ _ _ _ Hti).
  rewrite <- (ti_pages _ _ _ _ _ Hti), length_fmap.
  unfold count_faults. pose proof (length_filter
    (λ s, is_hit s = false) (steps r)). lia.
Qed.

Lemma faults_between_witness :
  1 ≤ 2 ∧
  ∃ rf rl ro,
    simulate_fifo [1; 2; 3; 1; 2] 2 = Ok rf ∧
    simulate_lru [1; 2; 3; 1; 2] 2 = Ok rl ∧
    simulate_optimal [1; 2; 3; 1; 2] 2 = Ok ro ∧
    ∀ r, r ∈ [rf; rl; ro] →
      Z.of_nat (distinct [1; 2; 3; 1; 2]) ≤ total_faults r ≤
      Z.of_nat (length [1; 2; 3; 1; 2]).
Proof.
  split; [lia|]. apply (faults_between [1; 2; 3; 1; 2] 2). lia.
Defined.

(** X5. When the reference sequence has no more distinct pages than
    there are frames (and at least one frame), nothing is ever evicted:
    the three functions record the same steps, and each counts exactly
    one fault per distinct page. *)
Theorem fitting_reference (reference : list Z) (frames_count : Z) :
  1 ≤ frames_count → Z.of_nat (distinct reference) ≤ frames_count →
  ∃ rf rl ro,
    simulate_fifo reference frames_count = Ok rf ∧
    simulate_lru reference frames_count = Ok rl ∧
    simulate_optimal reference frames_count = Ok ro ∧
    steps rl = steps rf ∧ steps ro = steps rf ∧
    ∀ r, r ∈ [rf; rl; ro] → total_faults r = Z.of_nat (distinct reference).
Proof.
  intros Hc Hfit.
  destruct (simulate_runs reference frames_count Hc)
    as (rf & rl & ro & Hf & Hl & Ho & Hall).
  exists rf, rl, ro. split_and!; [done|done|done| | |].
  - destruct (Hall rf) as [frf Rf]; [left|].
    destruct (Hall rl) as [frl Rl]; [right; left|].
    destruct (runs_fits _ _ _ _ _ Hc Rf Hfit) as [_ Heq].
    by destruct (Heq _ _ _ Rl) as (_ & ? & _).
  - destruct (Hall rf) as [frf Rf]; [left|].
    destruct (Hall ro) as [fro Ro]; [right; right; left|].
    destruct (runs_fits _ _ _ _ _ Hc Rf Hfit) as [_ Heq].
    by destruct (Heq _ _ _ Ro) as (_ & ? & _).
  - intros r Hr. destruct (Hall r Hr) as [fr Hruns].
    by destruct (runs_fits _ _ _ _ _ Hc Hruns Hfit) as [? _].
Qed.

Lemma fitting_reference_witness :
  1 ≤ 3 ∧ Z.of_nat (distinct [5; 6; 5; 7; 6; 5]) ≤ 3 ∧
  ∃ rf rl ro,
    simulate_fifo [5; 6; 5; 7; 6; 5] 3 = Ok rf ∧
    simulate_lru [5; 6; 5; 7; 6; 5] 3 = Ok rl ∧
    simulate_optimal [5; 6; 5; 7; 6; 5] 3 = Ok ro ∧
    steps rl = steps rf ∧ steps ro = steps rf ∧
    ∀ r, r ∈ [rf; rl; ro] →
         total_faults r = Z.of_nat (distinct [5; 6; 5; 7; 6; 5]).
Proof.
  split; [lia|]. split; [vm_compute; discriminate|].
  apply (fitting_reference [5; 6; 5; 7; 6; 5] 3);
    [lia|vm_compute; discriminate].
Defined.

(** X6. With a capacity of at least one, the snapshot of every step of
    the three functions holds as many pages as the reference sequence
    has distinct pages up to that step, or [frames_count] pages when
    there are more: frames fill up one distinct page at a time and are
    never left empty by an eviction. *)
Theorem snapshot_occupancy (reference : list Z) (frames_count : Z) :
  1 ≤ frames_count →
  ∃ rf rl ro,
    simulate_fifo reference frames_count = Ok rf ∧
    simulate_lru reference frames_count = Ok rl ∧
    simulate_optimal reference frames_count = Ok ro ∧
    ∀ r, r ∈ [rf; rl; ro] →
      ∀ k s, steps r !! k = Some s →
        Z.of_nat (length (frames s)) =
        Z.min frames_count (Z.of_nat (distinct (take (S k) reference))).
Proof.
  intros Hc.
  destruct (simulate_runs reference frames_count Hc)
    as (rf & rl & ro & Hf & Hl & Ho & Hall).
  exists rf, rl, ro. split_and!; [done|done|done|].
  intros r Hr. destruct (Hall r Hr) as [fr Hruns].
  apply (runs_snapshot_occupancy frames_count reference fr _ _ Hc Hruns).
Qed.

Lemma snapshot_occupancy_witness :
  1 ≤ 2 ∧
  ∃ rf rl ro,
    simulate_fifo [1; 1; 2; 3] 2 = Ok rf ∧
    simulate_lru [1; 1; 2; 3] 2 = Ok rl ∧
    simulate_optimal [1; 1; 2; 3] 2 = Ok ro ∧
    ∀ r, r ∈ [rf; rl; ro] →
      ∀ k s, steps r !! k = Some s →
        Z.of_nat (length (frames s)) =
        Z.min 2 (Z.of_nat (distinct (take (S k) [1; 1; 2; 3]))).
Proof.
  split; [lia|]. apply (snapshot_occupancy [1; 1; 2; 3] 2). lia.
Defined.

(** ** What LRU and FIFO keep resident *)

Lemma most_recently_used_step c pre x fr fr' h :
  NoDup fr → most_recently_used pre fr → lru_access c pre x fr fr' h →
  most_recently_used (pre ++ [x]) fr'.
Proof.
  intros Hnd Hmru Hacc p q ip iq Hp Hq Hip Hiq.
  assert (Hx : x ∈ fr').
  { destruct Hacc as [?|? ?|v u iu ? ? Hv ? ?]; [done| |].
    - apply elem_of_app. right. left.
    - apply (elem_of_insert_slot fr v u x x); auto. }
  assert (Hqx : q ≠ x) by (intros ->; done).
  apply last_reference_snoc_ne in Hiq; [|done].
  destruct (decide (p = x)) as [->|Hpx].
  { apply last_reference_snoc_eq in Hip as ->.
    by eapply last_reference_bound. }
  apply last_reference_snoc_ne in Hip; [|done].
  destruct Hacc as [Hin|Hnin Hfree|v u iu Hnin Hfull Hv Hiu Hmin].
  - by apply (Hmru p q).
  - apply elem_of_app in Hp as [Hp|?%list_elem_of_singleton]; [|done].
    apply (Hmru p q); [done| |done|done].
    intros Hq'. apply Hq, elem_of_app. by left.
  - apply (elem_of_insert_slot fr v u x p) in Hp as [?|[Hp Hpu]];
      [done| |done|done].
    destruct (decide (q ∈ fr)) as [Hqin|Hqout]; [|by apply (Hmru p q)].
    assert (q = u) as ->.
    { destruct (decide (q = u)) as [|Hne]; [done|]. destruct Hq.
      apply (elem_of_insert_slot fr v u x q); auto. }
    rewrite (last_reference_fun _ _ _ _ Hiq Hiu).
    pose proof (Hmin p ip Hp Hip).
    destruct (decide (iu = ip)) as [->|]; [|lia].
    destruct Hpu. by eapply last_reference_inj.
Qed.

(** X7. In [simulate_lru] with a capacity of at least one, after any
    pages [pre] the frames hold the most recently used pages: every
    resident page was last referenced at a later step than every page
    of [pre] that is not resident. *)
Theorem lru_keeps_most_recent (pre : list Z) (frames_count : Z) :
  1 ≤ frames_count →
  ∃ fr lu st f,
    lru_loop frames_count pre = Ok (fr, lu, st, f) ∧
    ∀ p q ip iq,
      p ∈ fr → q ∉ fr →
      last_reference pre p ip → last_reference pre q iq → iq < ip.
Proof.
  intros Hc. induction pre as [|x pre IH] using rev_ind.
  - exists [], ∅, [], 0. split; [done|].
    intros p q ip iq Hp. by apply elem_of_nil in Hp.
  - destruct IH as (fr & lu & st & f & Hrun & Hmru).
    destruct (lru_loop_step frames_count pre x fr lu st f Hc Hrun)
      as (Hnd & _ & _ & fr' & lu' & st' & h & Hrun' & Hacc).
    eexists fr', lu', st', _. split; [exact Hrun'|].
    by apply (most_recently_used_step frames_count pre x fr fr' h).
Qed.

Lemma lru_keeps_most_recent_witness :
  1 ≤ 2 ∧
  ∃ fr lu st f,
    lru_loop 2 [1; 2; 1; 3; 1] = Ok (fr, lu, st, f) ∧
    ∀ p q ip iq,
      p ∈ fr → q ∉ fr →
      last_reference [1; 2; 1; 3; 1] p ip →
      last_reference [1; 2; 1; 3; 1] q iq → iq < ip.
Proof.
  split; [lia|]. apply (lru_keeps_most_recent [1; 2; 1; 3; 1] 2). lia.
Defined.

(** X8. In [simulate_fifo] with a capacity of at least one, after any
    pages [pre] the frames hold the most recently loaded pages: every
    resident page was brought in at a later step than the last step at
    which any page that is not resident was brought in, whatever hits
    happened in between. *)
Theorem fifo_keeps_most_recent (pre : list Z) (frames_count : Z) :
  1 ≤ frames_count →
  ∃ fr ord st f,
    fifo_loop frames_count pre = Ok (fr, ord, st, f) ∧
    ∀ p q tp tq,
      p ∈ fr → q ∉ fr → arrival st p = Some tp → arrival st q = Some tq →
      tq < tp.
Proof.
  intros Hc. induction pre as [|x pre IH] using rev_ind.
  - exists [], [], [], 0. split; [done|].
    intros p q tp tq Hp. by apply elem_of_nil in Hp.
  - destruct IH as (fr & ord & st & f & Hrun & Hmrl).
    destruct (fifo_loop_inv frames_count pre Hc)
      as (fr0 & ord0 & st0 & f0 & Hrun0 & Hperm & Hold & Hti & _).
    rewrite Hrun in Hrun0. injection Hrun0 as <- <- <- <-.
    assert (Hbound : ∀ p t, arrival st p = Some t →
                            t < 1 + Z.of_nat (length pre))
      by (intros p t; by eapply arrival_bound).
    pose proof (ti_nodup _ _ _ _ _ Hti) as Hnd.
    rewrite fifo_loop_snoc, Hrun, res_bind_Ok.
    destruct (decide (x ∈ fr)) as [Hin|Hnin].
    { rewrite fifo_body_hit by done. eexists _, _, _, _. split; [done|].
      intros p q tp tq Hp Hq. rewrite !arrival_snoc. simpl.
      rewrite !decide_False by (intros [_ ?]; done). by apply Hmrl. }
    assert (Hnew : ∀ fr' p q tp tq,
      (∀ p, p ∈ fr' → p = x ∨ p ∈ fr) → x ∈ fr' →
      (∀ q tq, q ∈ fr → q ∉ fr' → arrival st q = Some tq →
               ∀ p tp, p ∈ fr' → p ≠ x → arrival st p = Some tp → tq < tp) →
      p ∈ fr' → q ∉ fr' →
      arrival (st ++ [mkStepResult (1 + Z.of_nat (length pre)) x fr' false])
        p = Some tp →
      arrival (st ++ [mkStepResult (1 + Z.of_nat (length pre)) x fr' false])
        q = Some tq →
      tq < tp).
    { intros fr' p q tp tq Hsub Hx Hout Hp Hq. rewrite !arrival_snoc. simpl.
      assert (Hqx : q ≠ x) by (intros ->; done).
      rewrite (decide_False (P := x = q ∧ _)) by (intros [? _]; done).
      destruct (decide (p = x)) as [->|Hpx].
      - rewrite decide_True by done. intros [= <-] Htq. by eapply Hbound.
      - rewrite decide_False by (intros [? _]; done). intros Htp Htq.
        destruct (Hsub p Hp) as [?|Hpfr]; [done|].
        destruct (decide (q ∈ fr)) as [Hqin|Hqout].
        + by apply (Hout q tq Hqin Hq Htq p tp).
        + by apply (Hmrl p q). }
    destruct (decide (Z.of_nat (length fr) < frames_count)) as [Hlt|Hge].
    { rewrite fifo_body_fill by done. eexists _, _, _, _. split; [done|].
      intros p q tp tq. apply Hnew.
      - intros p' [?|?%list_elem_of_singleton]%elem_of_app; auto.
      - apply elem_of_app. right. left.
      - intros q' tq' Hq' Hq''. destruct Hq''. apply elem_of_app. by left. }
    destruct ord as [|victim rest].
    { apply Permutation_nil_l in Hperm. subst fr. simpl in Hge. lia. }
    assert (Hvic : victim ∈ fr) by (rewrite <- Hperm; left).
    destruct (fifo_body_evict frames_count (1 + Z.of_nat (length pre)) x fr
                (victim :: rest) st f victim rest)
      as (v & Hv & _ & Hbody); [done|lia|done|done|].
    destruct (oldest_first_front st victim rest fr Hperm Hold)
      as (tv & Htv & Hfront).
    rewrite Hbody. eexists _, _, _, _. split; [done|].
    intros p q tp tq. apply Hnew.
    + intros p' Hp'.
      apply (elem_of_insert_slot fr v victim x p' Hnd Hv) in Hp'
        as [?|[? _]]; [by left|by right].
    + apply (elem_of_insert_slot fr v victim x x); auto.
    + intros q' tq' Hq' Hq'' Htq' p' tp' Hp' Hpx Htp'.
      assert (q' = victim) as ->.
      { destruct (decide (q' = victim)) as [|Hne]; [done|]. destruct Hq''.
        apply (elem_of_insert_slot fr v victim x q'); auto. }
      apply (elem_of_insert_slot fr v victim x p') in Hp' as [?|[Hp' Hne]];
        [done| |done|done].
      destruct (Hfront p' Hp' Hne) as (t & Ht & Hlt).
      congruence.
Qed.

Lemma fifo_keeps_most_recent_witness :
  1 ≤ 2 ∧
  ∃ fr ord st f,
    fifo_loop 2 [1; 2; 1; 3; 1] = Ok (fr, ord, st, f) ∧
    ∀ p q tp tq,
      p ∈ fr → q ∉ fr → arrival st p = Some tp → arrival st q = Some tq →
      tq < tp.
Proof.
  split; [lia|]. apply (fifo_keeps_most_recent [1; 2; 1; 3; 1] 2). lia.
Defined.

(** ** Optimal against any other run of the contract *)

Lemma filter_iff_on (P1 P2 : Z → Prop)
    `{!∀ p, Decision (P1 p), !∀ p, Decision (P2 p)} (l : list Z) :
  (∀ p, p ∈ l → P1 p ↔ P2 p) → filter P1 l = filter P2 l.
Proof.
  induction l as [|a l IH]; intros Hiff; [done|].
  assert (Hl : filter P1 l = filter P2 l)
    by (apply IH; intros p Hp; apply Hiff; by right).
  destruct (decide (P1 a)) as [Ha|Ha].
  - rewrite !filter_cons_True; [by rewrite Hl| |done].
    apply Hiff; [left|done].
  - rewrite !filter_cons_False; [done| |done].
    intros Ha2. apply Ha, Hiff; [left|done].
Qed.

Lemma filter_all (P : Z → Prop) `{!∀ p, Decision (P p)} (l : list Z) :
  (∀ p, p ∈ l → P p) → filter P l = l.
Proof.
  induction l as [|a l IH]; intros Hall; [done|].
  rewrite filter_cons_True by (apply Hall; left).
  f_equal. apply IH. intros p Hp. apply Hall. by right.
Qed.

(** a count of pages, with the page [x] counted apart *)
Lemma filter_split_page (P : Z → Prop) `{!∀ p, Decision (P p)}
    (x : Z) (fr : list Z) :
  NoDup fr →
  length (filter P fr) =
  ((if decide (x ∈ fr ∧ P x) then 1 else 0) +
   length (filter (λ p, p ≠ x ∧ P p) fr))%nat.
Proof.
  induction fr as [|p fr IH]; intros Hnd.
  - destruct (decide (x ∈ [] ∧ P x)) as [[Hx _]|_]; [|done].
    by apply elem_of_nil in Hx.
  - apply NoDup_cons in Hnd as [Hp Hnd]. specialize (IH Hnd).
    destruct (decide (p = x)) as [->|Hne].
    + rewrite (filter_cons_False (λ p, p ≠ x ∧ P p)) by (intros [? _]; done).
      assert (Hrest : filter P fr = filter (λ p, p ≠ x ∧ P p) fr).
      { apply filter_iff_on. intros q Hq. split; [|by intros [_ ?]].
        intros HP. split; [|done]. by intros ->. }
      rewrite <- Hrest.
      destruct (decide (x ∈ x :: fr ∧ P x)) as [[_ HP]|HP].
      * by rewrite filter_cons_True by done.
      * rewrite filter_cons_False; [done|]. intros HP'. apply HP.
        split; [left|done].
    + destruct (decide (x ∈ p :: fr ∧ P x)) as [[Hin HP]|Hout],
               (decide (x ∈ fr ∧ P x)) as [[Hin' HP']|Hout'].
      * destruct (decide (P p)).
        -- rewrite !filter_cons_True by done. simpl. lia.
        -- rewrite !filter_cons_False by (try intros [_ ?]; done). lia.
      * destruct Hout'. apply elem_of_cons in Hin as [?|?]; done.
      * destruct Hout. split; [by right|done].
      * destruct (decide (P p)).
        -- rewrite !filter_cons_True by done. simpl. lia.
        -- rewrite !filter_cons_False by (try intros [_ ?]; done). lia.
Qed.

Lemma filter_insert_slot (Q : Z → Prop) `{!∀ p, Decision (Q p)}
    (fr : list Z) (v : nat) (u x : Z) :
  fr !! v = Some u → ¬ Q x →
  length (filter Q fr) =
  ((if decide (Q u) then 1 else 0) + length (filter Q (<[v := x]> fr)))%nat.
Proof.
  intros Hv Hx.
  assert (Hlt : (v < length fr)%nat) by (by eapply lookup_lt_Some).
  rewrite insert_take_drop by done.
  rewrite <- (take_drop_middle fr v u Hv) at 1.
  rewrite !filter_app, !length_app.
  rewrite (filter_cons_False Q x) by done.
  destruct (decide (Q u)).
  - rewrite filter_cons_True by done. simpl. lia.
  - rewrite filter_cons_False by done. simpl. lia.
Qed.

Section belady.

Variables (reference : list Z) (n : nat) (x : Z).
Hypothesis Hx : reference !! n = Some x.

Lemma soon_S m : soon reference n (S m) = x :: soon reference (S n) m.
Proof.
  unfold soon. rewrite (drop_S reference x n Hx). done.
Qed.

Lemma elem_of_soon m p :
  p ∈ soon reference (S n) m ↔
  ∃ j, (n < j)%nat ∧ (j < S n + m)%nat ∧ reference !! j = Some p.
Proof.
  unfold soon. rewrite list_elem_of_lookup. split.
  - intros [i Hi]. apply lookup_take_Some in Hi as [Hi Him].
    rewrite lookup_drop in Hi. exists (S n + i)%nat.
    split_and!; [lia|lia|done].
  - intros (j & Hnj & Hjm & Hj). exists (j - S n)%nat.
    apply lookup_take_Some. split; [|lia]. rewrite lookup_drop.
    by replace (S n + (j - S n))%nat with j by lia.
Qed.

(** the pages of a frame list needed within the next [S m] references,
    the page referenced now counted apart *)
Lemma soon_count_now m fr :
  NoDup fr →
  soon_count reference n (S m) fr =
  ((if decide (x ∈ fr) then 1 else 0) +
   length (filter (λ p, p ≠ x ∧ p ∈ soon reference (S n) m) fr))%nat.
Proof.
  intros Hnd. unfold soon_count. rewrite soon_S.
  rewrite (filter_split_page _ x fr Hnd).
  f_equal.
  - destruct (decide (x ∈ fr)) as [Hin|Hnin].
    + rewrite decide_True; [done|]. split; [done|left].
    + rewrite decide_False; [done|]. by intros [? _].
  - f_equal. apply list_filter_iff. intros p. rewrite elem_of_cons.
    split; [intros [? [?|?]]; done|]. intros [? ?]. auto.
Qed.

Lemma soon_count_next m fr :
  NoDup fr → x ∈ fr →
  soon_count reference (S n) m fr =
  ((if decide (x ∈ soon reference (S n) m) then 1 else 0) +
   length (filter (λ p, p ≠ x ∧ p ∈ soon reference (S n) m) fr))%nat.
Proof.
  intros Hnd Hin. unfold soon_count.
  rewrite (filter_split_page _ x fr Hnd). f_equal.
  destruct (decide (x ∈ soon reference (S n) m)) as [Hs|Hs].
  - by rewrite decide_True.
  - rewrite decide_False; [done|]. by intros [_ ?].
Qed.

(** the pages other than [x] needed soon, after one access *)
Lemma access_rest_count c m fr fr' h :
  access c x fr fr' h →
  (length (filter (λ p, p ≠ x ∧ p ∈ soon reference (S n) m) fr') ≤
   length (filter (λ p, p ≠ x ∧ p ∈ soon reference (S n) m) fr))%nat.
Proof.
  intros [Hin|Hnin Hfree|v Hnin Hfull Hv]; [done| |].
  - rewrite filter_app, length_app.
    rewrite filter_cons_False by (intros [? _]; done). simpl. lia.
  - destruct (fr !! v) as [u|] eqn:Hu.
    2:{ apply lookup_ge_None in Hu. lia. }
    rewrite (filter_insert_slot _ fr v u x Hu) by (intros [? _]; done). lia.
Qed.

(** when Optimal evicts a page that is needed within the horizon, all
    its pages are needed within the horizon *)
Lemma optimal_evicts_needed c m fr fr' h :
  optimal_access c reference n x fr fr' h →
  (length (filter (λ p, p ≠ x ∧ p ∈ soon reference (S n) m) fr') =
   length (filter (λ p, p ≠ x ∧ p ∈ soon reference (S n) m) fr)) ∨
  ((x ∉ fr) ∧ (c ≤ Z.of_nat (length fr)) ∧
   length (filter (λ p, p ≠ x ∧ p ∈ soon reference (S n) m) fr)
   = length fr ∧
   S (length (filter (λ p, p ≠ x ∧ p ∈ soon reference (S n) m) fr'))
   = length fr).
Proof.
  intros [Hin|Hnin Hfree|v u Hnin Hfull Hv Hvic].
  - by left.
  - left. rewrite filter_app, length_app.
    rewrite filter_cons_False by (intros [? _]; done). simpl. lia.
  - assert (Hcount := filter_insert_slot
      (λ p, p ≠ x ∧ p ∈ soon reference (S n) m) fr v u x Hv
      (λ H, proj1 H eq_refl)).
    destruct (decide (u ≠ x ∧ u ∈ soon reference (S n) m)) as [[Hux Hu]|Hu].
    2:{ left. rewrite decide_False in Hcount by done. by rewrite Hcount. }
    rewrite decide_True in Hcount by done.
    right. apply elem_of_soon in Hu as (j & Hnj & Hjm & Hj).
    destruct Hvic as [Hdead|(Hlive & ju & Hju & Hmax)].
    { by destruct (Hdead j). }
    assert (Hjle : (ju ≤ j)%nat).
    { destruct Hju as (_ & _ & Hmin).
      destruct (decide (ju ≤ j)%nat) as [|Hgt]; [done|].
      destruct (Hmin j); [lia|done]. }
    assert (Hall : filter (λ p, p ≠ x ∧ p ∈ soon reference (S n) m) fr = fr).
    { apply filter_all. intros p Hp. split; [by intros ->|].
      destruct (never_again_dec reference n p) as [Hnev|[jp Hjp]].
      { by destruct (Hlive p Hp). }
      pose proof (Hmax p jp Hp Hjp). apply elem_of_soon. exists jp.
      destruct Hjp as (? & ? & _). split_and!; [lia|lia|done]. }
    rewrite Hall in Hcount. rewrite Hall.
    split_and!; [done|done|done|lia].
Qed.

Lemma soon_count_none fr :
  length (filter (λ p, p ≠ x ∧ p ∈ soon reference (S n) 0) fr) = 0%nat.
Proof.
  induction fr as [|p fr IH]; [done|].
  rewrite filter_cons_False; [done|]. intros [_ Hp].
  unfold soon in Hp. rewrite take_0 in Hp. by apply elem_of_nil in Hp.
Qed.

Lemma optimal_access_access c fr fr' h :
  optimal_access c reference n x fr fr' h → access c x fr fr' h.
Proof.
  intros [Hin|Hnin Hfree|v u Hnin Hfull Hv Hvic].
  - by constructor.
  - by constructor.
  - constructor; [done|done|by eapply lookup_lt_Some].
Qed.

Lemma access_flag c fr fr' h :
  access c x fr fr' h → (h = true ∧ x ∈ fr) ∨ (h = false ∧ x ∉ fr).
Proof. intros [?|? ?|v ? ? ?]; auto. Qed.

(** one reference keeps the frames of Optimal ahead of the frames of
    any run of the contract *)
Lemma dominated_step c frA frO frA' frO' (hA hO : bool) k :
  1 ≤ c → NoDup frA → NoDup frO → Z.of_nat (length frA) ≤ c →
  dominated reference n frA frO k →
  access c x frA frA' hA → optimal_access c reference n x frO frO' hO →
  dominated reference (S n) frA' frO'
    (k + (if hA then 0 else 1) - (if hO then 0 else 1)).
Proof.
  intros Hc HndA HndO HlenA [Hk Hdom] HaccA HaccO.
  pose proof (optimal_access_access _ _ _ _ HaccO) as HaccO'.
  pose proof (access_nodup _ _ _ _ _ HndA HaccA) as HndA'.
  pose proof (access_nodup _ _ _ _ _ HndO HaccO') as HndO'.
  pose proof (access_resident _ _ _ _ _ HndA HaccA) as HxA.
  pose proof (access_resident _ _ _ _ _ HndO HaccO') as HxO.
  pose proof (access_length _ _ _ _ _ Hc HlenA HaccA) as HlenA'.
  pose proof (access_flag _ _ _ _ HaccA) as HflagA.
  pose proof (access_flag _ _ _ _ HaccO') as HflagO.
  assert (Hk' : 0 ≤ k + (if hA then 0 else 1) - (if hO then 0 else 1)).
  { specialize (Hdom 1%nat).
    rewrite !soon_count_now, !soon_count_none in Hdom by done.
    repeat case_decide;
      destruct HflagA as [[-> ?]|[-> ?]], HflagO as [[-> ?]|[-> ?]];
      try done; lia. }
  split; [done|].
  - intros m. specialize (Hdom (S m)).
    rewrite !soon_count_now in Hdom by done.
    rewrite !soon_count_next by done.
    pose proof (access_rest_count c m _ _ _ HaccA) as HrestA.
    pose proof (optimal_evicts_needed c m _ _ _ HaccO) as HrestO.
    pose proof (length_filter_lt
      (λ p, p ≠ x ∧ p ∈ soon reference (S n) m) frA' x HxA
      (λ H, proj1 H eq_refl)) as HltA.
    repeat case_decide;
      destruct HflagA as [[-> ?]|[-> ?]], HflagO as [[-> ?]|[-> ?]];
      try done;
      destruct HrestO as [HrestO|(? & ? & HrestO & HrestO')]; try done; lia.
Qed.

End belady.

Lemma optimal_dominates reference c pre frA stA fA :
  1 ≤ c → runs c pre frA stA fA →
  ∀ post, reference = pre ++ post →
  ∃ frO stO fO,
    optimal_loop reference c pre = Ok (frO, stO, fO) ∧
    dominated reference (length pre) frA frO (fA - fO).
Proof.
  intros Hc Hruns.
  induction Hruns as [|pre frA stA fA x frA' hA Hruns IH HaccA].
  - intros post _. exists [], [], 0. split; [done|]. split; [done|].
    intros m. unfold soon_count. simpl. lia.
  - intros post Href. rewrite <- app_assoc in Href. simpl in Href.
    destruct (IH (x :: post) Href) as (frO & stO & fO & HrunO & Hdom).
    destruct (optimal_loop_step reference c pre x frO stO fO Hc HrunO)
      as (HndO & _ & frO' & stO' & hO & HrunO' & HaccO).
    pose proof (runs_trace c pre frA stA fA Hc Hruns) as Hti.
    assert (Hx : reference !! length pre = Some x)
      by (rewrite Href; by rewrite list_lookup_middle).
    pose proof (dominated_step reference (length pre) x Hx c
      frA frO frA' frO' hA hO (fA - fO) Hc (ti_nodup _ _ _ _ _ Hti) HndO
      (ti_bound _ _ _ _ _ Hti) Hdom HaccA HaccO) as Hdom'.
    eexists frO', stO', _. split; [exact HrunO'|].
    rewrite length_app. simpl.
    replace (length pre + 1)%nat with (S (length pre)) by lia.
    replace ((if hA then fA else fA + 1) - (if hO then fO else fO + 1))
      with (fA - fO + (if hA then 0 else 1) - (if hO then 0 else 1))
      by (destruct hA, hO; lia).
    exact Hdom'.
Qed.

(** X9. With a capacity of at least one, [simulate_optimal] never
    counts more faults than [simulate_fifo] or [simulate_lru] on the
    same reference sequence and capacity. *)
Theorem optimal_is_optimal (reference : list Z) (frames_count : Z) :
  1 ≤ frames_count →
  ∃ rf rl ro,
    simulate_fifo reference frames_count = Ok rf ∧
    simulate_lru reference frames_count = Ok rl ∧
    simulate_optimal reference frames_count = Ok ro ∧
    total_faults ro ≤ total_faults rf ∧
    total_faults ro ≤ total_faults rl.
Proof.
  intros Hc.
  destruct (fifo_loop_runs frames_count reference Hc)
    as (fr_f & ord & st_f & f_f & Hf & Rf).
  destruct (lru_loop_runs frames_count reference Hc)
    as (fr_l & lu & st_l & f_l & Hl & Rl).
  destruct (optimal_dominates reference frames_count reference
              fr_f st_f f_f Hc Rf [])
    as (fr_o & st_o & f_o & Ho & [Hkf _]); [by rewrite app_nil_r|].
  destruct (optimal_dominates reference frames_count reference
              fr_l st_l f_l Hc Rl [])
    as (fr_o' & st_o' & f_o' & Ho' & [Hkl _]); [by rewrite app_nil_r|].
  rewrite Ho in Ho'. injection Ho' as <- <- <-.
  exists (mkAlgorithmResult "FIFO" st_f f_f),
    (mkAlgorithmResult "LRU" st_l f_l),
    (mkAlgorithmResult "Optimal" st_o f_o).
  unfold simulate_fifo, simulate_lru, simulate_optimal.
  rewrite Hf, Hl, Ho. simpl. split_and!; [done|done|done|lia|lia].
Qed.

Lemma optimal_is_optimal_witness :
  1 ≤ 3 ∧
  ∃ rf rl ro,
    simulate_fifo [7; 0; 1; 2; 0; 3; 0; 4; 2; 3; 0; 3; 2] 3 = Ok rf ∧
    simulate_lru [7; 0; 1; 2; 0; 3; 0; 4; 2; 3; 0; 3; 2] 3 = Ok rl ∧
    simulate_optimal [7; 0; 1; 2; 0; 3; 0; 4; 2; 3; 0; 3; 2] 3 = Ok ro ∧
    total_faults ro ≤ total_faults rf ∧
    total_faults ro ≤ total_faults rl.
Proof.
  split; [lia|].
  apply (optimal_is_optimal [7; 0; 1; 2; 0; 3; 0; 4; 2; 3; 0; 3; 2] 3). lia.
Defined.

(** * The step table of a result *)

Example step_table_sample :
  (λ r, print_step_table r) <$> simulate_fifo [7; 0; 7; 12] 2 =
  Ok [ newline +:+ "===== FIFO Algorithm Step-by-Step =====";
       "Step | Page | F1  | Result";
       "--------------------";
       "   1 |    7 |  7  | Fault";
       "   2 |    0 |  7  | Fault";
       "   3 |    7 |  7  | Hit";
       "   4 |   12 | 12  | Fault" ].
Proof. vm_compute. reflexivity. Qed.

Lemma distinct_pos (l : list Z) : l ≠ [] → (1 ≤ distinct l)%nat.
Proof.
  destruct l as [|x l]; [done|]. intros _.
  pose proof (distinct_incl [x] (x :: l)) as Hle. simpl in Hle.
  apply Hle; [apply NoDup_singleton|].
  intros p ->%list_elem_of_singleton. left.
Qed.

Lemma distinct_singleton (x : Z) : distinct [x] = 1%nat.
Proof.
  symmetry. apply (distinct_same [x] [x]); [apply NoDup_singleton|done].
Qed.

Lemma step_row_one (s : StepResult) (q : Z) :
  frames s !! 0%nat = Some q → step_row 1 s = one_slot_row s q.
Proof.
  intros Hq. unfold step_row, one_slot_row, frame_cell. simpl.
  by rewrite Hq.
Qed.

(** X10. For a non-empty reference sequence and a capacity of at least
    one, the table that [print_step_table] prints for the result of
    each of the three functions has the single frame column [F1],
    whatever the capacity: the column count is read off the first step,
    whose snapshot holds one page.  After the banner, the header and a
    rule of 20 dashes comes one line per step, which shows the step
    number, the page, the occupant of slot 0 only, and [Hit] or
    [Fault]. *)
Theorem step_table_one_column (reference : list Z) (frames_count : Z) :
  1 ≤ frames_count → reference ≠ [] →
  ∃ rf rl ro,
    simulate_fifo reference frames_count = Ok rf ∧
    simulate_lru reference frames_count = Ok rl ∧
    simulate_optimal reference frames_count = Ok ro ∧
    ∀ r, r ∈ [rf; rl; ro] →
      ∃ rows,
        print_step_table r =
          (newline +:+ "===== " +:+ name r +:+
           " Algorithm Step-by-Step =====") ::
          "Step | Page | F1  | Result" ::
          "--------------------" :: rows ∧
        length rows = length reference ∧
        ∀ k s, steps r !! k = Some s →
          ∃ q, frames s !! 0%nat = Some q ∧
               rows !! k = Some (one_slot_row s q).
Proof.
  intros Hc Hne.
  destruct (simulate_runs reference frames_count Hc)
    as (rf & rl & ro & Hf & Hl & Ho & Hall).
  exists rf, rl, ro. split_and!; [done|done|done|].
  intros r Hr. destruct (Hall r Hr) as [fr Hruns].
  pose proof (runs_trace _ _ _ _ _ Hc Hruns) as Hti.
  pose proof (runs_snapshot_occupancy _ _ _ _ _ Hc Hruns) as Hocc.
  assert (Hlen : length (steps r) = length reference).
  { transitivity (length (page <$> steps r)); [by rewrite length_fmap|].
    by rewrite (ti_pages _ _ _ _ _ Hti). }
  assert (Hslot : ∀ k s, steps r !! k = Some s →
                         ∃ q, frames s !! 0%nat = Some q).
  { intros k s Hk. specialize (Hocc k s Hk).
    assert (Hk' : (k < length reference)%nat)
      by (rewrite <- Hlen; by eapply lookup_lt_Some).
    assert (Hpos : (1 ≤ distinct (take (S k) reference))%nat).
    { apply distinct_pos. destruct reference; done. }
    destruct (frames s) as [|q fs]; simpl in Hocc; [lia|]. by exists q. }
  destruct (steps r) as [|first rest] eqn:Hsteps.
  { destruct reference; done. }
  assert (Hfirst : length (frames first) = 1%nat).
  { specialize (Hocc 0%nat first eq_refl).
    destruct reference as [|x l]; [done|]. simpl in Hocc.
    rewrite take_0, distinct_singleton in Hocc. lia. }
  exists (step_row 1 <$> first :: rest).
  unfold print_step_table. rewrite Hsteps, Hfirst. split_and!.
  - done.
  - by rewrite length_fmap.
  - intros k s Hk. destruct (Hslot k s Hk) as [q Hq]. exists q.
    split; [done|]. rewrite list_lookup_fmap, Hk. simpl.
    by rewrite (step_row_one s q Hq).
Qed.

Lemma step_table_one_column_witness :
  1 ≤ 3 ∧ [7; 0; 1; 2] ≠ [] ∧
  ∃ rf rl ro,
    simulate_fifo [7; 0; 1; 2] 3 = Ok rf ∧
    simulate_lru [7; 0; 1; 2] 3 = Ok rl ∧
    simulate_optimal [7; 0; 1; 2] 3 = Ok ro ∧
    ∀ r, r ∈ [rf; rl; ro] →
      ∃ rows,
        print_step_table r =
          (newline +:+ "===== " +:+ name r +:+
           " Algorithm Step-by-Step =====") ::
          "Step | Page | F1  | Result" ::
          "--------------------" :: rows ∧
        length rows = length [7; 0; 1; 2] ∧
        ∀ k s, steps r !! k = Some s →
          ∃ q, frames s !! 0%nat = Some q ∧
               rows !! k = Some (one_slot_row s q).
Proof.
  split; [lia|]. split; [done|].
  apply (step_table_one_column [7; 0; 1; 2] 3); [lia|done].
Defined.

(** * Reading the capacity and the reference string *)

Section console_facts.

Variable py_strip : string → string.
Variable py_int : string → option Z.
Variable py_split : string → list string.

Lemma frames_loop_outcome (lines out : list string) :
  (∃ bad good rest n,
     lines = bad ++ good :: rest ∧
     Forall (frames_refused py_strip py_int) bad ∧
     py_int (py_strip good) = Some n ∧ 1 ≤ n ∧
     frames_loop py_strip py_int lines out =
     Returned n (mkConsole rest
       (out ++ (bad ≫= λ _, [frames_prompt; frames_invalid +:+ newline])
            ++ [frames_prompt])))
  ∨
  (Forall (frames_refused py_strip py_int) lines ∧
   frames_loop py_strip py_int lines out =
   EOFError (mkConsole []
     (out ++ (lines ≫= λ _, [frames_prompt; frames_invalid +:+ newline])
          ++ [frames_prompt]))).
Proof.
  revert out. induction lines as [|line lines IH]; intros out.
  - right. split; [constructor|done].
  - assert (Hrec : frames_refused py_strip py_int line →
      frames_loop py_strip py_int (line :: lines) out =
      frames_loop py_strip py_int lines
        ((out ++ [frames_prompt]) ++ [frames_invalid +:+ newline])).
    { unfold frames_refused. simpl.
      destruct (py_int (py_strip line)) as [n|]; [|done].
      intros Hn. by destruct (Z.leb_spec n 0); [|lia]. }
    destruct (py_int (py_strip line)) as [n|] eqn:Hint.
    + destruct (decide (n ≤ 0)) as [Hn|Hn].
      * assert (Href : frames_refused py_strip py_int line)
          by (unfold frames_refused; by rewrite Hint).
        rewrite (Hrec Href).
        destruct (IH ((out ++ [frames_prompt]) ++
                      [frames_invalid +:+ newline]))
          as [(bad & good & rest & m & -> & Hbad & Hgood & Hm & ->)
             |[Hall ->]].
        -- left. exists (line :: bad), good, rest, m.
           split_and!; [done|by constructor|done|done|].
           rewrite bind_cons. by rewrite <- !app_assoc.
        -- right. split; [by constructor|].
           rewrite bind_cons. by rewrite <- !app_assoc.
      * left. exists [], line, lines, n.
        split_and!; [done|constructor|done|lia|]. simpl. rewrite Hint.
        by destruct (Z.leb_spec n 0); [lia|].
    + assert (Href : frames_refused py_strip py_int line)
        by (unfold frames_refused; by rewrite Hint).
      rewrite (Hrec Href).
      destruct (IH ((out ++ [frames_prompt]) ++
                    [frames_invalid +:+ newline]))
        as [(bad & good & rest & m & -> & Hbad & Hgood & Hm & ->)
           |[Hall ->]].
      * left. exists (line :: bad), good, rest, m.
        split_and!; [done|by constructor|done|done|].
        rewrite bind_cons. by rewrite <- !app_assoc.
      * right. split; [by constructor|].
        rewrite bind_cons. by rewrite <- !app_assoc.
Qed.

Lemma reference_loop_outcome (lines out : list string) :
  (∃ bad good rest ref,
     lines = bad ++ good :: rest ∧
     Forall (reference_refused py_strip py_int py_split) bad ∧
     mapM py_int (py_split (py_strip good)) = Some ref ∧ ref ≠ [] ∧
     reference_loop py_strip py_int py_split lines out =
     Returned ref (mkConsole rest
       (out ++ (bad ≫= λ _, [reference_prompt;
                             reference_invalid +:+ newline])
            ++ [reference_prompt])))
  ∨
  (Forall (reference_refused py_strip py_int py_split) lines ∧
   reference_loop py_strip py_int py_split lines out =
   EOFError (mkConsole []
     (out ++ (lines ≫= λ _, [reference_prompt;
                             reference_invalid +:+ newline])
          ++ [reference_prompt]))).
Proof.
  revert out. induction lines as [|line lines IH]; intros out.
  - right. split; [constructor|done].
  - destruct (mapM py_int (py_split (py_strip line))) as [[|x ref]|] eqn:Hm.
    2:{ left. exists [], line, lines, (x :: ref).
        split_and!; [done|constructor|done|done|]. simpl. by rewrite Hm. }
    all: assert (Href : reference_refused py_strip py_int py_split line)
           by (unfold reference_refused; by rewrite Hm).
    all: assert (Hrec :
           reference_loop py_strip py_int py_split (line :: lines) out =
           reference_loop py_strip py_int py_split lines
             ((out ++ [reference_prompt]) ++
              [reference_invalid +:+ newline]))
           by (simpl; by rewrite Hm).
    all: rewrite Hrec.
    all: destruct (IH ((out ++ [reference_prompt]) ++
                       [reference_invalid +:+ newline]))
           as [(bad & good & rest & r & -> & Hbad & Hgood & Hr & ->)
              |[Hall ->]].
    all: first
      [ left; exists (line :: bad), good, rest, r;
        split_and!; [done|by constructor|done|done|];
        rewrite bind_cons; by rewrite <- !app_assoc
      | right; split; [by constructor|];
        rewrite bind_cons; by rewrite <- !app_assoc ].
Qed.

End console_facts.

Lemma reference_menu_shown (w : console) :
  py_input "Enter choice (1/2): "
    (py_print "2. Use sample reference string (7 0 1 2 0 3 0 4 2 3 0 3 2)"
       (py_print "1. Enter manually"
          (py_print (newline +:+ "Choose reference string input mode:") w)))
  = match pending w with
    | [] => EOFError (mkConsole [] (reference_menu (written w)))
    | line :: rest =>
        Returned line (mkConsole rest (reference_menu (written w)))
    end.
Proof.
  unfold py_input, py_print, reference_menu. simpl.
  rewrite <- !app_assoc. by destruct (pending w).
Qed.

(** X11. [get_frames_from_user] returns the number on the first pending
    line that [int] accepts, after [strip], as a positive integer: the
    value it returns is at least one, every line before it was answered
    with the prompt and the error message, and the lines after it are
    left unread.  When no pending line qualifies it raises [EOFError]
    with all the lines consumed. *)
Theorem get_frames_outcome (py_strip : string → string)
    (py_int : string → option Z) (w : console) :
  (∃ bad good rest n,
     pending w = bad ++ good :: rest ∧
     Forall (frames_refused py_strip py_int) bad ∧
     py_int (py_strip good) = Some n ∧ 1 ≤ n ∧
     get_frames_from_user py_strip py_int w =
     Returned n (mkConsole rest
       (written w
          ++ (bad ≫= λ _, [frames_prompt; frames_invalid +:+ newline])
          ++ [frames_prompt])))
  ∨
  (Forall (frames_refused py_strip py_int) (pending w) ∧
   get_frames_from_user py_strip py_int w =
   EOFError (mkConsole []
     (written w
        ++ (pending w ≫= λ _, [frames_prompt; frames_invalid +:+ newline])
        ++ [frames_prompt]))).
Proof. apply frames_loop_outcome. Qed.

(** X12. [get_reference_string_from_user] writes its three menu lines
    and reads a choice.  With no line to read it raises [EOFError]; a
    choice that is [2] after [strip] returns the sample sequence with
    only that line consumed; any other choice enters manual mode, which
    returns the integers of the first following line whose tokens [int]
    accepts one and all and which has at least one token, every line
    before it being answered with the error message, or raises
    [EOFError] when no line qualifies. *)
Theorem get_reference_outcome (py_strip : string → string)
    (py_int : string → option Z) (py_split : string → list string)
    (w : console) :
  (pending w = [] ∧
   get_reference_string_from_user py_strip py_int py_split w =
   EOFError (mkConsole [] (reference_menu (written w))))
  ∨
  (∃ choice rest,
     pending w = choice :: rest ∧ py_strip choice = "2" ∧
     get_reference_string_from_user py_strip py_int py_split w =
     Returned sample_reference (mkConsole rest (reference_menu (written w))))
  ∨
  (∃ choice bad good rest ref,
     pending w = choice :: bad ++ good :: rest ∧ py_strip choice ≠ "2" ∧
     Forall (reference_refused py_strip py_int py_split) bad ∧
     mapM py_int (py_split (py_strip good)) = Some ref ∧ ref ≠ [] ∧
     get_reference_string_from_user py_strip py_int py_split w =
     Returned ref (mkConsole rest
       (reference_menu (written w)
          ++ (bad ≫= λ _, [reference_prompt;
                           reference_invalid +:+ newline])
          ++ [reference_prompt])))
  ∨
  (∃ choice lines,
     pending w = choice :: lines ∧ py_strip choice ≠ "2" ∧
     Forall (reference_refused py_strip py_int py_split) lines ∧
     get_reference_string_from_user py_strip py_int py_split w =
     EOFError (mkConsole []
       (reference_menu (written w)
          ++ (lines ≫= λ _, [reference_prompt;
                             reference_invalid +:+ newline])
          ++ [reference_prompt]))).
Proof.
  unfold get_reference_string_from_user. rewrite reference_menu_shown.
  destruct (pending w) as [|choice lines] eqn:Hp.
  - left. done.
  - right. simpl. destruct (decide (py_strip choice = "2")) as [Hc|Hc].
    + left. by exists choice, lines.
    + right.
      destruct (reference_loop_outcome py_strip py_int py_split lines
                  (reference_menu (written w)))
        as [(bad & good & rest & ref & -> & Hbad & Hgood & Hne & ->)
           |[Hall ->]].
      * left. by exists choice, bad, good, rest, ref.
      * right. by exists choice, lines.
Qed.

Lemma get_frames_positive (py_strip : string → string)
    (py_int : string → option Z) (w w' : console) (n : Z) :
  get_frames_from_user py_strip py_int w = Returned n w' → 1 ≤ n.
Proof.
  unfold get_frames_from_user. intros Hget.
  destruct (frames_loop_outcome py_strip py_int (pending w) (written w))
    as [(bad & good & rest & m & _ & _ & _ & Hm & Hrun)|[_ Hrun]];
    rewrite Hrun in Hget; [|done].
  by injection Hget as <- _.
Qed.

Lemma get_reference_nonempty (py_strip : string → string)
    (py_int : string → option Z) (py_split : string → list string)
    (w w' : console) (reference : list Z) :
  get_reference_string_from_user py_strip py_int py_split w =
    Returned reference w' →
  reference ≠ [].
Proof.
  unfold get_reference_string_from_user. rewrite reference_menu_shown.
  destruct (pending w) as [|choice lines]; [done|]. simpl.
  destruct (decide (py_strip choice = "2")) as [Hc|Hc].
  - by intros [= <- _].
  - intros Hget.
    destruct (reference_loop_outcome py_strip py_int py_split lines
                (reference_menu (written w)))
      as [(bad & good & rest & ref & _ & _ & _ & Hne & Hrun)|[_ Hrun]];
      rewrite Hrun in Hget; [|done].
    by injection Hget as <- _.
Qed.

(** X13. Whatever is typed, a capacity that [get_frames_from_user]
    returns and a reference sequence that
    [get_reference_string_from_user] then returns are accepted by the
    three algorithms: each returns a result and raises nothing, with
    one step per reference and at least one step. *)
Theorem console_inputs_accepted (py_strip : string → string)
    (py_int : string → option Z) (py_split : string → list string)
    (w w1 w2 : console) (frames_count : Z) (reference : list Z) :
  get_frames_from_user py_strip py_int w = Returned frames_count w1 →
  get_reference_string_from_user py_strip py_int py_split w1 =
    Returned reference w2 →
  ∃ rf rl ro,
    simulate_fifo reference frames_count = Ok rf ∧
    simulate_lru reference frames_count = Ok rl ∧
    simulate_optimal reference frames_count = Ok ro ∧
    ∀ r, r ∈ [rf; rl; ro] →
      total_accesses r = Z.of_nat (length reference) ∧ 1 ≤ total_accesses r.
Proof.
  intros Hc%get_frames_positive Hne%get_reference_nonempty.
  destruct (simulate_runs reference frames_count Hc)
    as (rf & rl & ro & Hf & Hl & Ho & Hall).
  exists rf, rl, ro. split_and!; [done|done|done|].
  intros r Hr. destruct (Hall r Hr) as [fr Hruns].
  destruct (runs_accounting frames_count reference fr r Hc Hruns)
    as (Hacc & _).
  split; [done|]. rewrite Hacc. destruct reference; [done|]. simpl. lia.
Qed.

Lemma console_inputs_accepted_witness :
  get_frames_from_user (λ s, s)
    (λ s, if decide (s = "3") then Some 3 else None)
    (mkConsole ["three"; "3"; "2"] []) =
  Returned 3
    (mkConsole ["2"]
       [frames_prompt; frames_invalid +:+ newline; frames_prompt]) ∧
  get_reference_string_from_user (λ s, s)
    (λ s, if decide (s = "3") then Some 3 else None) (λ s, [s])
    (mkConsole ["2"]
       [frames_prompt; frames_invalid +:+ newline; frames_prompt]) =
  Returned sample_reference
    (mkConsole []
       (reference_menu
          [frames_prompt; frames_invalid +:+ newline; frames_prompt])) ∧
  ∃ rf rl ro,
    simulate_fifo sample_reference 3 = Ok rf ∧
    simulate_lru sample_reference 3 = Ok rl ∧
    simulate_optimal sample_reference 3 = Ok ro ∧
    ∀ r, r ∈ [rf; rl; ro] →
      total_accesses r = Z.of_nat (length sample_reference) ∧
      1 ≤ total_accesses r.
Proof.
  split; [reflexivity|]. split; [reflexivity|].
  apply (console_inputs_accepted (λ s, s)
           (λ s, if decide (s = "3") then Some 3 else None) (λ s, [s])
           (mkConsole ["three"; "3"; "2"] [])
           (mkConsole ["2"]
              [frames_prompt; frames_invalid +:+ newline; frames_prompt])
           (mkConsole []
              (reference_menu
                 [frames_prompt; frames_invalid +:+ newline; frames_prompt]))
           3 sample_reference); reflexivity.
Defined.

(** * One frame, and more frames *)

Lemma runs_single_frame pre fr st f :
  runs 1 pre fr st f → single_frame_inv pre fr st.
Proof.
  intros Hruns. remember 1 as c eqn:Hc.
  induction Hruns as [|pre fr st f x fr' h Hruns IH Hacc].
  - split; [done|]. intros k s Hk. done.
  - apply (single_frame_step c pre fr st f x fr' h Hc); [|by apply IH|done].
    apply runs_trace; [lia|done].
Qed.

Lemma runs_resident c pre fr st f :
  1 ≤ c → runs c pre fr st f →
  ∀ k s, st !! k = Some s → page s ∈ frames s.
Proof.
  intros Hc Hruns k s Hk.
  pose proof (runs_trace _ _ _ _ _ Hc Hruns) as Hti.
  destruct (runs_linked _ _ _ _ _ Hruns) as [_ Hlink].
  pose proof (Hlink k s Hk) as Hacc.
  apply (access_resident _ _ _ _ _) in Hacc; [done|].
  destruct k as [|k]; simpl; [constructor|].
  destruct (st !! k) as [s0|] eqn:Hs0; simpl; [|constructor].
  pose proof (ti_snap _ _ _ _ _ Hti) as Hsnap.
  rewrite Forall_forall in Hsnap.
  by apply (Hsnap s0), list_elem_of_lookup_2 with k.
Qed.

Lemma last_take_S (l : list Z) (k : nat) :
  (k < length l)%nat → last (take (S k) l) = l !! k.
Proof.
  intros Hk. rewrite last_lookup, length_take.
  replace (Init.Nat.pred (S k `min` length l)) with k by lia.
  rewrite lookup_take_lt by lia. done.
Qed.

(** X14. With one frame, for every reference sequence, the snapshot of
    every step of the three functions holds just the page of that step,
    and a step is a hit exactly when it repeats the page of the step
    before it (the first step is a fault). *)
Theorem single_frame_trace (reference : list Z) :
  ∃ rf rl ro,
    simulate_fifo reference 1 = Ok rf ∧
    simulate_lru reference 1 = Ok rl ∧
    simulate_optimal reference 1 = Ok ro ∧
    ∀ r, r ∈ [rf; rl; ro] →
      ∀ k s, steps r !! k = Some s →
        frames s = [page s] ∧
        (is_hit s = true ↔
         ∃ k', k = S k' ∧ reference !! k' = Some (page s)).
Proof.
  destruct (simulate_runs reference 1 ltac:(lia))
    as (rf & rl & ro & Hf & Hl & Ho & Hall).
  exists rf, rl, ro. split_and!; [done|done|done|].
  intros r Hr k s Hk. destruct (Hall r Hr) as [fr Hruns].
  pose proof (runs_trace 1 _ _ _ _ ltac:(lia) Hruns) as Hti.
  split.
  - pose proof (runs_resident 1 _ _ _ _ ltac:(lia) Hruns k s Hk) as Hres.
    pose proof (ti_snap _ _ _ _ _ Hti) as Hsnap.
    rewrite Forall_forall in Hsnap.
    destruct (Hsnap s (list_elem_of_lookup_2 _ _ _ Hk)) as [_ Hlen].
    destruct (frames s) as [|q [|q' fs]]; simpl in Hlen.
    + by apply elem_of_nil in Hres.
    + by apply list_elem_of_singleton in Hres as ->.
    + lia.
  - destruct (runs_single_frame _ _ _ _ Hruns) as [_ Hhits].
    rewrite (Hhits k s Hk). rewrite bool_decide_eq_true.
    assert (Hklt : (k < length reference)%nat).
    { rewrite <- (ti_pages _ _ _ _ _ Hti), length_fmap.
      by eapply lookup_lt_Some. }
    destruct k as [|k'].
    + rewrite take_0. split; [done|]. by intros (k' & ? & _).
    + rewrite last_take_S by lia. split.
      * intros Hlast. by exists k'.
      * by intros (k0 & [= <-] & Hk0).
Qed.

(** more frames never cost LRU a fault *)
Lemma lru_faults_monotone c pre (d : nat) :
  1 ≤ c →
  ∃ fr1 lu1 st1 f1 fr2 lu2 st2 f2,
    lru_loop c pre = Ok (fr1, lu1, st1, f1) ∧
    lru_loop (c + Z.of_nat d) pre = Ok (fr2, lu2, st2, f2) ∧ f2 ≤ f1.
Proof.
  intros Hc. induction d as [|d IH].
  - destruct (lru_loop_inv c pre Hc) as (fr & lu & st & f & Hrun & _).
    exists fr, lu, st, f, fr, lu, st, f.
    rewrite Z.add_0_r. by split_and!.
  - destruct IH as (fr1 & lu1 & st1 & f1 & fr2 & lu2 & st2 & f2 &
                    Hrun1 & Hrun2 & Hf).
    destruct (lru_loops_included (c + Z.of_nat d) pre ltac:(lia))
      as (fr2' & lu2' & st2' & f2' & fr3 & lu3 & st3 & f3 &
          Hrun2' & Hrun3 & _ & Hf').
    rewrite Hrun2 in Hrun2'. injection Hrun2' as <- <- <- <-.
    exists fr1, lu1, st1, f1, fr3, lu3, st3, f3.
    replace (c + Z.of_nat (S d)) with (c + Z.of_nat d + 1) by lia.
    split_and!; [done|done|lia].
Qed.

(** more frames never cost Optimal a fault *)
Lemma optimal_faults_monotone reference c (d : nat) :
  1 ≤ c →
  ∃ fr1 st1 f1 fr2 st2 f2,
    optimal_loop reference c reference = Ok (fr1, st1, f1) ∧
    optimal_loop reference (c + Z.of_nat d) reference = Ok (fr2, st2, f2) ∧
    f2 ≤ f1.
Proof.
  intros Hc. induction d as [|d IH].
  - destruct (optimal_loop_inv reference c reference Hc)
      as (fr & st & f & Hrun & _).
    exists fr, st, f, fr, st, f. rewrite Z.add_0_r. by split_and!.
  - destruct IH as (fr1 & st1 & f1 & fr2 & st2 & f2 & Hrun1 & Hrun2 & Hf).
    destruct (optimal_loops_included reference (c + Z.of_nat d)
                reference [] ltac:(lia))
      as (fr2' & st2' & f2' & fr3 & st3 & f3 & Hrun2' & Hrun3 & _ & Hf');
      [by rewrite app_nil_r|].
    rewrite Hrun2 in Hrun2'. injection Hrun2' as <- <- <-.
    exists fr1, st1, f1, fr3, st3, f3.
    replace (c + Z.of_nat (S d)) with (c + Z.of_nat d + 1) by lia.
    split_and!; [done|done|lia].
Qed.

(** X15. For [simulate_lru] and [simulate_optimal], any larger capacity
    is at least as good: with [1 ≤ c ≤ c'], the run with capacity [c']
    never counts more faults than the run with capacity [c] on the same
    reference sequence. *)
Theorem larger_capacity_never_worse (reference : list Z) (c c' : Z) :
  1 ≤ c → c ≤ c' →
  ∃ l1 l2 o1 o2,
    simulate_lru reference c = Ok l1 ∧
    simulate_lru reference c' = Ok l2 ∧
    simulate_optimal reference c = Ok o1 ∧
    simulate_optimal reference c' = Ok o2 ∧
    total_faults l2 ≤ total_faults l1 ∧
    total_faults o2 ≤ total_faults o1.
Proof.
  intros Hc Hcc.
  replace c' with (c + Z.of_nat (Z.to_nat (c' - c))) by lia.
  destruct (lru_faults_monotone c reference (Z.to_nat (c' - c)) Hc)
    as (lfr1 & lu1 & lst1 & lf1 & lfr2 & lu2 & lst2 & lf2 &
        Hl1 & Hl2 & Hlf).
  destruct (optimal_faults_monotone reference c (Z.to_nat (c' - c)) Hc)
    as (ofr1 & ost1 & of1 & ofr2 & ost2 & of2 & Ho1 & Ho2 & Hof).
  exists (mkAlgorithmResult "LRU" lst1 lf1),
    (mkAlgorithmResult "LRU" lst2 lf2),
    (mkAlgorithmResult "Optimal" ost1 of1),
    (mkAlgorithmResult "Optimal" ost2 of2).
  unfold simulate_lru, simulate_optimal. rewrite Hl1, Hl2, Ho1, Ho2.
  by split_and!.
Qed.

Lemma larger_capacity_never_worse_witness :
  1 ≤ 2 ∧ 2 ≤ 5 ∧
  ∃ l1 l2 o1 o2,
    simulate_lru [1; 2; 3; 4; 1; 2; 5; 1; 2; 3; 4; 5] 2 = Ok l1 ∧
    simulate_lru [1; 2; 3; 4; 1; 2; 5; 1; 2; 3; 4; 5] 5 = Ok l2 ∧
    simulate_optimal [1; 2; 3; 4; 1; 2; 5; 1; 2; 3; 4; 5] 2 = Ok o1 ∧
    simulate_optimal [1; 2; 3; 4; 1; 2; 5; 1; 2; 3; 4; 5] 5 = Ok o2 ∧
    total_faults l2 ≤ total_faults l1 ∧
    total_faults o2 ≤ total_faults o1.
Proof.
  split; [lia|]. split; [lia|].
  apply (larger_capacity_never_worse
           [1; 2; 3; 4; 1; 2; 5; 1; 2; 3; 4; 5] 2 5); lia.
Defined.

(** * The eviction policies, step by step *)

(** The state reached after the pages [pre] is a run of the shared
    contract, whichever function reached it. *)
Lemma fifo_reached_runs c pre fr ord st f :
  1 ≤ c → fifo_loop c pre = Ok (fr, ord, st, f) → runs c pre fr st f.
Proof.
  intros Hc Hrun.
  destruct (fifo_loop_runs c pre Hc) as (fr0 & ord0 & st0 & f0 & Hrun0 & Hruns).
  rewrite Hrun in Hrun0. by injection Hrun0 as -> -> -> ->.
Qed.

Lemma lru_reached_runs c pre fr lu st f :
  1 ≤ c → lru_loop c pre = Ok (fr, lu, st, f) → runs c pre fr st f.
Proof.
  intros Hc Hrun.
  destruct (lru_loop_runs c pre Hc) as (fr0 & lu0 & st0 & f0 & Hrun0 & Hruns).
  rewrite Hrun in Hrun0. by injection Hrun0 as -> -> -> ->.
Qed.

Lemma optimal_reached_runs reference c pre fr st f :
  1 ≤ c → optimal_loop reference c pre = Ok (fr, st, f) → runs c pre fr st f.
Proof.
  intros Hc Hrun.
  destruct (optimal_loop_runs reference c pre Hc)
    as (fr0 & st0 & f0 & Hrun0 & Hruns).
  rewrite Hrun in Hrun0. by injection Hrun0 as -> -> ->.
Qed.

(** C3. In [simulate_fifo] with a capacity of at least one, the loop
    reaches a state after any pages [pre]: the frame list holds
    distinct pages of [pre], as many as [pre] has distinct pages up to
    the capacity, one step is recorded per page, and the queue [order]
    holds exactly the resident pages, by increasing arrival (oldest
    first).  A hit on the next page leaves frames and queue as they are.
    A fault with a free frame appends the page to the frame list and to
    the queue.  A fault with the frame list full takes the victim from
    the front of the queue, which arrived before every other resident
    page whatever hits happened since, overwrites the victim's slot of
    the frame list with the new page and pushes the new page at the back
    of the queue. *)
Theorem fifo_queue_discipline (pre : list Z) (x : Z) (frames_count : Z) :
  1 ≤ frames_count →
  ∃ fr ord st f,
    fifo_loop frames_count pre = Ok (fr, ord, st, f) ∧
    NoDup fr ∧ (∀ p, p ∈ fr → p ∈ pre) ∧
    Z.of_nat (length fr) = Z.min frames_count (Z.of_nat (distinct pre)) ∧
    page <$> st = pre ∧
    ord ≡ₚ fr ∧ oldest_first st ord ∧
    (x ∈ fr →
     fifo_loop frames_count (pre ++ [x]) =
     Ok (fr, ord,
         st ++ [mkStepResult (1 + Z.of_nat (length pre)) x fr true], f)) ∧
    (x ∉ fr → Z.of_nat (length fr) < frames_count →
     fifo_loop frames_count (pre ++ [x]) =
     Ok (fr ++ [x], ord ++ [x],
         st ++ [mkStepResult (1 + Z.of_nat (length pre)) x (fr ++ [x]) false],
         f + 1)) ∧
    (x ∉ fr → frames_count ≤ Z.of_nat (length fr) →
     ∃ victim rest v tv,
       ord = victim :: rest ∧ fr !! v = Some victim ∧
       arrival st victim = Some tv ∧
       (∀ p, p ∈ fr → p ≠ victim → ∃ t, arrival st p = Some t ∧ tv < t) ∧
       fifo_loop frames_count (pre ++ [x]) =
       Ok (<[v := x]> fr, rest ++ [x],
           st ++ [mkStepResult (1 + Z.of_nat (length pre)) x
                    (<[v := x]> fr) false],
           f + 1)).
Proof.
  intros Hc.
  destruct (fifo_loop_inv frames_count pre Hc)
    as (fr & ord & st & f & Hrun & Hperm & Hold & Hti & _).
  pose proof (fifo_reached_runs frames_count pre fr ord st f Hc Hrun) as Hruns.
  exists fr, ord, st, f. split_and!; [done|apply Hti|apply Hti| |apply Hti|
    done|done| | |].
  - by apply (runs_occupancy frames_count pre fr st f).
  - intros Hin. rewrite fifo_loop_snoc, Hrun, res_bind_Ok.
    by apply fifo_body_hit.
  - intros Hnin Hfree. rewrite fifo_loop_snoc, Hrun, res_bind_Ok.
    by apply fifo_body_fill.
  - intros Hnin Hfull. destruct ord as [|victim rest].
    { apply Permutation_nil_l in Hperm. subst fr. simpl in Hfull. lia. }
    assert (Hvic : victim ∈ fr) by (rewrite <- Hperm; left).
    destruct (fifo_body_evict frames_count (1 + Z.of_nat (length pre)) x fr
                (victim :: rest) st f victim rest)
      as (v & Hv & _ & Hbody); [done|done|done|done|].
    destruct (oldest_first_front st victim rest fr Hperm Hold)
      as (tv & Htv & Hfront).
    exists victim, rest, v, tv. split_and!; [done|done|done|done|].
    rewrite fifo_loop_snoc, Hrun, res_bind_Ok. exact Hbody.
Qed.

(** After 1, 2, 3, 1 with three frames the frame list is full and does
    not hold page 4: the fault on 4 evicts page 1, the front of the
    queue, although page 1 was hit one step before. *)
Lemma fifo_queue_discipline_witness :
  1 ≤ 3 ∧
  ∃ st,
    fifo_loop 3 [1; 2; 3; 1] = Ok ([1; 2; 3], [1; 2; 3], st, 3) ∧
    (4 ∉ [1; 2; 3]) ∧
    3 ≤ Z.of_nat (length [1; 2; 3]) ∧
    fifo_loop 3 ([1; 2; 3; 1] ++ [4]) =
    Ok ([4; 2; 3], [2; 3; 4],
        st ++ [mkStepResult (1 + Z.of_nat (length [1; 2; 3; 1])) 4
                 [4; 2; 3] false],
        3 + 1).
Proof.
  split; [lia|].
  destruct (fifo_queue_discipline [1; 2; 3; 1] 4 3)
    as (fr & ord & st & f & Hrun & _ & _ & _ & _ & _ & _ & _ & _ & Hevict);
    [lia|].
  pose proof Hrun as Hstate. vm_compute in Hstate.
  injection Hstate as <- <- _ <-.
  assert (Hnin : 4 ∉ [1; 2; 3]).
  { intros Hin. by repeat (apply elem_of_cons in Hin as [?|Hin]; [done|]);
      apply elem_of_nil in Hin. }
  assert (Hfull : 3 ≤ Z.of_nat (length [1; 2; 3])) by (simpl; lia).
  exists st. split_and!; [exact Hrun|exact Hnin|exact Hfull|].
  destruct (Hevict Hnin Hfull) as (victim & rest & v & tv & Hord & Hv & _ & _ & Hstep).
  injection Hord as <- <-.
  destruct v as [|[|[|v]]]; try done.
Defined.

(** C2. In [simulate_lru] with a capacity of at least one, the loop
    reaches a state after any pages [pre]: the frame list holds
    distinct pages of [pre], as many as [pre] has distinct pages up to
    the capacity, one step is recorded per page, and the dictionary
    [last_used] maps every resident page to the step of its last
    reference; the next step [i], hit or fault, stores [i] for its page.
    A hit leaves the frame list as it is, a fault with a free frame
    appends the page.  On a fault with the frame list full the victim is
    the resident page last referenced at the smallest step, every lower
    slot holding a page referenced strictly later, and the new page
    overwrites the victim's slot. *)
Theorem lru_recency_discipline (pre : list Z) (x : Z) (frames_count : Z) :
  1 ≤ frames_count →
  ∃ fr lu st f,
    lru_loop frames_count pre = Ok (fr, lu, st, f) ∧
    NoDup fr ∧ (∀ p, p ∈ fr → p ∈ pre) ∧
    Z.of_nat (length fr) = Z.min frames_count (Z.of_nat (distinct pre)) ∧
    page <$> st = pre ∧
    (∀ p, p ∈ fr → ∃ i, lu !! p = Some i ∧ last_reference pre p i) ∧
    (∃ fr' st' f',
       lru_loop frames_count (pre ++ [x]) =
       Ok (fr', <[x := 1 + Z.of_nat (length pre)]> lu, st', f')) ∧
    (x ∈ fr →
     lru_loop frames_count (pre ++ [x]) =
     Ok (fr, <[x := 1 + Z.of_nat (length pre)]> lu,
         st ++ [mkStepResult (1 + Z.of_nat (length pre)) x fr true], f)) ∧
    (x ∉ fr → Z.of_nat (length fr) < frames_count →
     lru_loop frames_count (pre ++ [x]) =
     Ok (fr ++ [x], <[x := 1 + Z.of_nat (length pre)]> lu,
         st ++ [mkStepResult (1 + Z.of_nat (length pre)) x (fr ++ [x]) false],
         f + 1)) ∧
    (x ∉ fr → frames_count ≤ Z.of_nat (length fr) →
     ∃ v q iq,
       fr !! v = Some q ∧ last_reference pre q iq ∧
       (∀ k p ip, fr !! k = Some p → last_reference pre p ip →
                  iq ≤ ip ∧ ((k < v)%nat → iq < ip)) ∧
       lru_loop frames_count (pre ++ [x]) =
       Ok (<[v := x]> fr, <[x := 1 + Z.of_nat (length pre)]> lu,
           st ++ [mkStepResult (1 + Z.of_nat (length pre)) x
                    (<[v := x]> fr) false],
           f + 1)).
Proof.
  intros Hc.
  destruct (lru_loop_inv frames_count pre Hc)
    as (fr & lu & st & f & Hrun & Hlu & Hti & _).
  pose proof (lru_reached_runs frames_count pre fr lu st f Hc Hrun) as Hruns.
  assert (Hres : ∀ p, p ∈ fr → ∃ i, lu !! p = Some i ∧ last_reference pre p i).
  { intros p Hp. apply (ti_seen _ _ _ _ _ Hti) in Hp.
    destruct (last_reference_elem pre p Hp) as [i Hi].
    exists i. split; [by apply Hlu|done]. }
  exists fr, lu, st, f. split_and!; [done|apply Hti|apply Hti| |apply Hti|
    done| | | |].
  - by apply (runs_occupancy frames_count pre fr st f).
  - rewrite lru_loop_snoc, Hrun, res_bind_Ok.
    destruct (decide (x ∈ fr)) as [Hin|Hnin].
    { rewrite lru_body_hit by done. by eexists _, _, _. }
    destruct (decide (Z.of_nat (length fr) < frames_count)) as [Hlt|Hge].
    { rewrite lru_body_fill by done. by eexists _, _, _. }
    assert (Hne : fr ≠ []) by (intros ->; simpl in Hge; lia).
    destruct (lru_body_evict frames_count (1 + Z.of_nat (length pre)) x
                fr lu st f)
      as (v & q & _ & _ & _ & Hbody); [done|lia|done|].
    rewrite Hbody. by eexists _, _, _.
  - intros Hin. rewrite lru_loop_snoc, Hrun, res_bind_Ok.
    by apply lru_body_hit.
  - intros Hnin Hfree. rewrite lru_loop_snoc, Hrun, res_bind_Ok.
    by apply lru_body_fill.
  - intros Hnin Hfull.
    assert (Hne : fr ≠ []) by (intros ->; simpl in Hfull; lia).
    destruct (lru_body_evict frames_count (1 + Z.of_nat (length pre)) x
                fr lu st f)
      as (v & q & Hv & Hle & Hlt & Hbody); [done|done|done|].
    destruct (Hres q) as (iq & Hq & Hiq); [by eapply list_elem_of_lookup_2|].
    assert (Hget : ∀ p ip, last_reference pre p ip → Py.get lu p 0 = ip).
    { intros p ip Hip%Hlu. unfold Py.get. by rewrite Hip. }
    exists v, q, iq. split_and!; [done|done| |].
    + intros k p ip Hk Hip. split.
      * specialize (Hle p (list_elem_of_lookup_2 _ _ _ Hk)).
        by rewrite (Hget q iq), (Hget p ip) in Hle.
      * intros Hkv. specialize (Hlt k p Hkv Hk).
        by rewrite (Hget q iq), (Hget p ip) in Hlt.
    + rewrite lru_loop_snoc, Hrun, res_bind_Ok. exact Hbody.
Qed.

(** After 1, 2, 3, 1 with three frames the frame list is full and does
    not hold page 4: the fault on 4 evicts from a slot whose page has the
    least step of last reference among the resident pages. *)
Lemma lru_recency_discipline_witness :
  1 ≤ 3 ∧
  ∃ lu st,
    lru_loop 3 [1; 2; 3; 1] = Ok ([1; 2; 3], lu, st, 3) ∧
    (4 ∉ [1; 2; 3]) ∧
    3 ≤ Z.of_nat (length [1; 2; 3]) ∧
    ∃ v q iq,
      [1; 2; 3] !! v = Some q ∧ last_reference [1; 2; 3; 1] q iq ∧
      (∀ k p ip, [1; 2; 3] !! k = Some p →
                 last_reference [1; 2; 3; 1] p ip →
                 iq ≤ ip ∧ ((k < v)%nat → iq < ip)) ∧
      lru_loop 3 ([1; 2; 3; 1] ++ [4]) =
      Ok (<[v := 4]> [1; 2; 3],
          <[4 := 1 + Z.of_nat (length [1; 2; 3; 1])]> lu,
          st ++ [mkStepResult (1 + Z.of_nat (length [1; 2; 3; 1])) 4
                   (<[v := 4]> [1; 2; 3]) false],
          3 + 1).
Proof.
  split; [lia|].
  destruct (lru_recency_discipline [1; 2; 3; 1] 4 3)
    as (fr & lu & st & f & Hrun & _ & _ & _ & _ & _ & _ & _ & _ & Hevict);
    [lia|].
  pose proof Hrun as Hstate. vm_compute in Hstate.
  injection Hstate as <- _ _ <-.
  assert (Hnin : 4 ∉ [1; 2; 3]).
  { intros Hin. by repeat (apply elem_of_cons in Hin as [?|Hin]; [done|]);
      apply elem_of_nil in Hin. }
  assert (Hfull : 3 ≤ Z.of_nat (length [1; 2; 3])) by (simpl; lia).
  exists lu, st. split_and!; [exact Hrun|exact Hnin|exact Hfull|].
  exact (Hevict Hnin Hfull).
Defined.

(** C1. In [simulate_optimal] with a capacity of at least one, the loop
    reaches a state after the pages [pre] of the reference sequence: the
    frame list holds distinct pages of [pre], as many as [pre] has
    distinct pages up to the capacity, and one step is recorded per
    page.  A hit on the page at position [length pre] leaves the frame
    list as it is, a fault with a free frame appends the page.  When the
    page faults with the frame list full, the slot [v] that receives it
    is the victim of [optimal_victim]: the lowest slot whose page has no
    occurrence after the current position if there is such a slot, and
    otherwise the slot whose page has the largest next occurrence, no
    lower slot reaching it; no other slot changes. *)
Theorem optimal_victim_choice (pre post : list Z) (x : Z) (frames_count : Z) :
  1 ≤ frames_count →
  ∃ fr st f,
    optimal_loop (pre ++ x :: post) frames_count pre = Ok (fr, st, f) ∧
    NoDup fr ∧ (∀ p, p ∈ fr → p ∈ pre) ∧
    Z.of_nat (length fr) = Z.min frames_count (Z.of_nat (distinct pre)) ∧
    page <$> st = pre ∧
    (x ∈ fr →
     optimal_loop (pre ++ x :: post) frames_count (pre ++ [x]) =
     Ok (fr, st ++ [mkStepResult (1 + Z.of_nat (length pre)) x fr true], f)) ∧
    (x ∉ fr → Z.of_nat (length fr) < frames_count →
     optimal_loop (pre ++ x :: post) frames_count (pre ++ [x]) =
     Ok (fr ++ [x],
         st ++ [mkStepResult (1 + Z.of_nat (length pre)) x (fr ++ [x]) false],
         f + 1)) ∧
    (x ∉ fr → frames_count ≤ Z.of_nat (length fr) →
     ∃ v,
       optimal_victim (pre ++ x :: post) (length pre) fr v ∧
       optimal_loop (pre ++ x :: post) frames_count (pre ++ [x]) =
       Ok (<[v := x]> fr,
           st ++ [mkStepResult (1 + Z.of_nat (length pre)) x
                    (<[v := x]> fr) false],
           f + 1)).
Proof.
  intros Hc.
  destruct (optimal_loop_inv (pre ++ x :: post) frames_count pre Hc)
    as (fr & st & f & Hrun & Hti & _).
  pose proof (optimal_reached_runs (pre ++ x :: post) frames_count pre fr st f
                Hc Hrun) as Hruns.
  exists fr, st, f. split_and!; [done|apply Hti|apply Hti| |apply Hti| | |].
  - by apply (runs_occupancy frames_count pre fr st f).
  - intros Hin. rewrite optimal_loop_snoc, Hrun, res_bind_Ok.
    by apply optimal_body_hit.
  - intros Hnin Hfree. rewrite optimal_loop_snoc, Hrun, res_bind_Ok.
    by apply optimal_body_fill.
  - intros Hnin Hfull.
    assert (Hne : fr ≠ []) by (intros ->; simpl in Hfull; lia).
    destruct (optimal_body_evict (pre ++ x :: post) frames_count
                (1 + Z.of_nat (length pre)) x fr st f)
      as (v & _ & Hvic & Hbody); [done|done|done|].
    replace (Z.to_nat (1 + Z.of_nat (length pre) - 1)) with (length pre)
      in Hvic by lia.
    exists v. split; [done|].
    rewrite optimal_loop_snoc, Hrun, res_bind_Ok. exact Hbody.
Qed.

(** On 1, 2, 3, 4, 1, 3, 1 with three frames the frame list is full and
    does not hold page 4 when position 3 is reached: the fault on 4
    evicts from the slot that [optimal_victim] names. *)
Lemma optimal_victim_choice_witness :
  1 ≤ 3 ∧
  ∃ st,
    optimal_loop ([1; 2; 3] ++ 4 :: [1; 3; 1]) 3 [1; 2; 3] =
    Ok ([1; 2; 3], st, 3) ∧
    (4 ∉ [1; 2; 3]) ∧
    3 ≤ Z.of_nat (length [1; 2; 3]) ∧
    ∃ v,
      optimal_victim ([1; 2; 3] ++ 4 :: [1; 3; 1]) (length [1; 2; 3])
        [1; 2; 3] v ∧
      optimal_loop ([1; 2; 3] ++ 4 :: [1; 3; 1]) 3 ([1; 2; 3] ++ [4]) =
      Ok (<[v := 4]> [1; 2; 3],
          st ++ [mkStepResult (1 + Z.of_nat (length [1; 2; 3])) 4
                   (<[v := 4]> [1; 2; 3]) false],
          3 + 1).
Proof.
  split; [lia|].
  destruct (optimal_victim_choice [1; 2; 3] [1; 3; 1] 4 3)
    as (fr & st & f & Hrun & _ & _ & _ & _ & _ & _ & Hevict); [lia|].
  pose proof Hrun as Hstate. vm_compute in Hstate.
  injection Hstate as <- _ <-.
  assert (Hnin : 4 ∉ [1; 2; 3]).
  { intros Hin. by repeat (apply elem_of_cons in Hin as [?|Hin]; [done|]);
      apply elem_of_nil in Hin. }
  assert (Hfull : 3 ≤ Z.of_nat (length [1; 2; 3])) by (simpl; lia).
  exists st. split_and!; [exact Hrun|exact Hnin|exact Hfull|].
  exact (Hevict Hnin Hfull).
Defined.
